(** * Bó: voice-triggered combo game — audio encoder, keyword spotter,
      combo/score engine and particle simulator

    Shallow embedding of
      - [utils/audio.ts]   ([downsampleTo16k], [createPcmBlob], [base64EncodeUint8Array]),
      - [App.tsx]          ([BO_REGEX], the [gameState] cell, [triggerBo], [onmessage]),
      - [components/BoVisualizer.tsx] ([updateParticles]).

    JavaScript numbers that carry fractional values (audio samples, particle
    coordinates) are IEEE-754 binary64 values, modelled with the executable
    specification [spec_float] of the Standard Library, at precision 53 and
    maximal exponent 1024.  So are the score, the combo and the particle id
    counter.  The length of an array of matches and the time value returned
    by [Date.now()] enter as integers and are converted where the program
    computes with them. *)

From Stdlib Require Import ZArith Zpower List Bool Lia SpecFloat Ascii String.
Import ListNotations.
Local Open Scope Z_scope.

(* ===================================================================== *)
(** ** JavaScript numbers *)
(* ===================================================================== *)

Module JS.

Definition number := spec_float.

Definition prec : Z := 53.
Definition emax : Z := 1024.

(** A [spec_float] is a binary64 value when its mantissa is canonical
    (53 significant bits, or fewer at the smallest exponent) and its
    exponent is in range; every value a JavaScript number can hold has
    exactly one such representation. *)
Definition valid (x : number) : bool := valid_binary prec emax x.

Definition add : number -> number -> number := SFadd prec emax.
Definition sub : number -> number -> number := SFsub prec emax.
Definition mul : number -> number -> number := SFmul prec emax.
Definition div : number -> number -> number := SFdiv prec emax.

(** [x < y], [x > y], [x <= y], [x === y]; every comparison with NaN is false. *)
Definition lt (x y : number) : bool := SFltb x y.
Definition gt (x y : number) : bool := SFltb y x.
Definition le (x y : number) : bool := SFleb x y.
Definition strictEq (x y : number) : bool := SFeqb x y.

(** The number denoted by an integer literal or an integer-valued counter. *)
Definition ofZ (z : Z) : number := binary_normalize prec emax z 0 false.

(** The literal [0]. *)
Definition zero : number := S754_zero false.

(** [Math.min] and [Math.max] on two arguments: NaN is contagious and
    [-0] is smaller than [+0]. *)
Definition Math_min (x y : number) : number :=
  match x, y with
  | S754_nan, _ | _, S754_nan => S754_nan
  | S754_zero sx, S754_zero sy => S754_zero (sx || sy)
  | _, _ => if SFltb y x then y else x
  end.

Definition Math_max (x y : number) : number :=
  match x, y with
  | S754_nan, _ | _, S754_nan => S754_nan
  | S754_zero sx, S754_zero sy => S754_zero (sx && sy)
  | _, _ => if SFltb x y then y else x
  end.

(** Integer part of a finite value, rounded toward zero, toward minus
    infinity and toward plus infinity.  Zeros give 0; NaN and the
    infinities have no integer part. *)
Definition signed (s : bool) (m : Z) : Z := if s then - m else m.

Definition truncZ (x : number) : option Z :=
  match x with
  | S754_zero _ => Some 0
  | S754_finite s m e =>
      Some (signed s (if 0 <=? e then Z.pos m * 2 ^ e
                      else Z.pos m / 2 ^ (- e)))
  | _ => None
  end.

Definition floorZ (x : number) : option Z :=
  match x with
  | S754_zero _ => Some 0
  | S754_finite s m e =>
      Some (if 0 <=? e then signed s (Z.pos m) * 2 ^ e
            else signed s (Z.pos m) / 2 ^ (- e))
  | _ => None
  end.

Definition ceilZ (x : number) : option Z :=
  match x with
  | S754_zero _ => Some 0
  | S754_finite s m e =>
      Some (if 0 <=? e then signed s (Z.pos m) * 2 ^ e
            else - ((- signed s (Z.pos m)) / 2 ^ (- e)))
  | _ => None
  end.

(** [Math.floor] and [Math.ceil]: the result is again a number; a zero
    result keeps the sign of the argument. *)
Definition sign_of (x : number) : bool :=
  match x with
  | S754_zero s | S754_infinity s | S754_finite s _ _ => s
  | S754_nan => false
  end.

Definition Math_floor (x : number) : number :=
  match floorZ x with
  | Some z => binary_normalize prec emax z 0 (sign_of x)
  | None => x
  end.

Definition Math_ceil (x : number) : number :=
  match ceilZ x with
  | Some z => binary_normalize prec emax z 0 (sign_of x)
  | None => x
  end.

(** [Math.fround]: rounding to binary32 (precision 24, maximal exponent
    128), the result read back as a binary64 value.  This is what a store
    into a [Float32Array] does. *)
Definition fround (x : number) : number :=
  match x with
  | S754_finite s m e =>
      match binary_round 24 128 s m e with
      | S754_finite s' m' e' => binary_round prec emax s' m' e'
      | y => y
      end
  | _ => x
  end.

(** [ToInt16], the conversion of a store into an [Int16Array]: NaN, zeros
    and infinities give 0; otherwise truncate and reduce modulo 2^16 into
    the signed range. *)
Definition wrap16 (z : Z) : Z :=
  let r := z mod 65536 in
  if 32768 <=? r then r - 65536 else r.

Definition ToInt16 (x : number) : Z :=
  match truncZ x with
  | Some z => wrap16 z
  | None => 0
  end.

(** [ToIndex], used by [new Float32Array(n)]: NaN gives 0, the value is
    truncated, and a negative or too large index is a [RangeError]
    ([None]).  The allocation limit of a particular engine is not
    modelled: [Some n] says that [n] is a valid length, which an engine
    may still refuse to allocate when [n] is large. *)
Definition ToIndex (x : number) : option Z :=
  match x with
  | S754_nan => Some 0
  | S754_infinity _ => None
  | _ =>
      match truncZ x with
      | Some z => if (0 <=? z) && (z <=? 2 ^ 53 - 1) then Some z else None
      | None => None
      end
  end.

(** Truthiness of a number, for [v || 0]: NaN and both zeros are falsy. *)
Definition truthy (x : number) : bool :=
  match x with
  | S754_nan | S754_zero _ => false
  | _ => true
  end.

(** The number of passes of [for (let j = 0; j < bound; j++)]: the
    integers from 0 on that are below [bound], none when [bound] is NaN,
    zero or negative.  This is for a finite bound below 2^53; with a
    larger or infinite bound the loop would not end.  The only such loop
    of the program is bounded by [particleCount], which is never
    [+Infinity], and is between 6 and 15 in every state that the
    component reaches. *)
Definition iterations (bound : number) : nat :=
  match ceilZ bound with
  | Some z => Z.to_nat z
  | None => 0
  end.

(** The binary64 value of a non-zero integer of magnitude [v < 2^53] and
    sign [s]: the mantissa is [v] shifted up to 53 bits. *)
Definition intRep (s : bool) (v : positive) : number :=
  S754_finite s (Z.to_pos (Z.pos v * 2 ^ (53 - Z.pos (digits2_pos v))))
    (Z.pos (digits2_pos v) - 53).

(** The integer of sign [s] and magnitude [v]. *)
Definition intVal (s : bool) (v : positive) : Z := cond_Zopp s (Z.pos v).

(** [atLeast p x]: [x] is a positive number, possibly infinite, whose
    leading bit has weight [2^p] or more, so that [2^p <= x]. *)
Definition atLeast (p : Z) (x : number) : Prop :=
  match x with
  | S754_infinity false => True
  | S754_finite false m e => p <= Z.log2 (Z.pos m) + e
  | _ => False
  end.

(** [nonneg x]: [x] is a zero, a positive number or plus infinity. *)
Definition nonneg (x : number) : Prop :=
  match x with
  | S754_zero _ | S754_infinity false | S754_finite false _ _ => True
  | _ => False
  end.

(** The number [2^p]. *)
Definition pow2 (p : Z) : number := S754_finite false 4503599627370496 (p - 52).

End JS.

(* ===================================================================== *)
(** ** utils/audio.ts: resampler and PCM encoder *)
(* ===================================================================== *)


Module Audio.
Import JS.

(** A [Float32Array], element by element; [length] is its [.length]. *)
Definition Float32Array := list number.
Definition Int16Array := list Z.
Definition Uint8Array := list Z.

Definition len (buffer : Float32Array) : number :=
  ofZ (Z.of_nat (List.length buffer)).

Definition isInteger (x : number) : bool :=
  match floorZ x, ceilZ x with
  | Some a, Some b => a =? b
  | _, _ => false
  end.

(** [buffer[idx]]: a typed array read at a numeric key is [undefined]
    ([None]) unless the key is an integer index inside the array. *)
Definition element (buffer : Float32Array) (idx : number) : option number :=
  if isInteger idx then
    match truncZ idx with
    | Some z => if 0 <=? z then nth_error buffer (Z.to_nat z) else None
    | None => None
    end
  else None.

(** [v || 0] *)
Definition orZero (v : option number) : number :=
  match v with
  | Some x => if truthy x then x else zero
  | None => zero
  end.

(** Body of the resampling loop at output index [i]; the store into the
    [Float32Array] rounds to single precision. *)
Definition interpolate (buffer : Float32Array) (ratio : number) (i : Z) : number :=
  let originalIndex := mul (ofZ i) ratio in
  let index1 := Math_floor originalIndex in
  let index2 := Math_min (Math_ceil originalIndex) (sub (len buffer) (ofZ 1)) in
  let t := sub originalIndex index1 in
  let p1 := orZero (element buffer index1) in
  let p2 := orZero (element buffer index2) in
  fround (add (mul p1 (sub (ofZ 1) t)) (mul p2 t)).

(** [newLength] as the source computes it, in double precision. *)
Definition newLength (buffer : Float32Array) (inputSampleRate : number) : number :=
  let ratio := div inputSampleRate (ofZ 16000) in
  Math_ceil (div (len buffer) ratio).

(** [downsampleTo16k]; [None] is the [RangeError] of
    [new Float32Array(newLength)]. *)
Definition downsampleTo16k (buffer : Float32Array) (inputSampleRate : number)
  : option Float32Array :=
  if strictEq inputSampleRate (ofZ 16000) then Some buffer
  else
    let ratio := div inputSampleRate (ofZ 16000) in
    match ToIndex (newLength buffer inputSampleRate) with
    | None => None
    | Some n =>
        Some (map (fun i => interpolate buffer ratio (Z.of_nat i))
                  (seq 0 (Z.to_nat n)))
    end.

(** [Math.max(-1, Math.min(1, x))] *)
Definition clamp (x : number) : number :=
  Math_max (ofZ (-1)) (Math_min (ofZ 1) x).

(** [s < 0 ? s * 0x8000 : s * 0x7FFF] *)
Definition scale (s : number) : number :=
  if lt s zero then mul s (ofZ 32768) else mul s (ofZ 32767).

(** One iteration of the conversion loop: the value stored in [int16[i]]. *)
Definition pcm16 (x : number) : Z := ToInt16 (scale (clamp x)).

(** [new Uint8Array(int16.buffer)]: two bytes per element in two's
    complement, low byte first (the byte order of the platforms the
    program runs on). *)
Definition bytesOfInt16 (v : Z) : list Z :=
  let u := v mod 65536 in [u mod 256; u / 256].

Definition int16Bytes (a : Int16Array) : Uint8Array := flat_map bytesOfInt16 a.

(** [btoa] applied to the binary string of the bytes. *)
Definition b64digit (n : Z) : ascii :=
  let k := Z.to_nat n in
  if (k <? 26)%nat then ascii_of_nat (65 + k)
  else if (k <? 52)%nat then ascii_of_nat (97 + (k - 26))
  else if (k <? 62)%nat then ascii_of_nat (48 + (k - 52))
  else if (k =? 62)%nat then "+"%char else "/"%char.

Fixpoint base64EncodeUint8Array (bytes : Uint8Array) : string :=
  match bytes with
  | [] => EmptyString
  | [a] =>
      String (b64digit (a / 4)) (String (b64digit (a mod 4 * 16)) "=="%string)
  | [a; b] =>
      String (b64digit (a / 4))
        (String (b64digit (a mod 4 * 16 + b / 16))
           (String (b64digit (b mod 16 * 4)) "="%string))
  | a :: b :: c :: rest =>
      String (b64digit (a / 4))
        (String (b64digit (a mod 4 * 16 + b / 16))
           (String (b64digit (b mod 16 * 4 + c / 64))
              (String (b64digit (c mod 64)) (base64EncodeUint8Array rest))))
  end.

Record Blob := { data : string; mimeType : string }.

(** The [Int16Array] filled by the loop of [createPcmBlob]. *)
Definition pcmInt16 (downsampledData : Float32Array) : Int16Array :=
  map pcm16 downsampledData.

(** The byte sequence handed to the base64 encoder. *)
Definition pcmBytes (data : Float32Array) (inputSampleRate : number)
  : option Uint8Array :=
  match downsampleTo16k data inputSampleRate with
  | Some downsampledData => Some (int16Bytes (pcmInt16 downsampledData))
  | None => None
  end.

Definition createPcmBlob (data : Float32Array) (inputSampleRate : number)
  : option Blob :=
  match pcmBytes data inputSampleRate with
  | Some bytes =>
      Some {| data := base64EncodeUint8Array bytes;
              mimeType := "audio/pcm;rate=16000" |}
  | None => None
  end.

(** The literals [1] and [-1] of the clamp. *)
Definition plusOne : number := S754_finite false 4503599627370496 (-52).
Definition minusOne : number := S754_finite true 4503599627370496 (-52).

(** Magnitude at most 1: a zero, or [m * 2^e] with [m <= 2^-e]. *)
Definition unitRange (s : number) : Prop :=
  match s with
  | S754_zero _ => True
  | S754_finite _ m e => e <= -52 /\ Z.pos m <= 2 ^ (- e)
  | _ => False
  end.

(** The magnitude of a finite value with mantissa [m] and exponent [e],
    compared with 1. *)
Definition compareWithOne (m : positive) (e : Z) : comparison :=
  match e ?= -52 with
  | Lt => Lt
  | Gt => Gt
  | Eq => Pos.compare_cont Eq m 4503599627370496
  end.

(** *** The colour palette *)

Definition COLORS : list string :=
  [ "text-pink-500"; "text-purple-600"; "text-indigo-500"; "text-cyan-500";
    "text-teal-400"; "text-yellow-400"; "text-orange-500"; "text-red-500" ]%string.

(** [array[idx]] on an ordinary array: [undefined] ([None]) unless the key
    is an integer index inside the array. *)
Definition arrayGet {A : Type} (a : list A) (idx : number) : option A :=
  if isInteger idx then
    match truncZ idx with
    | Some z => if 0 <=? z then nth_error a (Z.to_nat z) else None
    | None => None
    end
  else None.

(** [getRandomColor]; [random] is the value that [Math.random()] returned,
    and [None] is [undefined]. *)
Definition getRandomColor (random : number) : option string :=
  arrayGet COLORS
    (Math_floor (mul random (ofZ (Z.of_nat (List.length COLORS))))).

(** *** The receiving side of the payload

    Standard base64 decoding (RFC 4648, with padding) and the reading of
    little-endian signed 16-bit samples.  The program only encodes; these
    inverses serve to state what the encoded payload carries. *)

Definition b64value (c : ascii) : option Z :=
  let n := Z.of_nat (nat_of_ascii c) in
  if (65 <=? n) && (n <=? 90) then Some (n - 65)
  else if (97 <=? n) && (n <=? 122) then Some (n - 71)
  else if (48 <=? n) && (n <=? 57) then Some (n + 4)
  else if n =? 43 then Some 62
  else if n =? 47 then Some 63
  else None.

Definition isPad (c : ascii) : bool := (nat_of_ascii c =? 61)%nat.

Definition isEmptyString (s : string) : bool :=
  match s with EmptyString => true | _ => false end.

Fixpoint base64Decode (s : string) : option (list Z) :=
  match s with
  | EmptyString => Some []
  | String c1 (String c2 (String c3 (String c4 rest))) =>
      match b64value c1, b64value c2 with
      | Some v1, Some v2 =>
          if isPad c3 then
            if isPad c4 && isEmptyString rest
            then Some [v1 * 4 + v2 / 16] else None
          else
            match b64value c3 with
            | Some v3 =>
                if isPad c4 then
                  if isEmptyString rest
                  then Some [v1 * 4 + v2 / 16; v2 mod 16 * 16 + v3 / 4]
                  else None
                else
                  match b64value c4, base64Decode rest with
                  | Some v4, Some bytes =>
                      Some (v1 * 4 + v2 / 16 :: v2 mod 16 * 16 + v3 / 4
                            :: v3 mod 4 * 64 + v4 :: bytes)
                  | _, _ => None
                  end
            | None => None
            end
      | _, _ => None
      end
  | _ => None
  end.

Fixpoint int16OfBytes (bytes : list Z) : option (list Z) :=
  match bytes with
  | [] => Some []
  | lo :: hi :: rest =>
      match int16OfBytes rest with
      | Some samples => Some (wrap16 (lo + 256 * hi) :: samples)
      | None => None
      end
  | _ => None
  end.

Definition isByte (z : Z) : Prop := 0 <= z < 256.

End Audio.

(* ===================================================================== *)
(** ** App.tsx: the keyword spotter [BO_REGEX] *)
(* ===================================================================== *)

Module Spotter.

(** A JavaScript string is a sequence of UTF-16 code units. *)
Definition jsString := list Z.

Definition units (s : string) : jsString :=
  map (fun a => Z.of_nat (nat_of_ascii a)) (list_ascii_of_string s).

(** U+00F3, LATIN SMALL LETTER O WITH ACUTE, as the source file spells it
    (one precomposed code unit); U+00D3 is its capital. *)
Definition o_acute : Z := 243.
Definition O_acute : Z := 211.

(** The alternatives of [/\b(bó|bo|bow|ball|boy|bough|paul|bof)\b/gi],
    in the order the pattern lists them. *)
Definition alternatives : list jsString :=
  [ [98; o_acute]; units "bo"; units "bow"; units "ball"; units "boy";
    units "bough"; units "paul"; units "bof" ].

(** [\w] without the [u] flag: the 63 characters [A-Za-z0-9_]. *)
Definition isWordChar (c : Z) : bool :=
  ((48 <=? c) && (c <=? 57)) || ((65 <=? c) && (c <=? 90))
  || (c =? 95) || ((97 <=? c) && (c <=? 122)).

(** [Canonicalize] of the [i] flag (no [u] flag): the upper-case form of a
    code unit.  Only ASCII and Latin-1 letters are folded here: the
    pattern's characters canonicalize to [B O W A L Y U G H P F] and
    U+00D3, and a non-ASCII code unit is never canonicalized to an ASCII
    one, so no code unit left unfolded could match a pattern character. *)
Definition canonicalize (c : Z) : Z :=
  if (97 <=? c) && (c <=? 122) then c - 32
  else if (224 <=? c) && (c <=? 254) && negb (c =? 247) then c - 32
  else c.

Definition isWordOpt (c : option Z) : bool :=
  match c with Some c => isWordChar c | None => false end.

(** [\b] between two neighbouring positions; outside the string counts as
    a non-word character. *)
Definition wordBoundary (before after : option Z) : bool :=
  xorb (isWordOpt before) (isWordOpt after).

(** The characters of [alt] match a prefix of [input], ignoring case. *)
Fixpoint matchesPrefix (alt input : jsString) : bool :=
  match alt, input with
  | [], _ => true
  | a :: alt', c :: input' =>
      (canonicalize a =? canonicalize c) && matchesPrefix alt' input'
  | _ :: _, [] => false
  end.

(** One alternative followed by the closing [\b]. *)
Definition tryAlternative (input alt : jsString) : option nat :=
  let n := List.length alt in
  if matchesPrefix alt input
     && wordBoundary (nth_error input (n - 1)) (nth_error input n)
  then Some n else None.

(** Backtracking over the alternatives, first success wins. *)
Fixpoint firstAlternative (input : jsString) (alts : list jsString) : option nat :=
  match alts with
  | [] => None
  | alt :: alts' =>
      match tryAlternative input alt with
      | Some n => Some n
      | None => firstAlternative input alts'
      end
  end.

(** A match of the whole pattern starting at the head of [input], the
    previous code unit being [before]; the result is the match length. *)
Definition matchHere (before : option Z) (input : jsString) : option nat :=
  if wordBoundary before (nth_error input 0)
  then firstAlternative input alternatives
  else None.

(** [text.match(BO_REGEX)] with the [g] flag: scan left to right, and
    after a match resume at its end.  [skip] counts the code units of the
    current match still to be stepped over. *)
Fixpoint scan (before : option Z) (input : jsString) (skip : nat)
  : list jsString :=
  match input with
  | [] => []
  | c :: rest =>
      match skip with
      | S k => scan (Some c) rest k
      | O =>
          match matchHere before input with
          | Some n => firstn n input :: scan (Some c) rest (n - 1)
          | None => scan (Some c) rest 0
          end
      end
  end.

(** [null] is [None]. *)
Definition matchAll (text : jsString) : option (list jsString) :=
  match scan None text 0 with
  | [] => None
  | ms => Some ms
  end.

(** The number of occurrences the handler acts upon. *)
Definition matchCount (text : jsString) : Z :=
  match matchAll text with
  | Some ms => Z.of_nat (List.length ms)
  | None => 0
  end.

(** The transcript of the spoken combo, [b ó _ b ó _ b ó]: three times the
    canonical trigger word, separated by spaces. *)
Definition boBoBo : jsString :=
  [98; o_acute; 32; 98; o_acute; 32; 98; o_acute].

(** [String.prototype.toUpperCase] on a string of Latin-1 code units
    (below 256), unit by unit: the letters [a-z] and U+00E0 to U+00FE
    (but not the division sign U+00F7) move down by 32, the sharp s
    U+00DF becomes the two letters [SS], the micro sign U+00B5 becomes
    U+039C, U+00FF becomes U+0178, every other unit is kept.  Code units
    from 256 on are outside of this definition. *)
Definition upperUnit (c : Z) : jsString :=
  if c =? 223 then [83; 83]
  else if c =? 181 then [924]
  else if c =? 255 then [376]
  else if ((97 <=? c) && (c <=? 122))
          || ((224 <=? c) && (c <=? 254) && negb (c =? 247)) then [c - 32]
  else [c].

Definition toUpperCase (text : jsString) : jsString := flat_map upperUnit text.

(** The code unit that replaces [c], where it is a single one. *)
Definition upperOne (c : Z) : Z :=
  match upperUnit c with
  | [u] => u
  | _ => c
  end.

(** A pattern character that is none of the four code units on which
    [toUpperCase] and [canonicalize] disagree. *)
Definition plain (a : Z) : bool :=
  negb (canonicalize a =? 181) && negb (canonicalize a =? 924)
  && negb (canonicalize a =? 255) && negb (canonicalize a =? 376).

(** The transcript [bo] followed by a sharp s. *)
Definition boSharpS : jsString := [98; 111; 223].

End Spotter.

(* ===================================================================== *)
(** ** types.ts and components/BoVisualizer.tsx: particles *)
(* ===================================================================== *)

Module BoVisualizer.
Import JS.

Record Particle := {
  id : number;
  x : number;
  y : number;
  text : Spotter.jsString;
  vx : number;
  vy : number;
  rotation : number;
  vRotation : number;
  scale : number;
  color : string;
  life : number;
  decay : number
}.

(** The literal [0.5], exactly 2^-1. *)
Definition gravity : number := S754_finite false 4503599627370496 (-53).

(** The object built by the [map] callback: the spread copies every field
    and the five listed ones are overwritten, each computed from the
    fields of the old particle. *)
Definition advance (p : Particle) : Particle :=
  {| id := id p;
     x := add (x p) (vx p);
     y := add (y p) (vy p);
     text := text p;
     vx := vx p;
     vy := add (vy p) gravity;
     rotation := add (rotation p) (vRotation p);
     vRotation := vRotation p;
     scale := scale p;
     color := color p;
     life := sub (life p) (decay p);
     decay := decay p |}.

(** The [filter] callback, [p.life > 0]. *)
Definition alive (p : Particle) : bool := gt (life p) zero.

(** The state updater passed to [setParticles] on every animation frame. *)
Definition updateParticles (prevParticles : list Particle) : list Particle :=
  if (List.length prevParticles =? 0)%nat then prevParticles
  else filter alive (map advance prevParticles).

(** [n] animation frames in a row. *)
Fixpoint ticks (n : nat) (ps : list Particle) : list Particle :=
  match n with
  | O => ps
  | S k => ticks k (updateParticles ps)
  end.

(** The particles of a population that are still there after the frame. *)
Definition survivors (ps : list Particle) : list Particle :=
  filter (fun p => alive (advance p)) ps.

(** The literals [1.0] and [0.02].  The latter denotes the binary64 value
    nearest to 1/50, 0x1.47ae147ae147bp-6. *)
Definition one : number := S754_finite false 4503599627370496 (-52).
Definition two_hundredths : number := S754_finite false 5764607523034235 (-58).

(** The life of a particle after [n] frames, from its life and decay. *)
Fixpoint lifeAfter (n : nat) (l d : number) : number :=
  match n with
  | O => l
  | S k => lifeAfter k (sub l d) d
  end.

Definition aliveThrough (n : nat) (l d : number) : bool :=
  forallb (fun k => gt (lifeAfter k l d) zero) (seq 1 n).

End BoVisualizer.

(* ===================================================================== *)
(** ** App.tsx: game state, [triggerBo] and the session callbacks *)
(* ===================================================================== *)

Module App.
Import JS BoVisualizer.

Record GameState := {
  score : number;
  combo : number;
  maxCombo : number;
  lastBoTime : number
}.

Inductive ConnectionState := DISCONNECTED | CONNECTING | CONNECTED | ERROR.

(** The argument of [useState<GameState>]. *)
Definition initialGameState : GameState :=
  {| score := ofZ 0; combo := ofZ 1; maxCombo := ofZ 1; lastBoTime := ofZ 0 |}.

(** The updater [prev => ...] that [triggerBo] passes to [setGameState].
    [count] is the argument of [triggerBo], the length of the array of
    matches, and [now] the integral time value that [Date.now()] returned
    on entry; the arithmetic on them is that of binary64 numbers. *)
Definition comboUpdate (count now : Z) (prev : GameState) : GameState :=
  let isCombo := lt (sub (ofZ now) (lastBoTime prev)) (ofZ 2000) in
  let newCombo := if isCombo then add (combo prev) (ofZ count) else ofZ 1 in
  let points := mul (mul (ofZ count) (ofZ 100)) newCombo in
  {| score := add (score prev) points;
     combo := newCombo;
     maxCombo := Math_max (maxCombo prev) newCombo;
     lastBoTime := ofZ now |}.

(** What the environment contributes to one new particle: the values
    derived from [Math.random], [Math.cos], [Math.sin], the window size
    and [getRandomColor]. *)
Record Draw := {
  startX : number;
  startY : number;
  drawVx : number;
  drawVy : number;
  drawRotation : number;
  drawVRotation : number;
  drawScale : number;
  drawColor : string;
  drawDecay : number
}.

(** The text of every particle, the two code units of [BÓ]. *)
Definition boText : Spotter.jsString := [66; Spotter.O_acute].

Definition newParticle (counter : number) (d : Draw) : Particle :=
  {| id := counter;
     x := startX d;
     y := startY d;
     text := boText;
     vx := drawVx d;
     vy := drawVy d;
     rotation := drawRotation d;
     vRotation := drawVRotation d;
     scale := drawScale d;
     color := drawColor d;
     life := ofZ 1;
     decay := drawDecay d |}.

(** The mutable cells of the component: the two [useState] cells that the
    game logic writes, the connection state, and the [particleIdCounter]
    ref. *)
Record State := {
  gameState : GameState;
  particles : list Particle;
  particleIdCounter : number;
  connectionState : ConnectionState;
  errorMessage : string
}.

Definition initialState : State :=
  {| gameState := initialGameState;
     particles := [];
     particleIdCounter := ofZ 0;
     connectionState := DISCONNECTED;
     errorMessage := "" |}.

(** [5 + Math.min(gameState.combo, 10)], where [gameState] is the
    constant of the render whose closure is running. *)
Definition particleCount (rendered : GameState) : number :=
  add (ofZ 5) (Math_min (combo rendered) (ofZ 10)).

(** The pairs [(i, j)] visited by the two nested loops, in order. *)
Definition burstIndices (rendered : GameState) (count : Z) : list (nat * nat) :=
  flat_map (fun i => map (fun j => (i, j))
                         (seq 0 (iterations (particleCount rendered))))
           (seq 0 (Z.to_nat count)).

(** One pass through the inner loop body: [particleIdCounter.current++]
    yields the old value of the counter and stores that value plus one;
    the particle is appended. *)
Definition spawnOne (draws : nat -> nat -> Draw)
           (acc : list Particle * number) (ij : nat * nat)
  : list Particle * number :=
  let '(ps, counter) := acc in
  (ps ++ [newParticle counter (draws (fst ij) (snd ij))], add counter (ofZ 1)).

Definition explosion (rendered : GameState) (count : Z)
           (draws : nat -> nat -> Draw) (ps : list Particle) (counter : number)
  : list Particle * number :=
  fold_left (spawnOne draws) (burstIndices rendered count) (ps, counter).

(** [triggerBo(count)].  [rendered] is the [gameState] constant captured
    by the closure (the [useCallback] of one particular render); the
    updater of [setGameState] receives the current state instead. *)
Definition triggerBo (rendered : GameState) (count now : Z)
           (draws : nat -> nat -> Draw) (st : State) : State :=
  let '(ps, counter) :=
    explosion rendered count draws (particles st) (particleIdCounter st) in
  {| gameState := comboUpdate count now (gameState st);
     particles := ps;
     particleIdCounter := counter;
     connectionState := connectionState st;
     errorMessage := errorMessage st |}.

(** The [onmessage] callback of a live session.  It was created inside
    [connectToGemini] and calls the [triggerBo] of the render in which
    that [connectToGemini] was created, hence [rendered]. *)
Definition onmessage (rendered : GameState) (transcription : option Spotter.jsString)
           (now : Z) (draws : nat -> nat -> Draw) (st : State) : State :=
  match transcription with
  | None | Some [] => st
  | Some text =>
      match Spotter.matchAll text with
      | Some matches =>
          if (0 <? List.length matches)%nat
          then triggerBo rendered (Z.of_nat (List.length matches)) now draws st
          else st
      | None => st
      end
  end.

Definition setConnectionState (c : ConnectionState) (st : State) : State :=
  {| gameState := gameState st;
     particles := particles st;
     particleIdCounter := particleIdCounter st;
     connectionState := c;
     errorMessage := errorMessage st |}.

Definition setErrorMessage (m : string) (st : State) : State :=
  {| gameState := gameState st;
     particles := particles st;
     particleIdCounter := particleIdCounter st;
     connectionState := connectionState st;
     errorMessage := m |}.

Definition setParticles (f : list Particle -> list Particle) (st : State) : State :=
  {| gameState := gameState st;
     particles := f (particles st);
     particleIdCounter := particleIdCounter st;
     connectionState := connectionState st;
     errorMessage := errorMessage st |}.

(** What can happen to the mounted component.  [setupOk] tells whether
    the microphone and the session could be set up ([try] block of
    [connectToGemini]) or the [catch] branch ran. *)
Inductive Event :=
| ClickConnect (setupOk : bool)     (* the button rendered when DISCONNECTED *)
| SessionOpen                       (* callbacks.onopen *)
| SessionMessage (transcription : option Spotter.jsString) (now : Z)
                 (draws : nat -> nat -> Draw)   (* callbacks.onmessage *)
| SessionClose                      (* callbacks.onclose *)
| SessionError                      (* callbacks.onerror *)
| ClickDisconnect                   (* the button rendered when CONNECTED *)
| AnimationFrame.                   (* requestAnimationFrame(updateParticles) *)

(** The running component: its cells, and the [gameState] constant that
    the callbacks of the live session closed over, if a session exists. *)
Record Running := {
  cells : State;
  session : option GameState
}.

Definition mounted : Running :=
  {| cells := initialState; session := None |}.

(** One event.  [connectToGemini] is re-created by every render and the
    button carries the one of the latest render; the callbacks object it
    passes to [ai.live.connect] refers to the [triggerBo] constant of that
    same render, whose [gameState] is the state at the time of the click. *)
Definition step (r : Running) (ev : Event) : Running :=
  let st := cells r in
  match ev with
  | ClickConnect setupOk =>
      match connectionState st with
      | DISCONNECTED =>
          let st1 := setErrorMessage "" (setConnectionState CONNECTING st) in
          if setupOk
          then {| cells := st1; session := Some (gameState st) |}
          else {| cells := setErrorMessage "Microphone access denied or API error."
                             (setConnectionState ERROR st1);
                  session := session r |}
      | _ => r
      end
  | SessionOpen =>
      {| cells := setConnectionState CONNECTED st; session := session r |}
  | SessionMessage transcription now draws =>
      match session r with
      | Some rendered =>
          {| cells := onmessage rendered transcription now draws st;
             session := session r |}
      | None => r
      end
  | SessionClose =>
      {| cells := setConnectionState DISCONNECTED st; session := session r |}
  | SessionError =>
      {| cells := setErrorMessage "Connection failed. Please check API Key or reload."
                    (setConnectionState ERROR st);
         session := session r |}
  | ClickDisconnect =>
      match connectionState st with
      | CONNECTED => mounted          (* window.location.reload() *)
      | _ => r
      end
  | AnimationFrame =>
      {| cells := setParticles updateParticles st; session := session r |}
  end.

Definition run (r : Running) (evs : list Event) : Running :=
  fold_left step evs r.

(** The state after the two triggers of the scoring example, the first at
    time [t0] and the second 500 ms later. *)
Definition scoringExample (t0 : Z) : GameState * GameState :=
  let s1 := comboUpdate 1 t0 initialGameState in
  (s1, comboUpdate 2 (t0 + 500) s1).

(** The data invariant of [GameState]: [score >= 0], [combo >= 1] and
    [maxCombo >= 1], as comparisons of numbers (so none of the three is
    NaN). *)
Definition GameInv (g : GameState) : Prop :=
  le (ofZ 0) (score g) = true
  /\ le (ofZ 1) (combo g) = true
  /\ le (ofZ 1) (maxCombo g) = true.

(** Every field of the game state holds a binary64 value in canonical
    form, as every JavaScript number does. *)
Definition wellFormed (g : GameState) : Prop :=
  valid (score g) = true /\ valid (combo g) = true
  /\ valid (maxCombo g) = true /\ valid (lastBoTime g) = true.

(** A game state whose fields are the integers [s], [c], [m] and [t]. *)
Definition gameOf (s c m t : Z) : GameState :=
  {| score := ofZ s; combo := ofZ c; maxCombo := ofZ m; lastBoTime := ofZ t |}.

(** A game state on which the next trigger rounds: a score of 2^55. *)
Definition highScore : GameState := gameOf (2 ^ 55) 1 1 0.

(** How many particles a call added to the population. *)
Definition spawned (before after : State) : Z :=
  Z.of_nat (List.length (particles after)) - Z.of_nat (List.length (particles before)).

Definition noDraw : Draw :=
  {| startX := zero; startY := zero; drawVx := zero; drawVy := zero;
     drawRotation := zero; drawVRotation := zero; drawScale := zero;
     drawColor := "text-pink-500"; drawDecay := zero |}.

(** A session in which the word is said once, then twice within the combo
    window: connect, and two transcripts 500 ms apart. *)
Definition warmUp : list Event :=
  [ ClickConnect true; SessionOpen;
    SessionMessage (Some (Spotter.units "bo")) 1700000000000 (fun _ _ => noDraw);
    SessionMessage (Some (Spotter.units "bo bo")) 1700000000500 (fun _ _ => noDraw) ].

(** The next transcript of that session, one more occurrence. *)
Definition thirdMessage : Event :=
  SessionMessage (Some (Spotter.units "bo")) 1700000001000 (fun _ _ => noDraw).

(** The events that reach [onmessage]. *)
Definition isMessage (ev : Event) : bool :=
  match ev with SessionMessage _ _ _ => true | _ => false end.

(** The value of the id counter after one more [++]: it stops at 2^53,
    where adding one is rounded away. *)
Definition nextId (c : Z) : Z := if c <? 2 ^ 53 then c + 1 else c.

(** The number of ids handed out since the page was loaded, along a
    sequence of events: a session message adds the particles it spawns,
    a reload starts again from 0. *)
Definition stepIssued (acc : Running * Z) (ev : Event) : Running * Z :=
  let r := fst acc in
  let r' := step r ev in
  (r', match ev with
       | SessionMessage _ _ _ => snd acc + spawned (cells r) (cells r')
       | ClickDisconnect =>
           match connectionState (cells r) with
           | CONNECTED => 0
           | _ => snd acc
           end
       | _ => snd acc
       end).

Definition issued (evs : list Event) : Z :=
  snd (fold_left stepIssued evs (mounted, 0)).

(** After [n] ids have been handed out the id counter holds [n], or 2^53
    where it stops, and while [n] is below 2^53 the ids of the population
    are distinct integers below [n]. *)
Definition IdsFresh (st : State) (n : Z) : Prop :=
  0 <= n
  /\ particleIdCounter st = ofZ (Z.min n (2 ^ 53))
  /\ (n < 2 ^ 53 ->
        NoDup (map id (particles st))
        /\ Forall (fun p => exists k, 0 <= k < n /\ id p = ofZ k)
                  (particles st)).

(** Every particle of the population is visible: its life is [> 0]. *)
Definition AllAlive (st : State) : Prop :=
  Forall (fun p => gt (life p) zero = true) (particles st).

(** A number that is an integer from [lo] up to 2^53 - 1, or is at least
    2^53 (where every binary64 value is an integer, possibly rounded). *)
Definition wholeFrom (lo : Z) (x : number) : Prop :=
  (exists z, lo <= z < 2 ^ 53 /\ x = ofZ z) \/ atLeast 53 x.

(** The same for the score, which below 2^53 is made of hundreds. *)
Definition hundreds (x : number) : Prop :=
  (exists z, 0 <= z < 2 ^ 53 /\ (100 | z) /\ x = ofZ z) \/ atLeast 53 x.

(** On top of the data invariant: the combo is a whole number that never
    exceeds its recorded maximum, and the score is made of hundreds. *)
Definition ComboInv (g : GameState) : Prop :=
  GameInv g /\ wellFormed g
  /\ wholeFrom 1 (combo g)
  /\ le (combo g) (maxCombo g) = true
  /\ hundreds (score g).

(** An error state always comes with a message to show. *)
Definition ErrorShown (st : State) : Prop :=
  connectionState st = ERROR -> errorMessage st <> EmptyString.

(** A series of triggers [(count, now)], applied in order. *)
Definition triggers (ts : list (Z * Z)) (g : GameState) : GameState :=
  fold_left (fun g t => comboUpdate (fst t) (snd t) g) ts g.

(** The occurrences of a series, added up. *)
Definition totalCount (ts : list (Z * Z)) : Z :=
  fold_right Z.add 0 (map fst ts).

(** Each trigger of the series has at least one occurrence and comes,
    by the test of [triggerBo], less than 2000 ms after the one before
    it, the first one after [last]. *)
Fixpoint withinWindow (last : number) (ts : list (Z * Z)) : Prop :=
  match ts with
  | [] => True
  | t :: rest =>
      1 <= fst t
      /\ lt (sub (ofZ (snd t)) last) (ofZ 2000) = true
      /\ withinWindow (ofZ (snd t)) rest
  end.

(** The game state is as [ComboInv] says, and so was the one that a live
    session has closed over. *)
Definition SessionInv (r : Running) : Prop :=
  ComboInv (gameState (cells r))
  /\ forall g, session r = Some g -> ComboInv g.

(** The number of occurrences in an optional transcript. *)
Definition occurrences (transcription : option Spotter.jsString) : Z :=
  match transcription with
  | Some text => Spotter.matchCount text
  | None => 0
  end.

End App.

(* ===================================================================== *)
(** * Properties *)
(* ===================================================================== *)

(** ** Binary64 rounding *)

Section BinaryRounding.
Import JS.

Lemma digits2_log2 m : Z.pos (digits2_pos m) = Z.log2 (Z.pos m) + 1.
Proof.
  induction m as [m IH | m IH |]; cbn [digits2_pos]; [| | reflexivity].
  - rewrite Pos2Z.inj_succ, IH, Pos2Z.inj_xI, Z.log2_succ_double by lia. lia.
  - rewrite Pos2Z.inj_succ, IH, Pos2Z.inj_xO, Z.log2_double by lia. lia.
Qed.

Lemma digits2_bounds m :
  2 ^ (Z.pos (digits2_pos m) - 1) <= Z.pos m < 2 ^ Z.pos (digits2_pos m).
Proof.
  rewrite digits2_log2.
  replace (Z.log2 (Z.pos m) + 1 - 1) with (Z.log2 (Z.pos m)) by lia.
  apply Z.log2_spec. lia.
Qed.

Lemma Zdigits2_log2 M : 0 < M -> Zdigits2 M = Z.log2 M + 1.
Proof. destruct M; try lia. intros _. apply digits2_log2. Qed.

Lemma shr_1_m mrs : 0 <= shr_m mrs -> shr_m (shr_1 mrs) = shr_m mrs / 2.
Proof.
  destruct mrs as [m r s]. cbn [shr_m]. intros Hm.
  destruct m as [| [p | p |] |]; cbn [shr_1 shr_m]; try lia.
  - reflexivity.
  - apply Z.div_unique with 1; lia.
  - apply Z.div_unique with 0; lia.
  - reflexivity.
Qed.

Lemma pow2_xI p : 2 ^ Z.pos p~1 = 2 * (2 ^ Z.pos p * 2 ^ Z.pos p).
Proof.
  replace (Z.pos p~1) with (Z.pos p + Z.pos p + 1) by lia.
  rewrite !Z.pow_add_r by lia. change (2 ^ 1) with 2. ring.
Qed.

Lemma pow2_xO p : 2 ^ Z.pos p~0 = 2 ^ Z.pos p * 2 ^ Z.pos p.
Proof.
  replace (Z.pos p~0) with (Z.pos p + Z.pos p) by lia.
  now rewrite Z.pow_add_r by lia.
Qed.

Lemma iter_shr_1_m n : forall mrs,
  0 <= shr_m mrs ->
  shr_m (iter_pos shr_1 n mrs) = shr_m mrs / 2 ^ Z.pos n.
Proof.
  induction n as [n IH | n IH |]; intros mrs Hm; cbn [iter_pos].
  - assert (H1 : 0 <= shr_m (shr_1 mrs))
      by (rewrite shr_1_m by trivial; apply Z.div_pos; lia).
    assert (H2 : 0 <= shr_m (iter_pos shr_1 n (shr_1 mrs)))
      by (rewrite IH by trivial; apply Z.div_pos; lia).
    rewrite (IH _ H2), (IH _ H1), shr_1_m by trivial.
    rewrite !Z.div_div by lia. now rewrite pow2_xI, Z.mul_assoc.
  - assert (H2 : 0 <= shr_m (iter_pos shr_1 n mrs))
      by (rewrite IH by trivial; apply Z.div_pos; lia).
    rewrite (IH _ H2), (IH _ Hm).
    rewrite !Z.div_div by lia. now rewrite pow2_xO.
  - rewrite shr_1_m by trivial. reflexivity.
Qed.

Lemma shr_spec mrs e n :
  0 <= shr_m mrs ->
  shr_m (fst (shr mrs e n)) = shr_m mrs / 2 ^ Z.max n 0
  /\ snd (shr mrs e n) = e + Z.max n 0.
Proof.
  intros Hm. destruct n as [| n | n]; cbn [shr fst snd].
  - rewrite Z.max_id, Z.div_1_r. lia.
  - rewrite iter_shr_1_m by trivial. rewrite Z.max_l by lia. lia.
  - rewrite Z.max_r by lia. rewrite Z.div_1_r. lia.
Qed.

Lemma shr_record_of_loc_m m l : shr_m (shr_record_of_loc m l) = m.
Proof. destruct l as [| []]; reflexivity. Qed.

Lemma round_nearest_even_bounds m l :
  m <= round_nearest_even m l <= m + 1.
Proof.
  unfold round_nearest_even.
  destruct l as [| []]; try destruct (Z.even m); lia.
Qed.

(** The exponent function of binary64, spelled out. *)
Lemma fexp_eq e : fexp prec emax e = Z.max (e - 53) (-1074).
Proof. reflexivity. Qed.

(** The two shifts and the rounding step of [binary_round_aux]. *)
Lemma binary_round_aux_steps sx M E l :
  0 < M ->
  exists m1 r m2 e1 e2,
    m1 = M / 2 ^ Z.max (fexp prec emax (Zdigits2 M + E) - E) 0
    /\ e1 = E + Z.max (fexp prec emax (Zdigits2 M + E) - E) 0
    /\ m1 <= r <= m1 + 1
    /\ m2 = r / 2 ^ Z.max (fexp prec emax (Zdigits2 r + e1) - e1) 0
    /\ e2 = e1 + Z.max (fexp prec emax (Zdigits2 r + e1) - e1) 0
    /\ binary_round_aux prec emax sx M E l
       = match m2 with
         | 0 => S754_zero sx
         | Z.pos m => if e2 <=? emax - prec then S754_finite sx m e2
                      else S754_infinity sx
         | Z.neg _ => S754_nan
         end.
Proof.
  intros HM. unfold binary_round_aux, shr_fexp.
  set (n1 := fexp prec emax (Zdigits2 M + E) - E).
  destruct (shr_spec (shr_record_of_loc M l) E n1) as [Hm1 He1];
    [rewrite shr_record_of_loc_m; lia |].
  rewrite shr_record_of_loc_m in Hm1.
  destruct (shr (shr_record_of_loc M l) E n1) as [mrs1 e1].
  cbn [fst snd] in Hm1, He1.
  set (r := round_nearest_even (shr_m mrs1) (loc_of_shr_record mrs1)).
  pose proof (round_nearest_even_bounds (shr_m mrs1) (loc_of_shr_record mrs1)) as Hr.
  fold r in Hr.
  assert (H0 : 0 <= shr_m mrs1) by (rewrite Hm1; apply Z.div_pos; lia).
  set (n2 := fexp prec emax (Zdigits2 r + e1) - e1).
  destruct (shr_spec (shr_record_of_loc r loc_Exact) e1 n2) as [Hm2 He2];
    [rewrite shr_record_of_loc_m; lia |].
  rewrite shr_record_of_loc_m in Hm2.
  destruct (shr (shr_record_of_loc r loc_Exact) e1 n2) as [mrs2 e2].
  cbn [fst snd] in Hm2, He2.
  exists (shr_m mrs1), r, (shr_m mrs2), e1, e2.
  repeat split; auto; lia.
Qed.

(** The rounded value exceeds the exact one by at most one unit of the
    first shift. *)
Lemma binary_round_aux_bound sx M E l :
  0 < M ->
  exists m2 e2,
    0 <= m2
    /\ E + Z.max (fexp prec emax (Zdigits2 M + E) - E) 0 <= e2
    /\ m2 * 2 ^ (e2 - E) <= M + 2 ^ Z.max (fexp prec emax (Zdigits2 M + E) - E) 0
    /\ binary_round_aux prec emax sx M E l
       = match m2 with
         | 0 => S754_zero sx
         | Z.pos m => if e2 <=? emax - prec then S754_finite sx m e2
                      else S754_infinity sx
         | Z.neg _ => S754_nan
         end.
Proof.
  intros HM.
  destruct (binary_round_aux_steps sx M E l HM)
    as (m1 & r & m2 & e1 & e2 & Hm1 & He1 & Hr & Hm2 & He2 & Heq).
  set (n1 := Z.max (fexp prec emax (Zdigits2 M + E) - E) 0) in *.
  set (n2 := Z.max (fexp prec emax (Zdigits2 r + e1) - e1) 0) in *.
  assert (Hn1 : 0 <= n1) by (unfold n1; lia).
  assert (Hn2 : 0 <= n2) by (unfold n2; lia).
  assert (Hp1 : 0 < 2 ^ n1) by (apply Z.pow_pos_nonneg; lia).
  assert (Hp2 : 0 < 2 ^ n2) by (apply Z.pow_pos_nonneg; lia).
  assert (H1 : 0 <= m1) by (subst m1; apply Z.div_pos; lia).
  assert (H2 : 0 <= m2) by (subst m2; apply Z.div_pos; lia).
  exists m2, e2. repeat split; trivial; [lia |].
  replace (e2 - E) with (n2 + n1) by lia.
  rewrite Z.pow_add_r by lia.
  pose proof (Z.mul_div_le M (2 ^ n1) Hp1) as Ha.
  pose proof (Z.mul_div_le r (2 ^ n2) Hp2) as Hb.
  rewrite <- Hm1 in Ha. rewrite <- Hm2 in Hb. nia.
Qed.

End BinaryRounding.

Section Canonical.
Import JS Audio.

(** Digits of a quotient by a power of two. *)
Lemma Zdigits2_div_pow2 a n :
  0 <= n -> 0 < a / 2 ^ n ->
  Zdigits2 (a / 2 ^ n) = Zdigits2 a - n.
Proof.
  intros Hn Hq.
  assert (Hp : 0 < 2 ^ n) by (apply Z.pow_pos_nonneg; lia).
  assert (Ha : 0 < a).
  { destruct (Z.ltb_spec 0 a); trivial.
    assert (a / 2 ^ n <= 0); [| lia].
    apply Z.div_le_upper_bound; lia. }
  assert (Hle : 2 ^ n <= a).
  { destruct (Z.leb_spec (2 ^ n) a); trivial.
    rewrite Z.div_small in Hq; lia. }
  apply Z.log2_le_pow2 in Hle; trivial.
  rewrite !Zdigits2_log2 by trivial.
  rewrite <- Z.shiftr_div_pow2, Z.log2_shiftr by lia. lia.
Qed.

Lemma Zdigits2_mono a b : 0 < a <= b -> Zdigits2 a <= Zdigits2 b.
Proof.
  intros H. rewrite !Zdigits2_log2 by lia.
  pose proof (Z.log2_le_mono a b). lia.
Qed.

(** Rounding a mantissa that is not too short yields a canonical value. *)
Lemma binary_round_aux_valid sx M E l :
  0 < M ->
  E <= fexp prec emax (Zdigits2 M + E) ->
  valid (binary_round_aux prec emax sx M E l) = true.
Proof.
  intros HM HE.
  destruct (binary_round_aux_steps sx M E l HM)
    as (m1 & r & m2 & e1 & e2 & Hm1 & He1 & Hr & Hm2 & He2 & ->).
  rewrite Z.max_l in Hm1, He1 by lia.
  set (n1 := fexp prec emax (Zdigits2 M + E) - E) in *.
  assert (Hp1 : 0 < 2 ^ n1) by (apply Z.pow_pos_nonneg; lia).
  assert (H1 : 0 <= m1) by (subst m1; apply Z.div_pos; lia).
  assert (Hn2 : r = 0 \/ (0 < r /\ e1 <= fexp prec emax (Zdigits2 r + e1))).
  { destruct (Z.eq_dec r 0) as [-> | Hr0]; [now left | right].
    split; [lia |].
    destruct (Z.eq_dec m1 0) as [Hz | Hnz].
    - assert (r = 1) by lia. subst r. cbn [Zdigits2 digits2_pos].
      assert (HMlt : M < 2 ^ n1).
      { destruct (Z.ltb_spec M (2 ^ n1)); trivial.
        assert (1 <= M / 2 ^ n1); [| lia].
        apply Z.div_le_lower_bound; lia. }
      apply Z.log2_lt_pow2 in HMlt; trivial.
      pose proof (Zdigits2_log2 M HM).
      unfold n1 in *. rewrite !fexp_eq in *. lia.
    - assert (Hd : Zdigits2 m1 = Zdigits2 M - n1)
        by (subst m1; apply Zdigits2_div_pow2; lia).
      pose proof (Zdigits2_mono m1 r ltac:(lia)).
      unfold n1 in *. rewrite !fexp_eq in *. lia. }
  destruct Hn2 as [-> | [Hr0 Hn2]].
  - rewrite Z.div_0_l in Hm2 by (apply Z.pow_nonzero; lia). subst m2. reflexivity.
  - rewrite Z.max_l in Hm2, He2 by lia.
    set (n2 := fexp prec emax (Zdigits2 r + e1) - e1) in *.
    assert (Hp2 : 0 < 2 ^ n2) by (apply Z.pow_pos_nonneg; lia).
    destruct m2 as [| p | p]; try reflexivity.
    destruct (Z.leb_spec e2 (emax - prec)) as [Hb | Hb]; [| reflexivity].
    unfold valid, valid_binary, bounded, canonical_mantissa.
    apply andb_true_iff. split; [| apply Z.leb_le; exact Hb].
    apply Z.eqb_eq.
    assert (Hd : Zdigits2 (Z.pos p) = Zdigits2 r - n2)
      by (rewrite Hm2; apply Zdigits2_div_pow2; lia).
    cbn [Zdigits2] in Hd. rewrite Hd.
    replace (Zdigits2 r - n2 + e2) with (Zdigits2 r + e1) by lia.
    unfold n2 in He2. lia.
Qed.


Lemma binary_round_valid s m e :
  valid (binary_round prec emax s m e) = true.
Proof.
  unfold binary_round, shl_align.
  set (f := fexp prec emax (Z.pos (digits2_pos m) + e)).
  destruct (f - e) as [| d | d] eqn:Hd.
  - apply binary_round_aux_valid; [lia |]. cbn [Zdigits2]. fold f. lia.
  - apply binary_round_aux_valid; [lia |]. cbn [Zdigits2]. fold f. lia.
  - apply binary_round_aux_valid; [lia |].
    fold (shift_pos d m). rewrite Zdigits2_log2 by lia.
    rewrite shift_pos_correct, Z.mul_comm.
    change (Z.pow_pos 2 d) with (2 ^ Z.pos d).
    rewrite Z.log2_mul_pow2 by lia.
    replace (Z.pos d + Z.log2 (Z.pos m) + 1 + f)
      with (Z.pos (digits2_pos m) + e)
      by (rewrite digits2_log2; lia).
    fold f. lia.
Qed.

(** Whatever is stored into a [Float32Array] reads back as a canonical
    binary64 value. *)
Lemma fround_valid v : valid v = true -> valid (fround v) = true.
Proof.
  destruct v as [s | s | | s m e]; trivial. intros _.
  unfold fround.
  destruct (binary_round 24 128 s m e); trivial.
  apply binary_round_valid.
Qed.

Lemma fround_finite_valid s m e : valid (fround (S754_finite s m e)) = true.
Proof.
  unfold fround.
  destruct (binary_round 24 128 s m e); trivial.
  apply binary_round_valid.
Qed.

Lemma interpolate_valid buffer ratio i :
  valid (interpolate buffer ratio i) = true.
Proof.
  unfold interpolate.
  match goal with |- valid (fround ?x) = true => destruct x end;
    trivial; apply fround_finite_valid.
Qed.

Lemma downsampleTo16k_valid buffer rate out :
  Forall (fun v => valid v = true) buffer ->
  downsampleTo16k buffer rate = Some out ->
  Forall (fun v => valid v = true) out.
Proof.
  unfold downsampleTo16k. intros Hb.
  destruct (strictEq rate (ofZ 16000)).
  - intros [= <-]. exact Hb.
  - destruct (ToIndex (newLength buffer rate)) as [n |]; [| discriminate].
    intros [= <-]. apply Forall_map, Forall_forall.
    intros i _. apply interpolate_valid.
Qed.

(** A canonical mantissa passes through the rounding unchanged. *)
Lemma binary_round_aux_exact sx m e :
  fexp prec emax (Z.pos (digits2_pos m) + e) = e ->
  e <= emax - prec ->
  binary_round_aux prec emax sx (Z.pos m) e loc_Exact = S754_finite sx m e.
Proof.
  intros Hc Hb. unfold binary_round_aux, shr_fexp. cbn [Zdigits2].
  rewrite Hc, Z.sub_diag.
  cbn [shr shr_record_of_loc loc_of_shr_record round_nearest_even shr_m Zdigits2].
  rewrite Hc, Z.sub_diag. cbn [shr shr_record_of_loc shr_m].
  apply Z.leb_le in Hb. now rewrite Hb.
Qed.

(** Integers below 2^53 are binary64 values. *)
Lemma binary_normalize_exact z s :
  0 <= z < 2 ^ 53 ->
  truncZ (binary_normalize prec emax z 0 s) = Some z.
Proof.
  intros Hz. destruct z as [| p | p]; [reflexivity | | lia].
  cbn [binary_normalize]. unfold binary_round, shl_align.
  pose proof (digits2_bounds p) as [Hlo Hhi].
  assert (Hd : Z.pos (digits2_pos p) <= 53).
  { destruct (Z.leb_spec (Z.pos (digits2_pos p)) 53); trivial.
    assert (2 ^ 53 <= 2 ^ (Z.pos (digits2_pos p) - 1))
      by (apply Z.pow_le_mono_r; lia).
    lia. }
  rewrite fexp_eq, Z.add_0_r, Z.sub_0_r, Z.max_l by lia.
  destruct (Z.pos (digits2_pos p) - 53) as [| d | d] eqn:Hs; try lia.
  - rewrite binary_round_aux_exact.
    + cbn. f_equal. lia.
    + rewrite fexp_eq. lia.
    + unfold emax, prec. lia.
  - assert (Hm : Z.pos (Pos.iter xO p d) = Z.pos p * 2 ^ Z.pos d).
    { fold (shift_pos d p). rewrite shift_pos_correct. 
      change (Z.pow_pos 2 d) with (2 ^ Z.pos d). apply Z.mul_comm. }
    rewrite binary_round_aux_exact.
    + cbn [truncZ signed]. cbn [Z.leb Z.compare Z.opp].
      rewrite Hm, Z.div_mul by (apply Z.pow_nonzero; lia). reflexivity.
    + rewrite digits2_log2, Hm, Z.log2_mul_pow2 by lia.
      rewrite digits2_log2 in Hs. rewrite fexp_eq.
      pose proof (Z.log2_nonneg (Z.pos p)). lia.
    + unfold emax, prec. lia.
Qed.

Lemma ToIndex_Math_ceil q n :
  ceilZ q = Some n -> 0 <= n <= 2 ^ 53 - 1 ->
  ToIndex (Math_ceil q) = Some n.
Proof.
  intros Hq Hn. unfold Math_ceil. rewrite Hq.
  pose proof (binary_normalize_exact n (sign_of q) ltac:(lia)) as Ht.
  unfold ToIndex.
  destruct (binary_normalize prec emax n 0 (sign_of q)) as [s | s | | s m e];
    try discriminate.
  - rewrite Ht.
    replace ((0 <=? n) && (n <=? 2 ^ 53 - 1)) with true; trivial.
    symmetry. apply andb_true_iff. split; apply Z.leb_le; lia.
  - rewrite Ht.
    replace ((0 <=? n) && (n <=? 2 ^ 53 - 1)) with true; trivial.
    symmetry. apply andb_true_iff. split; apply Z.leb_le; lia.
Qed.

Lemma shr_1_double t :
  0 <= t ->
  shr_1 {| shr_m := 2 * t; shr_r := false; shr_s := false |}
  = {| shr_m := t; shr_r := false; shr_s := false |}.
Proof. destruct t as [| p | p]; try lia; reflexivity. Qed.

Lemma iter_shr_1_exact n : forall t,
  0 <= t ->
  iter_pos shr_1 n {| shr_m := t * 2 ^ Z.pos n; shr_r := false; shr_s := false |}
  = {| shr_m := t; shr_r := false; shr_s := false |}.
Proof.
  induction n as [n IH | n IH |]; intros t Ht; cbn [iter_pos].
  - replace (t * 2 ^ Z.pos n~1) with (2 * (t * 2 ^ Z.pos n * 2 ^ Z.pos n))
      by (rewrite pow2_xI; ring).
    assert (0 < 2 ^ Z.pos n) by (apply Z.pow_pos_nonneg; lia).
    rewrite shr_1_double by nia. rewrite IH by nia. now apply IH.
  - replace (t * 2 ^ Z.pos n~0) with (t * 2 ^ Z.pos n * 2 ^ Z.pos n)
      by (rewrite pow2_xO; ring).
    assert (0 < 2 ^ Z.pos n) by (apply Z.pow_pos_nonneg; lia).
    rewrite IH by nia. now apply IH.
  - replace (t * 2 ^ 1) with (2 * t) by lia. now apply shr_1_double.
Qed.

(** A mantissa with enough trailing zeros is shifted without rounding. *)
Lemma binary_round_aux_shift sx t n E :
  0 <= n ->
  fexp prec emax (Zdigits2 (Z.pos t * 2 ^ n) + E) = E + n ->
  E + n <= emax - prec ->
  binary_round_aux prec emax sx (Z.pos t * 2 ^ n) E loc_Exact
  = S754_finite sx t (E + n).
Proof.
  intros Hn Hf Hb.
  assert (Hdig : Zdigits2 (Z.pos t * 2 ^ n) = Z.pos (digits2_pos t) + n).
  { assert (0 < 2 ^ n) by (apply Z.pow_pos_nonneg; lia).
    rewrite Zdigits2_log2 by nia.
    rewrite Z.log2_mul_pow2, digits2_log2 by lia. lia. }
  unfold binary_round_aux, shr_fexp. rewrite Hf.
  replace (E + n - E) with n by lia.
  assert (Hshr : shr (shr_record_of_loc (Z.pos t * 2 ^ n) loc_Exact) E n
                 = ({| shr_m := Z.pos t; shr_r := false; shr_s := false |}, E + n)).
  { destruct n as [| p | p]; try lia; cbn [shr shr_record_of_loc].
    - rewrite Z.mul_1_r, Z.add_0_r. reflexivity.
    - now rewrite iter_shr_1_exact by lia. }
  rewrite Hshr.
  cbn [loc_of_shr_record round_nearest_even shr_m Zdigits2].
  replace (Z.pos (digits2_pos t) + (E + n))
    with (Zdigits2 (Z.pos t * 2 ^ n) + E) by lia.
  rewrite Hf, Z.sub_diag. cbn [shr shr_record_of_loc shr_m].
  apply Z.leb_le in Hb. now rewrite Hb.
Qed.

End Canonical.

(** ** Integers as binary64 numbers *)

Section Integers.
Import JS.

Lemma digits2_le_53 v : Z.pos v < 2 ^ 53 -> Z.pos (digits2_pos v) <= 53.
Proof.
  intros Hv. pose proof (digits2_bounds v) as [Hlo _].
  destruct (Z.leb_spec (Z.pos (digits2_pos v)) 53); trivial.
  assert (2 ^ 53 <= 2 ^ (Z.pos (digits2_pos v) - 1))
    by (apply Z.pow_le_mono_r; lia).
  lia.
Qed.

Lemma binary_round_int s M E v :
  E <= 0 -> Z.pos v < 2 ^ 53 -> Z.pos M = Z.pos v * 2 ^ (- E) ->
  binary_round prec emax s M E = intRep s v.
Proof.
  intros HE Hv HM.
  pose proof (digits2_le_53 v Hv) as Hd.
  set (d := Z.pos (digits2_pos v)) in *.
  assert (Hd1 : 1 <= d) by (unfold d; lia).
  assert (HdM : Z.pos (digits2_pos M) = d - E).
  { rewrite digits2_log2, HM, Z.log2_mul_pow2 by lia.
    unfold d. rewrite digits2_log2. lia. }
  assert (Ht : 0 < Z.pos v * 2 ^ (53 - d))
    by (apply Z.mul_pos_pos; [lia | apply Z.pow_pos_nonneg; lia]).
  unfold binary_round, shl_align, intRep. fold d.
  rewrite HdM, fexp_eq.
  replace (d - E + E - 53) with (d - 53) by lia.
  rewrite Z.max_l by lia.
  destruct (d - 53 - E) as [| n | k] eqn:Hs.
  - replace (Z.pos M) with (Z.pos (Z.to_pos (Z.pos v * 2 ^ (53 - d))) * 2 ^ 0).
    2:{ rewrite Z2Pos.id by lia. rewrite HM, Z.mul_1_r. do 2 f_equal. lia. }
    rewrite binary_round_aux_shift; try lia.
    + f_equal; lia.
    + rewrite Z.mul_1_r, Z2Pos.id by lia. rewrite fexp_eq.
      rewrite Zdigits2_log2, Z.log2_mul_pow2 by lia.
      unfold d in *. rewrite digits2_log2 in *. lia.
    + unfold emax, prec. lia.
  - replace (Z.pos M) with (Z.pos (Z.to_pos (Z.pos v * 2 ^ (53 - d))) * 2 ^ Z.pos n).
    2:{ rewrite Z2Pos.id by lia. rewrite HM, <- Z.mul_assoc, <- Z.pow_add_r by lia.
        do 2 f_equal. lia. }
    rewrite binary_round_aux_shift; try lia.
    + f_equal; lia.
    + rewrite Z2Pos.id by lia. rewrite fexp_eq.
      rewrite <- Z.mul_assoc, <- Z.pow_add_r by lia.
      rewrite Zdigits2_log2 by (apply Z.mul_pos_pos; [lia | apply Z.pow_pos_nonneg; lia]).
      rewrite Z.log2_mul_pow2 by lia.
      unfold d in *. rewrite digits2_log2 in *. lia.
    + unfold emax, prec. lia.
  - assert (Hm : Z.pos (Pos.iter xO M k) = Z.pos M * 2 ^ Z.pos k).
    { fold (shift_pos k M). rewrite shift_pos_correct.
      change (Z.pow_pos 2 k) with (2 ^ Z.pos k). apply Z.mul_comm. }
    rewrite binary_round_aux_exact.
    + f_equal. apply Pos2Z.inj. rewrite Z2Pos.id by lia.
      rewrite Hm, HM, <- Z.mul_assoc, <- Z.pow_add_r by lia.
      do 2 f_equal. lia.
    + rewrite digits2_log2, Hm, Z.log2_mul_pow2 by lia.
      rewrite digits2_log2 in HdM. rewrite fexp_eq. lia.
    + unfold emax, prec. lia.
Qed.

Lemma ofZ_pos v : Z.pos v < 2 ^ 53 -> ofZ (Z.pos v) = intRep false v.
Proof.
  intros Hv. unfold ofZ. cbn [binary_normalize].
  apply binary_round_int; try lia.
Qed.

Lemma ofZ_neg v : Z.pos v < 2 ^ 53 -> ofZ (Z.neg v) = intRep true v.
Proof.
  intros Hv. unfold ofZ. cbn [binary_normalize].
  apply binary_round_int; try lia.
Qed.

Lemma shl_align_value m e e' :
  e' <= e -> Z.pos (fst (shl_align m e e')) = Z.pos m * 2 ^ (e - e').
Proof.
  intros He. unfold shl_align.
  destruct (e' - e) as [| k | k] eqn:Hk; try lia; cbn [fst].
  - replace (e - e') with 0 by lia. lia.
  - fold (shift_pos k m). rewrite shift_pos_correct.
    change (Z.pow_pos 2 k) with (2 ^ Z.pos k).
    replace (e - e') with (Z.pos k) by lia. apply Z.mul_comm.
Qed.

(** The mantissa of [intRep], scaled back, is the integer itself. *)
Lemma intRep_value v e' :
  Z.pos v < 2 ^ 53 -> e' <= Z.pos (digits2_pos v) - 53 ->
  Z.pos (Z.to_pos (Z.pos v * 2 ^ (53 - Z.pos (digits2_pos v))))
  * 2 ^ (Z.pos (digits2_pos v) - 53 - e')
  = Z.pos v * 2 ^ (- e').
Proof.
  intros Hv He. pose proof (digits2_le_53 v Hv) as Hd.
  rewrite Z2Pos.id by (apply Z.mul_pos_pos; [lia | apply Z.pow_pos_nonneg; lia]).
  rewrite <- Z.mul_assoc, <- Z.pow_add_r by lia. do 2 f_equal. lia.
Qed.

Lemma binary_normalize_int z e :
  e <= 0 -> - 2 ^ 53 < z < 2 ^ 53 ->
  binary_normalize prec emax (z * 2 ^ (- e)) e false = ofZ z.
Proof.
  intros He Hz.
  assert (Hp : 0 < 2 ^ (- e)) by (apply Z.pow_pos_nonneg; lia).
  destruct z as [| p | p].
  - reflexivity.
  - rewrite ofZ_pos by lia.
    destruct (Z.pos p * 2 ^ (- e)) as [| q | q] eqn:Hq; try nia.
    cbn [binary_normalize]. apply binary_round_int; lia.
  - rewrite ofZ_neg by lia.
    destruct (Z.neg p * 2 ^ (- e)) as [| q | q] eqn:Hq; try nia.
    cbn [binary_normalize]. apply binary_round_int; try lia.
Qed.

Lemma ofZ_intRep s v : Z.pos v < 2 ^ 53 -> ofZ (intVal s v) = intRep s v.
Proof.
  intros Hv. destruct s; cbn [intVal cond_Zopp Z.opp].
  - now apply ofZ_neg.
  - now apply ofZ_pos.
Qed.

Lemma add_intRep sa va sb vb :
  Z.pos va < 2 ^ 53 -> Z.pos vb < 2 ^ 53 ->
  - 2 ^ 53 < intVal sa va + intVal sb vb < 2 ^ 53 ->
  add (intRep sa va) (intRep sb vb) = ofZ (intVal sa va + intVal sb vb).
Proof.
  intros Ha Hb Hs.
  pose proof (digits2_le_53 va Ha) as Hda.
  pose proof (digits2_le_53 vb Hb) as Hdb.
  unfold add, intRep. cbn [SFadd].
  set (ea := Z.pos (digits2_pos va) - 53).
  set (eb := Z.pos (digits2_pos vb) - 53).
  set (ez := Z.min ea eb).
  change (IntDef.Z.min ea eb) with ez. cbv zeta.
  rewrite !shl_align_value by (unfold ez; lia).
  unfold ea at 1, eb at 1.
  rewrite !intRep_value by (trivial; fold ea eb; unfold ez; lia).
  rewrite <- (binary_normalize_int _ ez) by (trivial; unfold ez, ea, eb; lia).
  f_equal. unfold intVal. destruct sa, sb; cbn [cond_Zopp]; ring.
Qed.

Lemma sub_intRep sa va sb vb :
  Z.pos va < 2 ^ 53 -> Z.pos vb < 2 ^ 53 ->
  - 2 ^ 53 < intVal sa va - intVal sb vb < 2 ^ 53 ->
  sub (intRep sa va) (intRep sb vb) = ofZ (intVal sa va - intVal sb vb).
Proof.
  intros Ha Hb Hs.
  pose proof (digits2_le_53 va Ha) as Hda.
  pose proof (digits2_le_53 vb Hb) as Hdb.
  unfold sub, intRep. cbn [SFsub].
  set (ea := Z.pos (digits2_pos va) - 53).
  set (eb := Z.pos (digits2_pos vb) - 53).
  set (ez := Z.min ea eb).
  change (IntDef.Z.min ea eb) with ez. cbv zeta.
  rewrite !shl_align_value by (unfold ez; lia).
  unfold ea at 1, eb at 1.
  rewrite !intRep_value by (trivial; fold ea eb; unfold ez; lia).
  rewrite <- (binary_normalize_int _ ez) by (trivial; unfold ez, ea, eb; lia).
  f_equal. unfold intVal. destruct sa, sb; cbn [cond_Zopp]; ring.
Qed.

(** Integers are kept apart from their list of cases. *)
Lemma int_cases z :
  - 2 ^ 53 < z < 2 ^ 53 ->
  z = 0 \/ exists s v, Z.pos v < 2 ^ 53 /\ z = intVal s v.
Proof.
  intros Hz. destruct z as [| p | p]; [now left | right | right].
  - exists false, p. split; [lia | reflexivity].
  - exists true, p. split; [lia | reflexivity].
Qed.

(** Sums and differences of integers are exact while they stay below
    2^53 in magnitude. *)
Lemma add_exact a b :
  - 2 ^ 53 < a < 2 ^ 53 -> - 2 ^ 53 < b < 2 ^ 53 ->
  - 2 ^ 53 < a + b < 2 ^ 53 ->
  add (ofZ a) (ofZ b) = ofZ (a + b).
Proof.
  intros Ha Hb Hs.
  destruct (int_cases a Ha) as [-> | (sa & va & Hva & ->)];
    destruct (int_cases b Hb) as [-> | (sb & vb & Hvb & ->)].
  - reflexivity.
  - rewrite Z.add_0_l, ofZ_intRep by trivial. reflexivity.
  - rewrite Z.add_0_r, ofZ_intRep by trivial. reflexivity.
  - rewrite (ofZ_intRep sa), (ofZ_intRep sb) by trivial.
    now apply add_intRep.
Qed.

Lemma sub_exact a b :
  - 2 ^ 53 < a < 2 ^ 53 -> - 2 ^ 53 < b < 2 ^ 53 ->
  - 2 ^ 53 < a - b < 2 ^ 53 ->
  sub (ofZ a) (ofZ b) = ofZ (a - b).
Proof.
  intros Ha Hb Hs.
  destruct (int_cases a Ha) as [-> | (sa & va & Hva & ->)];
    destruct (int_cases b Hb) as [-> | (sb & vb & Hvb & ->)].
  - reflexivity.
  - rewrite Z.sub_0_l.
    replace (- intVal sb vb) with (intVal (negb sb) vb)
      by (destruct sb; cbn [intVal cond_Zopp negb]; lia).
    rewrite !ofZ_intRep by trivial. reflexivity.
  - rewrite Z.sub_0_r, ofZ_intRep by trivial. reflexivity.
  - rewrite (ofZ_intRep sa), (ofZ_intRep sb) by trivial.
    now apply sub_intRep.
Qed.

(** Products of positive integers are exact below 2^53. *)
Lemma mul_exact a b :
  0 < a -> 0 < b -> a * b < 2 ^ 53 ->
  mul (ofZ a) (ofZ b) = ofZ (a * b).
Proof.
  intros Ha Hb Hab.
  destruct a as [| va |]; try lia. destruct b as [| vb |]; try lia.
  assert (Hva : Z.pos va < 2 ^ 53) by nia.
  assert (Hvb : Z.pos vb < 2 ^ 53) by nia.
  change (Z.pos va * Z.pos vb) with (Z.pos (va * vb)) in *.
  rewrite !ofZ_pos by trivial.
  pose proof (digits2_le_53 _ Hva) as Hda.
  pose proof (digits2_le_53 _ Hvb) as Hdb.
  pose proof (digits2_le_53 _ Hab) as Hd.
  unfold mul, intRep at 1 2. cbn [SFmul xorb].
  set (da := Z.pos (digits2_pos va)) in *.
  set (db := Z.pos (digits2_pos vb)) in *.
  set (d := Z.pos (digits2_pos (va * vb))) in *.
  assert (Hda1 : 1 <= da) by (unfold da; lia).
  assert (Hdb1 : 1 <= db) by (unfold db; lia).
  assert (Hdd : da + db - 1 <= d).
  { unfold d, da, db. rewrite !digits2_log2. rewrite Pos2Z.inj_mul.
    pose proof (Z.log2_mul_below (Z.pos va) (Z.pos vb)). lia. }
  assert (Hpa : 0 < 2 ^ (53 - da)) by (apply Z.pow_pos_nonneg; lia).
  assert (Hpb : 0 < 2 ^ (53 - db)) by (apply Z.pow_pos_nonneg; lia).
  assert (Hpd : 0 < 2 ^ (53 - d)) by (apply Z.pow_pos_nonneg; lia).
  assert (HM : Z.pos (Z.to_pos (Z.pos va * 2 ^ (53 - da))
                      * Z.to_pos (Z.pos vb * 2 ^ (53 - db)))
               = Z.pos (Z.to_pos (Z.pos (va * vb) * 2 ^ (53 - d)))
                 * 2 ^ (d + 53 - da - db)).
  { rewrite Pos2Z.inj_mul, !Z2Pos.id by (apply Z.mul_pos_pos; lia).
    rewrite Pos2Z.inj_mul.
    replace (2 ^ (53 - da)) with (2 ^ (53 - d) * 2 ^ (d - da))
      by (rewrite <- Z.pow_add_r by lia; f_equal; lia).
    replace (2 ^ (d + 53 - da - db)) with (2 ^ (d - da) * 2 ^ (53 - db))
      by (rewrite <- Z.pow_add_r by lia; f_equal; lia).
    ring. }
  rewrite HM, binary_round_aux_shift.
  - unfold intRep. fold d. f_equal. lia.
  - lia.
  - rewrite fexp_eq, Zdigits2_log2 by (apply Z.mul_pos_pos; [lia | apply Z.pow_pos_nonneg; lia]).
    rewrite Z.log2_mul_pow2 by lia.
    rewrite Z2Pos.id by (apply Z.mul_pos_pos; lia).
    rewrite Z.log2_mul_pow2 by lia.
    unfold d in *. rewrite digits2_log2 in *. lia.
  - unfold emax, prec. lia.
Qed.

Lemma compare_intRep va vb :
  Z.pos va < 2 ^ 53 -> Z.pos vb < 2 ^ 53 ->
  match (Z.pos (digits2_pos va) - 53 ?= Z.pos (digits2_pos vb) - 53) with
  | Eq => Pos.compare_cont Eq
            (Z.to_pos (Z.pos va * 2 ^ (53 - Z.pos (digits2_pos va))))
            (Z.to_pos (Z.pos vb * 2 ^ (53 - Z.pos (digits2_pos vb))))
  | Lt => Lt
  | Gt => Gt
  end = (Z.pos va ?= Z.pos vb).
Proof.
  intros Ha Hb.
  pose proof (digits2_le_53 va Ha) as Hda.
  pose proof (digits2_le_53 vb Hb) as Hdb.
  pose proof (digits2_bounds va) as [La Ua].
  pose proof (digits2_bounds vb) as [Lb Ub].
  set (da := Z.pos (digits2_pos va)) in *.
  set (db := Z.pos (digits2_pos vb)) in *.
  destruct (Z.compare_spec (da - 53) (db - 53)) as [He | He | He].
  - replace db with da by lia.
    assert (Hp : 0 < 2 ^ (53 - da)) by (apply Z.pow_pos_nonneg; lia).
    cbv iota. change (Pos.compare_cont Eq ?p ?q) with (Pos.compare p q).
    rewrite (Zmult_compare_compat_r (Z.pos va) (Z.pos vb) (2 ^ (53 - da)))
      by lia.
    rewrite <- (Z2Pos.id (Z.pos va * 2 ^ (53 - da))) at 2
      by (apply Z.mul_pos_pos; lia).
    rewrite <- (Z2Pos.id (Z.pos vb * 2 ^ (53 - da))) at 2
      by (apply Z.mul_pos_pos; lia).
    reflexivity.
  - symmetry. apply Z.compare_lt_iff.
    assert (2 ^ da <= 2 ^ (db - 1)) by (apply Z.pow_le_mono_r; lia). lia.
  - symmetry. apply Z.compare_gt_iff.
    assert (2 ^ db <= 2 ^ (da - 1)) by (apply Z.pow_le_mono_r; lia). lia.
Qed.

(** Comparison of integers below 2^53 in magnitude is the integer one. *)
Lemma compare_exact a b :
  - 2 ^ 53 < a < 2 ^ 53 -> - 2 ^ 53 < b < 2 ^ 53 ->
  SFcompare (ofZ a) (ofZ b) = Some (a ?= b).
Proof.
  intros Ha Hb.
  destruct a as [| va | va], b as [| vb | vb];
    rewrite ?ofZ_pos, ?ofZ_neg by lia; try reflexivity.
  - unfold intRep. cbn [SFcompare]. f_equal. apply compare_intRep; lia.
  - unfold intRep. cbn [SFcompare]. f_equal.
    pose proof (compare_intRep va vb ltac:(lia) ltac:(lia)) as H.
    change (Z.neg va ?= Z.neg vb) with (CompOpp (Z.pos va ?= Z.pos vb)).
    rewrite <- H.
    destruct (Z.pos (digits2_pos va) - 53 ?= Z.pos (digits2_pos vb) - 53);
      reflexivity.
Qed.

Lemma lt_exact a b :
  - 2 ^ 53 < a < 2 ^ 53 -> - 2 ^ 53 < b < 2 ^ 53 ->
  lt (ofZ a) (ofZ b) = (a <? b).
Proof.
  intros Ha Hb. unfold lt, SFltb, Z.ltb.
  rewrite compare_exact by trivial. reflexivity.
Qed.

Lemma le_exact a b :
  - 2 ^ 53 < a < 2 ^ 53 -> - 2 ^ 53 < b < 2 ^ 53 ->
  le (ofZ a) (ofZ b) = (a <=? b).
Proof.
  intros Ha Hb. unfold le, SFleb, Z.leb.
  rewrite compare_exact by trivial. destruct (a ?= b); reflexivity.
Qed.

Lemma ofZ_not_nan z : - 2 ^ 53 < z < 2 ^ 53 -> ofZ z <> S754_nan.
Proof.
  intros Hz. destruct z; rewrite ?ofZ_pos, ?ofZ_neg by lia; discriminate.
Qed.

Lemma Math_max_exact a b :
  0 < a < 2 ^ 53 -> 0 < b < 2 ^ 53 ->
  Math_max (ofZ a) (ofZ b) = ofZ (Z.max a b).
Proof.
  intros Ha Hb.
  pose proof (lt_exact a b ltac:(lia) ltac:(lia)) as Hlt. unfold lt in Hlt.
  destruct a as [| va |], b as [| vb |]; try lia.
  rewrite !ofZ_pos in * by lia. unfold intRep in *. cbn [Math_max].
  rewrite Hlt. destruct (Z.ltb_spec (Z.pos va) (Z.pos vb)).
  - rewrite Z.max_r by lia. now rewrite ofZ_pos by lia.
  - rewrite Z.max_l by lia. now rewrite ofZ_pos by lia.
Qed.

Lemma Math_min_exact a b :
  0 < a < 2 ^ 53 -> 0 < b < 2 ^ 53 ->
  Math_min (ofZ a) (ofZ b) = ofZ (Z.min a b).
Proof.
  intros Ha Hb.
  pose proof (lt_exact b a ltac:(lia) ltac:(lia)) as Hlt. unfold lt in Hlt.
  destruct a as [| va |], b as [| vb |]; try lia.
  rewrite !ofZ_pos in * by lia. unfold intRep in *. cbn [Math_min].
  rewrite Hlt. destruct (Z.ltb_spec (Z.pos vb) (Z.pos va)).
  - rewrite Z.min_r by lia. now rewrite ofZ_pos by lia.
  - rewrite Z.min_l by lia. now rewrite ofZ_pos by lia.
Qed.

End Integers.

(** ** Magnitudes and canonical results *)

Section Magnitude.
Import JS.

Lemma pow2_le_log2 n a : 0 <= n -> 0 < a -> n <= Z.log2 a -> 2 ^ n <= a.
Proof.
  intros Hn Ha Hl. pose proof (Z.log2_spec a Ha) as [Hlo _].
  assert (2 ^ n <= 2 ^ Z.log2 a) by (apply Z.pow_le_mono_r; lia). lia.
Qed.

Lemma div_pow2_pos a n : 0 <= n -> 0 < a -> n <= Z.log2 a -> 0 < a / 2 ^ n.
Proof.
  intros Hn Ha Hl. pose proof (pow2_le_log2 n a Hn Ha Hl).
  apply Z.div_str_pos. split; [apply Z.pow_pos_nonneg; lia | trivial].
Qed.

(** Rounding keeps the leading bit at or above its place. *)
Lemma binary_round_aux_atLeast sx M E l p :
  0 < M ->
  E <= fexp prec emax (Zdigits2 M + E) ->
  -1074 <= p -> p <= Z.log2 M + E ->
  binary_round_aux prec emax sx M E l = S754_infinity sx
  \/ exists m e, binary_round_aux prec emax sx M E l = S754_finite sx m e
                 /\ p <= Z.log2 (Z.pos m) + e.
Proof.
  intros HM HE Hp Hl.
  destruct (binary_round_aux_steps sx M E l HM)
    as (m1 & r & m2 & e1 & e2 & Hm1 & He1 & Hr & Hm2 & He2 & ->).
  rewrite Z.max_l in Hm1, He1 by lia.
  set (n1 := fexp prec emax (Zdigits2 M + E) - E) in *.
  pose proof (Zdigits2_log2 M HM) as HdM.
  assert (Hn1 : n1 <= Z.log2 M) by (unfold n1; rewrite fexp_eq; lia).
  assert (H1 : 0 < m1) by (subst m1; apply div_pow2_pos; lia).
  assert (Hd1 : Zdigits2 m1 = Zdigits2 M - n1)
    by (subst m1; apply Zdigits2_div_pow2; [lia | apply div_pow2_pos; lia]).
  pose proof (Zdigits2_mono m1 r ltac:(lia)) as Hdr.
  assert (Hr0 : 0 < r) by lia.
  pose proof (Zdigits2_log2 r Hr0) as Hlr.
  pose proof (Zdigits2_log2 m1 H1) as Hl1.
  set (n2 := Z.max (fexp prec emax (Zdigits2 r + e1) - e1) 0) in *.
  assert (Hn2 : 0 <= n2 <= Z.log2 r) by (unfold n2; rewrite fexp_eq; lia).
  assert (H2 : 0 < m2) by (subst m2; apply div_pow2_pos; lia).
  assert (Hd2 : Zdigits2 m2 = Zdigits2 r - n2)
    by (subst m2; apply Zdigits2_div_pow2; [lia | apply div_pow2_pos; lia]).
  destruct m2 as [| q | q]; try lia.
  destruct (e2 <=? emax - prec); [right | now left].
  exists q, e2. split; trivial.
  cbn [Zdigits2] in Hd2. rewrite digits2_log2 in Hd2. lia.
Qed.

Lemma binary_round_atLeast s m e p :
  -1074 <= p -> p <= Z.log2 (Z.pos m) + e ->
  binary_round prec emax s m e = S754_infinity s
  \/ exists m' e', binary_round prec emax s m e = S754_finite s m' e'
                   /\ p <= Z.log2 (Z.pos m') + e'.
Proof.
  intros Hp Hl. unfold binary_round, shl_align.
  set (f := fexp prec emax (Z.pos (digits2_pos m) + e)).
  destruct (f - e) as [| d | d] eqn:Hd.
  - apply binary_round_aux_atLeast; try lia. cbn [Zdigits2]. fold f. lia.
  - apply binary_round_aux_atLeast; try lia. cbn [Zdigits2]. fold f. lia.
  - assert (Hm : Z.pos (Pos.iter xO m d) = Z.pos m * 2 ^ Z.pos d).
    { fold (shift_pos d m). rewrite shift_pos_correct.
      change (Z.pow_pos 2 d) with (2 ^ Z.pos d). apply Z.mul_comm. }
    apply binary_round_aux_atLeast; try lia.
    + rewrite Zdigits2_log2, Hm, Z.log2_mul_pow2 by lia.
      replace (Z.pos d + Z.log2 (Z.pos m) + 1 + f)
        with (Z.pos (digits2_pos m) + e) by (rewrite digits2_log2; lia).
      fold f. lia.
    + rewrite Hm, Z.log2_mul_pow2 by lia. lia.
Qed.

Lemma atLeast_round m e p :
  -1074 <= p -> p <= Z.log2 (Z.pos m) + e ->
  atLeast p (binary_round prec emax false m e).
Proof.
  intros Hp Hl.
  destruct (binary_round_atLeast false m e p Hp Hl) as [-> | (m' & e' & -> & H)];
    cbn [atLeast]; trivial.
Qed.

(** Integers from [2^p] on. *)
Lemma ofZ_atLeast p z : 0 <= p -> 2 ^ p <= z -> atLeast p (ofZ z).
Proof.
  intros Hp Hz.
  assert (0 < 2 ^ p) by (apply Z.pow_pos_nonneg; lia).
  destruct z as [| v |]; try lia.
  unfold ofZ. cbn [binary_normalize].
  apply atLeast_round; [lia |].
  rewrite Z.add_0_r. apply Z.log2_le_pow2; lia.
Qed.

Lemma atLeast_nonneg p x : atLeast p x -> nonneg x.
Proof. destruct x as [| [] | | [] ]; cbn; trivial. Qed.

Lemma nonneg_le_zero x : nonneg x <-> le zero x = true.
Proof. destruct x as [[] | [] | | [] ]; cbn; intuition discriminate. Qed.

(** Adding a non-negative number does not lower the leading bit. *)
Lemma add_atLeast p x y :
  -1074 <= p -> nonneg x -> atLeast p y -> atLeast p (add x y).
Proof.
  intros Hp Hx Hy.
  destruct x as [sx | [] | | [] mx ex]; cbn [nonneg] in Hx; try contradiction;
    destruct y as [sy | [] | | [] my ey]; cbn [atLeast] in Hy;
    try contradiction; try exact I; try exact Hy.
  unfold add. cbn [SFadd cond_Zopp].
  set (ez := IntDef.Z.min ex ey).
  assert (Hez : ez = Z.min ex ey) by reflexivity.
  rewrite !shl_align_value by lia.
  assert (Hpx : 0 < 2 ^ (ex - ez)) by (apply Z.pow_pos_nonneg; lia).
  assert (Hpy : 0 < 2 ^ (ey - ez)) by (apply Z.pow_pos_nonneg; lia).
  assert (Hax : 0 < Z.pos mx * 2 ^ (ex - ez)) by (apply Z.mul_pos_pos; lia).
  assert (Hay : 0 < Z.pos my * 2 ^ (ey - ez)) by (apply Z.mul_pos_pos; lia).
  destruct (Z.pos mx * 2 ^ (ex - ez) + Z.pos my * 2 ^ (ey - ez))
    as [| S | S] eqn:HS; try lia.
  cbn [binary_normalize]. apply atLeast_round; trivial.
  assert (Hlog : Z.log2 (Z.pos my * 2 ^ (ey - ez)) <= Z.log2 (Z.pos S))
    by (apply Z.log2_le_mono; lia).
  rewrite Z.log2_mul_pow2 in Hlog by lia. lia.
Qed.

(** The leading bits of the factors add up in a product. *)
Lemma mul_round_condition mx ex my ey :
  valid (S754_finite false mx ex) = true ->
  valid (S754_finite false my ey) = true ->
  ex + ey <= fexp prec emax (Zdigits2 (Z.pos (mx * my)) + (ex + ey)).
Proof.
  unfold valid, valid_binary, bounded, canonical_mantissa.
  intros Hx Hy.
  apply andb_true_iff in Hx as [Hx _]. apply andb_true_iff in Hy as [Hy _].
  apply Z.eqb_eq in Hx, Hy. rewrite fexp_eq in *.
  cbn [Zdigits2]. rewrite !digits2_log2 in *. rewrite Pos2Z.inj_mul.
  pose proof (Z.log2_mul_below (Z.pos mx) (Z.pos my) ltac:(lia) ltac:(lia)).
  pose proof (Z.log2_nonneg (Z.pos mx)). pose proof (Z.log2_nonneg (Z.pos my)).
  lia.
Qed.

Lemma valid_sign s m e :
  valid (S754_finite s m e) = valid (S754_finite false m e).
Proof. reflexivity. Qed.

Lemma mul_atLeast p q x y :
  -1074 <= p + q -> valid x = true -> valid y = true ->
  atLeast p x -> atLeast q y -> atLeast (p + q) (mul x y).
Proof.
  intros Hpq Vx Vy Hx Hy.
  destruct x as [sx | [] | | [] mx ex]; cbn [atLeast] in Hx;
    try contradiction;
    destruct y as [sy | [] | | [] my ey]; cbn [atLeast] in Hy;
    try contradiction; try exact I.
  unfold mul. cbn [SFmul xorb].
  pose proof (Z.log2_mul_below (Z.pos mx) (Z.pos my) ltac:(lia) ltac:(lia)) as Hl.
  destruct (binary_round_aux_atLeast false (Z.pos (mx * my)) (ex + ey)
              loc_Exact (p + q)) as [-> | (m & e & -> & H)];
    try lia; cbn [atLeast]; trivial.
  - now apply mul_round_condition.
  - rewrite Pos2Z.inj_mul. lia.
Qed.

(** Results of the arithmetic are canonical. *)
Lemma binary_normalize_valid z e s :
  valid (binary_normalize prec emax z e s) = true.
Proof. destruct z; [reflexivity | |]; apply binary_round_valid. Qed.

Lemma ofZ_valid z : valid (ofZ z) = true.
Proof. apply binary_normalize_valid. Qed.

Lemma add_valid x y :
  valid x = true -> valid y = true -> valid (add x y) = true.
Proof.
  intros Vx Vy.
  destruct x as [[] | [] | | sx mx ex], y as [[] | [] | | sy my ey];
    trivial; apply binary_normalize_valid.
Qed.

Lemma mul_valid x y :
  valid x = true -> valid y = true -> valid (mul x y) = true.
Proof.
  intros Vx Vy.
  destruct x as [[] | [] | | sx mx ex], y as [[] | [] | | sy my ey]; trivial.
  unfold mul. cbn [SFmul].
  apply binary_round_aux_valid; [lia |].
  rewrite valid_sign in Vx, Vy. now apply mul_round_condition.
Qed.

Lemma Math_max_valid x y :
  valid x = true -> valid y = true -> valid (Math_max x y) = true.
Proof.
  intros Vx Vy. unfold Math_max.
  destruct x as [[] | [] | | sx mx ex], y as [[] | [] | | sy my ey];
    trivial; match goal with |- context [if ?b then _ else _] => destruct b end;
    trivial.
Qed.

(** A canonical number with leading bit at [2^p] or above is not below
    [2^p]. *)
Lemma atLeast_le p x :
  valid x = true -> atLeast p x -> le (pow2 p) x = true.
Proof.
  intros Vx Hx.
  destruct x as [sx | [] | | [] m e]; cbn [atLeast] in Hx;
    try contradiction; trivial.
  unfold valid, valid_binary, bounded, canonical_mantissa in Vx.
  apply andb_true_iff in Vx as [Vx _]. apply Z.eqb_eq in Vx.
  rewrite fexp_eq, digits2_log2 in Vx.
  unfold le, SFleb, pow2. cbn [SFcompare].
  destruct (Z.compare_spec (p - 52) e) as [He | He | He]; trivial; [| lia].
  rewrite Pos.compare_cont_spec, Pos2Z.inj_compare.
  assert (Hm : 2 ^ 52 <= Z.pos m)
    by (apply pow2_le_log2; lia).
  change (2 ^ 52) with 4503599627370496 in Hm.
  destruct (Z.compare_spec 4503599627370496 (Z.pos m)); trivial; lia.
Qed.

Lemma le_atLeast p x :
  -1022 <= p -> valid x = true -> le (pow2 p) x = true -> atLeast p x.
Proof.
  intros Hp Vx Hx.
  destruct x as [sx | [] | | [] m e]; try discriminate Hx;
    cbn [atLeast]; trivial.
  unfold valid, valid_binary, bounded, canonical_mantissa in Vx.
  apply andb_true_iff in Vx as [Vx _]. apply Z.eqb_eq in Vx.
  rewrite fexp_eq, digits2_log2 in Vx.
  unfold le, SFleb, pow2 in Hx. cbn [SFcompare] in Hx.
  destruct (Z.compare_spec (p - 52) e) as [He | He | He]; try discriminate.
  - rewrite Pos.compare_cont_spec, Pos2Z.inj_compare in Hx.
    destruct (Z.compare_spec 4503599627370496 (Z.pos m)) as [Hm | Hm | Hm];
      try discriminate.
    + rewrite <- Hm. change (Z.log2 4503599627370496) with 52. lia.
    + assert (52 <= Z.log2 (Z.pos m))
        by (apply Z.log2_le_pow2; [lia |];
            change (2 ^ 52) with 4503599627370496; lia).
      lia.
  - pose proof (Z.log2_nonneg (Z.pos m)).
    destruct (Z.max_spec (Z.log2 (Z.pos m) + 1 + e - 53) (-1074)); lia.
Qed.

(** A sum with a canonical positive number is canonical, whatever the
    representation of the other summand. *)
Lemma add_atLeast_valid p x y :
  nonneg x -> valid y = true -> atLeast p y -> valid (add x y) = true.
Proof.
  intros Hx Vy Hy.
  destruct x as [sx | [] | | [] mx ex]; cbn [nonneg] in Hx; try contradiction;
    destruct y as [sy | [] | | [] my ey]; cbn [atLeast] in Hy;
    try contradiction; trivial.
  apply binary_normalize_valid.
Qed.

Lemma le_one_nonneg x : le (ofZ 1) x = true -> nonneg x.
Proof. destruct x as [[] | [] | | [] m e]; cbn; intuition discriminate. Qed.

(** Rounding does not overflow when the value is far below the largest
    number, and an infinite result has the sign of the rounded value. *)
Lemma binary_round_aux_not_inf sx M E l s' :
  0 < M -> Zdigits2 M + E <= 970 -> E <= 970 ->
  binary_round_aux prec emax sx M E l <> S754_infinity s'.
Proof.
  intros HM Hd HE.
  destruct (binary_round_aux_bound sx M E l HM) as (m2 & e2 & H0 & He & Hb & ->).
  destruct m2 as [| p | p]; try discriminate.
  destruct (Z.leb_spec e2 (emax - prec)) as [Hle | Hgt]; [discriminate |].
  exfalso. unfold emax, prec in Hgt.
  rewrite fexp_eq in He, Hb.
  set (n1 := Z.max (Z.max (Zdigits2 M + E - 53) (-1074) - E) 0) in *.
  pose proof (Zdigits2_log2 M HM) as HdM.
  pose proof (Z.log2_spec M HM) as [_ Hhi].
  replace (Z.succ (Z.log2 M)) with (Zdigits2 M) in Hhi by lia.
  set (t := Z.max (Zdigits2 M) n1).
  assert (Ht : E + t <= 970) by (unfold t, n1; lia).
  assert (H1 : 2 ^ Zdigits2 M <= 2 ^ t) by (apply Z.pow_le_mono_r; unfold t; lia).
  assert (H2 : 2 ^ n1 <= 2 ^ t) by (apply Z.pow_le_mono_r; unfold t, n1; lia).
  assert (H3 : 2 ^ (t + 1) = 2 * 2 ^ t)
    by (rewrite Z.pow_add_r by (unfold t, n1; lia); change (2 ^ 1) with 2; ring).
  assert (H4 : 2 ^ (t + 1) <= 2 ^ (e2 - E)) by (apply Z.pow_le_mono_r; lia).
  assert (H5 : 0 < 2 ^ (e2 - E)) by (apply Z.pow_pos_nonneg; lia).
  assert (H6 : 1 * 2 ^ (e2 - E) <= Z.pos p * 2 ^ (e2 - E))
    by (apply Z.mul_le_mono_nonneg_r; lia).
  lia.
Qed.

Lemma binary_round_not_inf s m e s' :
  Z.pos (digits2_pos m) + e <= 970 ->
  binary_round prec emax s m e <> S754_infinity s'.
Proof.
  intros Hd. unfold binary_round, shl_align.
  set (f := fexp prec emax (Z.pos (digits2_pos m) + e)).
  assert (Hf : f <= 970) by (unfold f; rewrite fexp_eq; lia).
  destruct (f - e) as [| d | d] eqn:Hs.
  - apply binary_round_aux_not_inf; cbn [Zdigits2]; lia.
  - apply binary_round_aux_not_inf; cbn [Zdigits2]; lia.
  - apply binary_round_aux_not_inf; try lia.
    fold (shift_pos d m). rewrite Zdigits2_log2 by lia.
    rewrite shift_pos_correct, Z.mul_comm.
    change (Z.pow_pos 2 d) with (2 ^ Z.pos d).
    rewrite Z.log2_mul_pow2 by lia.
    rewrite digits2_log2 in Hd. lia.
Qed.

Lemma binary_round_aux_sign sx M E l s' :
  0 < M -> binary_round_aux prec emax sx M E l = S754_infinity s' -> s' = sx.
Proof.
  intros HM.
  destruct (binary_round_aux_bound sx M E l HM) as (m2 & e2 & _ & _ & _ & ->).
  destruct m2 as [| p | p]; try discriminate.
  destruct (e2 <=? emax - prec); [discriminate |]. now intros [= ->].
Qed.

Lemma binary_round_sign s m e s' :
  binary_round prec emax s m e = S754_infinity s' -> s' = s.
Proof.
  unfold binary_round.
  destruct (shl_align m e (fexp prec emax (Z.pos (digits2_pos m) + e))) as [mz ez].
  apply binary_round_aux_sign. lia.
Qed.

(** [5 + c] is not [+Infinity] unless [c] is above 10. *)
Lemma add_five_not_inf c :
  valid c = true -> lt (ofZ 10) c = false ->
  add (ofZ 5) c <> S754_infinity false.
Proof.
  intros Vc Hc.
  destruct c as [sc | [] | | s m e]; try discriminate.
  change (ofZ 5) with (S754_finite false 5629499534213120 (-50)).
  unfold add. cbn [SFadd cond_Zopp].
  set (ez := IntDef.Z.min (-50) e).
  assert (Hez : ez = Z.min (-50) e) by reflexivity.
  rewrite !shl_align_value by lia.
  assert (Hp5 : 0 < 2 ^ (-50 - ez)) by (apply Z.pow_pos_nonneg; lia).
  assert (Hpe : 0 < 2 ^ (e - ez)) by (apply Z.pow_pos_nonneg; lia).
  assert (Hm : Z.pos m < 2 ^ 53).
  { unfold valid, valid_binary, bounded, canonical_mantissa in Vc.
    apply andb_true_iff in Vc as [Vc _]. apply Z.eqb_eq in Vc.
    rewrite fexp_eq in Vc. pose proof (digits2_bounds m) as [_ Hd].
    eapply Z.lt_le_trans; [exact Hd |]. apply Z.pow_le_mono_r; lia. }
  set (a := 5629499534213120 * 2 ^ (-50 - ez)) in *.
  set (b := Z.pos m * 2 ^ (e - ez)) in *.
  assert (Ha : 0 < a < 2 ^ (3 - ez)).
  { unfold a. split; [apply Z.mul_pos_pos; lia |].
    replace (2 ^ (3 - ez)) with (2 ^ 53 * 2 ^ (-50 - ez))
      by (rewrite <- Z.pow_add_r by lia; f_equal; lia).
    apply Z.mul_lt_mono_pos_r; [lia | reflexivity]. }
  assert (Hb : 0 < b) by (unfold b; apply Z.mul_pos_pos; lia).
  destruct s; cbn [cond_Zopp].
  - (* a negative summand *)
    destruct (a + - b) as [| P | P] eqn:HS; cbn [binary_normalize].
    + discriminate.
    + apply binary_round_not_inf. rewrite digits2_log2.
      assert (Z.log2 (Z.pos P) < 3 - ez)
        by (apply Z.log2_lt_pow2; lia).
      lia.
    + intros H. apply binary_round_sign in H. discriminate.
  - (* a positive summand, at most 10 *)
    assert (He : e <= -49).
    { unfold lt, SFltb in Hc.
      change (ofZ 10) with (S754_finite false 5629499534213120 (-49)) in Hc.
      cbn [SFcompare] in Hc.
      destruct (Z.compare_spec (-49) e); try lia; discriminate. }
    assert (Hb' : b < 2 ^ (4 - ez)).
    { unfold b.
      apply Z.lt_le_trans with (2 ^ 53 * 2 ^ (e - ez)).
      - apply Z.mul_lt_mono_pos_r; lia.
      - rewrite <- Z.pow_add_r by lia. apply Z.pow_le_mono_r; lia. }
    assert (H34 : 2 ^ (3 - ez) <= 2 ^ (4 - ez)) by (apply Z.pow_le_mono_r; lia).
    assert (H45 : 2 ^ (5 - ez) = 2 * 2 ^ (4 - ez)).
    { replace (5 - ez) with (4 - ez + 1) by lia.
      rewrite Z.pow_add_r by lia. change (2 ^ 1) with 2. ring. }
    destruct (a + b) as [| P | P] eqn:HS; cbn [binary_normalize]; try lia.
    apply binary_round_not_inf. rewrite digits2_log2.
    assert (Z.log2 (Z.pos P) < 5 - ez) by (apply Z.log2_lt_pow2; lia).
    lia.
Qed.

End Magnitude.

(** ** Division and the ceiling of a rounded quotient *)

Section Division.
Import JS Audio.

Lemma normal_digits m :
  2 ^ 52 <= Z.pos m < 2 ^ 53 -> Zdigits2 (Z.pos m) = 53.
Proof.
  intros [Hlo Hhi]. rewrite Zdigits2_log2 by lia.
  assert (Z.log2 (Z.pos m) = 52); [| lia].
  apply Z.log2_unique; lia.
Qed.

(** The integer quotient that [SFdiv] rounds, for two 53-bit mantissas. *)
Lemma div_core_normal mx ex my ey :
  2 ^ 52 <= Z.pos mx < 2 ^ 53 -> 2 ^ 52 <= Z.pos my < 2 ^ 53 ->
  -1021 <= ex - ey ->
  exists l,
    SFdiv_core_binary prec emax (Z.pos mx) ex (Z.pos my) ey
    = (Z.pos mx * 2 ^ 53 / Z.pos my, ex - ey - 53, l).
Proof.
  intros Hx Hy He. unfold SFdiv_core_binary.
  rewrite (normal_digits mx Hx), (normal_digits my Hy), fexp_eq.
  replace (IntDef.Z.min (Z.max (53 + ex - (53 + ey) - 53) (-1074)) (ex - ey))
    with (ex - ey - 53)
    by (change IntDef.Z.min with Z.min; lia).
  replace (ex - ey - (ex - ey - 53)) with 53 by lia. cbv iota.
  change (IntDef.Z.shiftl (Z.pos mx) 53) with (Z.shiftl (Z.pos mx) 53).
  rewrite Z.shiftl_mul_pow2 by lia.
  change IntDef.Z.div_eucl with Z.div_eucl.
  unfold Z.div.
  destruct (Z.div_eucl (Z.pos mx * 2 ^ 53) (Z.pos my)) as [q r].
  eexists. reflexivity.
Qed.

(** Division of two normal numbers: the quotient is normal, and at most
    two units in the last place away from the exact quotient. *)
Lemma div_normal mx ex my ey :
  2 ^ 52 <= Z.pos mx < 2 ^ 53 -> 2 ^ 52 <= Z.pos my < 2 ^ 53 ->
  -1021 <= ex - ey <= 1020 ->
  exists mz ez k,
    div (S754_finite false mx ex) (S754_finite false my ey)
    = S754_finite false mz ez
    /\ 2 ^ 52 <= Z.pos mz < 2 ^ 53
    /\ 0 <= k <= 2 /\ ez = ex - ey - 53 + k
    /\ (Z.pos mz - 1) * 2 ^ k * Z.pos my <= Z.pos mx * 2 ^ 53
       < (Z.pos mz + 2) * 2 ^ k * Z.pos my.
Proof.
  intros Hx Hy He.
  destruct (div_core_normal mx ex my ey Hx Hy ltac:(lia)) as [l Hcore].
  unfold div. cbn [SFdiv xorb]. rewrite Hcore.
  set (q0 := Z.pos mx * 2 ^ 53 / Z.pos my).
  set (e' := ex - ey - 53).
  change (2 ^ 52) with 4503599627370496 in *.
  change (2 ^ 53) with 9007199254740992 in *.
  assert (Hq : 4503599627370496 <= q0 < 18014398509481984).
  { unfold q0. split.
    - apply Z.div_le_lower_bound; lia.
    - apply Z.div_lt_upper_bound; lia. }
  assert (Hdiv : q0 * Z.pos my <= Z.pos mx * 9007199254740992
                 < (q0 + 1) * Z.pos my).
  { unfold q0.
    pose proof (Z.mul_div_le (Z.pos mx * 9007199254740992) (Z.pos my) ltac:(lia)).
    pose proof (Z.mul_succ_div_gt (Z.pos mx * 9007199254740992) (Z.pos my) ltac:(lia)).
    lia. }
  clearbody q0.
  assert (Hq0 : 0 < q0) by lia.
  destruct (binary_round_aux_steps false q0 e' l Hq0)
    as (m1 & r & m2 & e1 & e2 & Hm1 & He1 & Hr & Hm2 & He2 & ->).
  assert (Hlq : 52 <= Z.log2 q0 <= 53).
  { split.
    - apply Z.log2_le_pow2; [lia |]. change (2 ^ 52) with 4503599627370496. lia.
    - assert (Z.log2 q0 < 54); [| lia].
      apply Z.log2_lt_pow2; [lia |].
      change (2 ^ 54) with 18014398509481984. lia. }
  rewrite Zdigits2_log2, fexp_eq in Hm1, He1 by lia.
  set (n1 := Z.max (Z.max (Z.log2 q0 + 1 + e' - 53) (-1074) - e') 0) in *.
  assert (Hn1 : n1 = Z.log2 q0 - 52) by (unfold n1, e'; lia).
  assert (Hp1 : 2 ^ n1 = 1 \/ 2 ^ n1 = 2).
  { destruct (Z.eq_dec (Z.log2 q0) 52) as [E | E].
    - left. replace n1 with 0 by lia. reflexivity.
    - right. replace n1 with 1 by lia. reflexivity. }
  assert (Hm1b : m1 * 2 ^ n1 <= q0 < (m1 + 1) * 2 ^ n1).
  { subst m1.
    pose proof (Z.mul_div_le q0 (2 ^ n1) ltac:(lia)).
    pose proof (Z.mul_succ_div_gt q0 (2 ^ n1) ltac:(lia)).
    lia. }
  assert (Hl1 : Z.log2 m1 = 52).
  { subst m1. rewrite <- Z.shiftr_div_pow2, Z.log2_shiftr by lia. lia. }
  assert (H1 : 4503599627370496 <= m1 < 9007199254740992).
  { assert (0 < m1) by (destruct Hp1 as [E | E]; rewrite E in Hm1b; lia).
    pose proof (Z.log2_spec m1 ltac:(lia)) as Hs. rewrite Hl1 in Hs.
    change (2 ^ 52) with 4503599627370496 in Hs.
    change (2 ^ Z.succ 52) with 9007199254740992 in Hs. exact Hs. }
  assert (Hlr : 52 <= Z.log2 r <= 53).
  { split.
    - apply Z.log2_le_pow2; [lia |]. change (2 ^ 52) with 4503599627370496. lia.
    - assert (Z.log2 r < 54); [| lia].
      apply Z.log2_lt_pow2; [lia |].
      change (2 ^ 54) with 18014398509481984. lia. }
  rewrite Zdigits2_log2, fexp_eq in Hm2, He2 by lia.
  set (n2 := Z.max (Z.max (Z.log2 r + 1 + e1 - 53) (-1074) - e1) 0) in *.
  assert (Hn2 : n2 = Z.log2 r - 52) by (unfold n2, e'; lia).
  assert (Hp2 : 2 ^ n2 = 1 \/ 2 ^ n2 = 2).
  { destruct (Z.eq_dec (Z.log2 r) 52) as [E | E].
    - left. replace n2 with 0 by lia. reflexivity.
    - right. replace n2 with 1 by lia. reflexivity. }
  assert (Hm2b : m2 * 2 ^ n2 <= r < (m2 + 1) * 2 ^ n2).
  { subst m2.
    pose proof (Z.mul_div_le r (2 ^ n2) ltac:(lia)).
    pose proof (Z.mul_succ_div_gt r (2 ^ n2) ltac:(lia)).
    lia. }
  assert (Hl2 : Z.log2 m2 = 52).
  { subst m2. rewrite <- Z.shiftr_div_pow2, Z.log2_shiftr by lia. lia. }
  assert (H2 : 4503599627370496 <= m2 < 9007199254740992).
  { assert (0 < m2) by (destruct Hp2 as [E | E]; rewrite E in Hm2b; lia).
    pose proof (Z.log2_spec m2 ltac:(lia)) as Hs. rewrite Hl2 in Hs.
    change (2 ^ 52) with 4503599627370496 in Hs.
    change (2 ^ Z.succ 52) with 9007199254740992 in Hs. exact Hs. }
  destruct m2 as [| mz | mz]; try lia.
  replace (e2 <=? emax - prec) with true
    by (symmetry; apply Z.leb_le; unfold emax, prec, e' in *; lia).
  exists mz, e2, (n1 + n2).
  split; [reflexivity |]. split; [exact H2 |].
  split; [lia |]. split; [unfold e' in *; lia |].
  rewrite Z.pow_add_r by lia.
  assert (Hlin : (Z.pos mz - 1) * (2 ^ n1 * 2 ^ n2) <= q0
                 /\ q0 + 1 <= (Z.pos mz + 2) * (2 ^ n1 * 2 ^ n2))
    by (destruct Hp1 as [E1 | E1], Hp2 as [E2 | E2];
        rewrite E1 in *; rewrite E2 in *; lia).
  destruct Hlin as [Hlo Hhi].
  split.
  - apply Z.le_trans with (q0 * Z.pos my); [| lia].
    apply Z.mul_le_mono_nonneg_r; lia.
  - apply Z.lt_le_trans with ((q0 + 1) * Z.pos my); [lia |].
    apply Z.mul_le_mono_nonneg_r; lia.
Qed.

Lemma ceil_upper mr mq A B W PR PL R L n c :
  0 < mr -> 1 <= A <= 4 -> 1 <= B -> 0 < W -> 0 < PR ->
  2 ^ 66 <= R * PR ->
  W * B * PR = A * PL ->
  R * PR < (mr + 2) * A * 16000 ->
  (mq - 1) * B * mr <= L * PL ->
  (n - 1) * W < mq ->
  (c - 1) * R < 16000 * L -> 16000 * L <= c * R ->
  1 <= R -> 0 <= L < 2 ^ 32 ->
  n <= c + 1.
Proof.
  intros Hmr HA HB HW HPR H66 Hid HAub HBlb Hn Hc1 Hc2 HR HL.
  change (2 ^ 66) with 73786976294838206464 in *.
  change (2 ^ 32) with 4294967296 in *.
  destruct (Z.le_gt_cases n (c + 1)) as [| Hcontra]; trivial. exfalso.
  assert (Hc0 : 0 <= c) by nia.
  assert (Hcb : c <= 16000 * 4294967296) by nia.
  set (K := W * B) in *.
  assert (HK : 0 < K) by (unfold K; nia).
  assert (H1 : (c + 1) * W <= mq - 1) by nia.
  assert (H2 : (c + 1) * K * mr <= L * PL).
  { apply Z.le_trans with ((mq - 1) * B * mr); trivial.
    unfold K. rewrite (Z.mul_assoc (c + 1) W B).
    apply Z.mul_le_mono_nonneg_r; [lia |].
    apply Z.mul_le_mono_nonneg_r; lia. }
  assert (H3 : R * PR - 2 * A * 16000 < mr * A * 16000) by lia.
  assert (H4 : (c + 1) * K * (R * PR - 2 * A * 16000)
               <= (c + 1) * K * (mr * A * 16000)).
  { apply Z.mul_le_mono_nonneg_l; [nia | lia]. }
  assert (H5 : (c + 1) * K * (mr * A * 16000) <= 16000 * L * (A * PL)).
  { replace ((c + 1) * K * (mr * A * 16000))
      with ((c + 1) * K * mr * (A * 16000)) by ring.
    replace (16000 * L * (A * PL)) with (L * PL * (A * 16000)) by ring.
    apply Z.mul_le_mono_nonneg_r; lia. }
  assert (H6 : 16000 * L * (A * PL) <= c * R * (K * PR)).
  { rewrite <- Hid. apply Z.mul_le_mono_nonneg_r; [nia | lia]. }
  assert (H7 : K * (R * PR) <= K * ((c + 1) * (2 * A * 16000))).
  { replace (K * ((c + 1) * (2 * A * 16000)))
      with ((c + 1) * K * (2 * A * 16000)) by ring.
    replace (K * (R * PR)) with ((c + 1) * K * (R * PR) - c * R * (K * PR)) by ring.
    replace ((c + 1) * K * (R * PR - 2 * A * 16000))
      with ((c + 1) * K * (R * PR) - (c + 1) * K * (2 * A * 16000)) in H4 by ring.
    lia. }
  apply Z.mul_le_mono_pos_l in H7; trivial.
  assert ((c + 1) * (2 * A * 16000) <= (16000 * 4294967296 + 1) * (2 * 4 * 16000))
    by (apply Z.mul_le_mono_nonneg; lia).
  lia.
Qed.

Lemma ceil_lower mr mq A B W PR PL R L n c :
  0 < mr -> 2 ^ 52 <= mq -> 1 <= A <= 4 -> 1 <= B <= 4 -> 0 < W -> 0 < PR ->
  2 ^ 66 <= R * PR ->
  W * B * PR = A * PL ->
  (mr - 1) * A * 16000 <= R * PR ->
  L * PL < (mq + 2) * B * mr ->
  mq <= n * W ->
  (c - 1) * R < 16000 * L -> 16000 * L <= c * R ->
  1 <= R <= 2 ^ 32 -> 1 <= L < 2 ^ 32 ->
  c <= n.
Proof.
  intros Hmr Hmq HA HB HW HPR H66 Hid HAlb HBub Hn Hc1 Hc2 HR HL.
  change (2 ^ 66) with 73786976294838206464 in *.
  change (2 ^ 52) with 4503599627370496 in *.
  change (2 ^ 32) with 4294967296 in *.
  destruct (Z.le_gt_cases c n) as [| Hcontra]; trivial. exfalso.
  assert (Hc0 : 1 <= c).
  { destruct (Z.le_gt_cases 1 c); trivial.
    assert (c * R <= 0) by (apply Z.mul_nonpos_nonneg; lia). lia. }
  set (d := c - 1) in *.
  assert (Hd : 0 <= d) by lia.
  assert (HdW : 0 <= d * W) by (apply Z.mul_nonneg_nonneg; lia).
  assert (HnW : mq <= d * W).
  { apply Z.le_trans with (n * W); trivial.
    apply Z.mul_le_mono_nonneg_r; lia. }
  assert (Hd1 : 1 <= d) by (destruct (Z.eq_dec d 0) as [E | E]; [rewrite E in HnW |]; lia).
  assert (HdR : d * R < 16000 * 4294967296) by lia.
  (* the quotient is small, so its unit [W] is large *)
  assert (HW8 : 64 * R < W).
  { destruct (Z.le_gt_cases W (64 * R)) as [Hle |]; [| lia]. exfalso.
    assert (d * W <= d * (64 * R)) by (apply Z.mul_le_mono_nonneg_l; lia).
    lia. }
  assert (H2 : L * PL < (d * W + 2) * B * mr).
  { eapply Z.lt_le_trans; [exact HBub |].
    apply Z.mul_le_mono_nonneg_r; [lia |].
    apply Z.mul_le_mono_nonneg_r; lia. }
  assert (H3 : mr * (A * 16000) <= R * PR + A * 16000) by lia.
  assert (HdB : 0 <= (d * W + 2) * B) by (apply Z.mul_nonneg_nonneg; lia).
  assert (H4 : L * PL * (A * 16000) < (d * W + 2) * B * (R * PR + A * 16000)).
  { apply Z.lt_le_trans with ((d * W + 2) * B * mr * (A * 16000)).
    - apply Z.mul_lt_mono_pos_r; lia.
    - rewrite <- (Z.mul_assoc _ mr). apply Z.mul_le_mono_nonneg_l; lia. }
  assert (HAPL : 0 <= A * PL) by (rewrite <- Hid; repeat apply Z.mul_nonneg_nonneg; lia).
  assert (H5 : (d * R + 1) * (A * PL) <= 16000 * L * (A * PL))
    by (apply Z.mul_le_mono_nonneg_r; lia).
  rewrite <- Hid in H5.
  replace (L * PL * (A * 16000)) with (16000 * L * (A * PL)) in H4 by ring.
  rewrite <- Hid in H4.
  (* divide by [B] *)
  assert (H6 : (d * R + 1) * (W * PR) < (d * W + 2) * (R * PR + A * 16000)).
  { apply (Z.mul_lt_mono_pos_l B); [lia |].
    replace (B * ((d * R + 1) * (W * PR))) with ((d * R + 1) * (W * B * PR)) by ring.
    replace (B * ((d * W + 2) * (R * PR + A * 16000)))
      with ((d * W + 2) * B * (R * PR + A * 16000)) by ring.
    lia. }
  (* expand: W*PR < d*W*A*16000 + 2*R*PR + 2*A*16000 *)
  assert (H7 : W * PR < d * W * (A * 16000) + 2 * (R * PR) + 2 * (A * 16000)).
  { replace ((d * R + 1) * (W * PR)) with (d * W * (R * PR) + W * PR) in H6 by ring.
    replace ((d * W + 2) * (R * PR + A * 16000))
      with (d * W * (R * PR) + (d * W * (A * 16000) + 2 * (R * PR) + 2 * (A * 16000)))
      in H6 by ring.
    lia. }
  (* each of the three terms is at most a quarter of [W * PR] *)
  assert (Ha : 4 * (d * W * (A * 16000)) <= W * PR).
  { assert (R * (4 * (d * (A * 16000))) <= R * PR).
    { apply Z.le_trans with 73786976294838206464; [| lia].
      replace (R * (4 * (d * (A * 16000)))) with (d * R * (4 * A * 16000)) by ring.
      apply Z.le_trans with (16000 * 4294967296 * (4 * 4 * 16000)); [| lia].
      apply Z.mul_le_mono_nonneg; lia. }
    apply Z.mul_le_mono_pos_l in H; [| lia].
    replace (4 * (d * W * (A * 16000))) with (W * (4 * (d * (A * 16000)))) by ring.
    apply Z.mul_le_mono_nonneg_l; lia. }
  assert (Hb : 4 * (2 * (R * PR)) <= W * PR).
  { replace (4 * (2 * (R * PR))) with (8 * R * PR) by ring.
    apply Z.mul_le_mono_nonneg_r; lia. }
  assert (Hc : 4 * (2 * (A * 16000)) <= W * PR).
  { apply Z.le_trans with (1 * PR * 1); [| ].
    - assert (73786976294838206464 <= 4294967296 * PR).
      { apply Z.le_trans with (R * PR); trivial.
        apply Z.mul_le_mono_nonneg_r; lia. }
      lia.
    - rewrite Z.mul_1_r. apply Z.mul_le_mono_nonneg_r; lia. }
  assert (0 < W * PR) by (apply Z.mul_pos_pos; lia).
  lia.
Qed.

Lemma intRep_normal v :
  Z.pos v < 2 ^ 53 ->
  Z.pos (Z.to_pos (Z.pos v * 2 ^ (53 - Z.pos (digits2_pos v))))
  = Z.pos v * 2 ^ (53 - Z.pos (digits2_pos v))
  /\ 2 ^ 52 <= Z.pos v * 2 ^ (53 - Z.pos (digits2_pos v)) < 2 ^ 53.
Proof.
  intros Hv. pose proof (digits2_le_53 v Hv) as Hd.
  pose proof (digits2_bounds v) as [Hlo Hhi].
  set (d := Z.pos (digits2_pos v)) in *.
  assert (Hd1 : 1 <= d) by (unfold d; lia).
  assert (Hp : 0 < 2 ^ (53 - d)) by (apply Z.pow_pos_nonneg; lia).
  assert (H52 : 2 ^ 52 = 2 ^ (d - 1) * 2 ^ (53 - d))
    by (rewrite <- Z.pow_add_r by lia; f_equal; lia).
  assert (H53 : 2 ^ 53 = 2 ^ d * 2 ^ (53 - d))
    by (rewrite <- Z.pow_add_r by lia; f_equal; lia).
  assert (Hb : 2 ^ 52 <= Z.pos v * 2 ^ (53 - d) < 2 ^ 53).
  { rewrite H52, H53. split.
    - apply Z.mul_le_mono_nonneg_r; lia.
    - apply Z.mul_lt_mono_pos_r; lia. }
  split; [| exact Hb].
  apply Z2Pos.id. change (2 ^ 52) with 4503599627370496 in Hb. lia.
Qed.

Lemma ceiling_spec L R :
  0 < R ->
  let c := - (- (L * 16000) / R) in
  (c - 1) * R < 16000 * L /\ 16000 * L <= c * R.
Proof.
  intros HR c. subst c.
  pose proof (Z.mul_div_le (- (L * 16000)) R HR).
  pose proof (Z.mul_succ_div_gt (- (L * 16000)) R HR).
  set (t := - (L * 16000) / R) in *. lia.
Qed.

Lemma ceilZ_negative_exponent m e :
  e < 0 ->
  exists n, ceilZ (S754_finite false m e) = Some n
            /\ (n - 1) * 2 ^ (- e) < Z.pos m <= n * 2 ^ (- e).
Proof.
  intros He. unfold ceilZ, signed.
  replace (0 <=? e) with false by (symmetry; apply Z.leb_gt; lia).
  eexists. split; [reflexivity |].
  assert (Hp : 0 < 2 ^ (- e)) by (apply Z.pow_pos_nonneg; lia).
  pose proof (Z.mul_div_le (- Z.pos m) (2 ^ (- e)) Hp).
  pose proof (Z.mul_succ_div_gt (- Z.pos m) (2 ^ (- e)) Hp).
  set (t := - Z.pos m / 2 ^ (- e)) in *. lia.
Qed.

Lemma sixteen_thousand :
  ofZ 16000 = S754_finite false 8796093022208000 (-39).
Proof. reflexivity. Qed.

(** For a whole number of hertz and a frame of fewer than 2^32 samples,
    the ceiling of the twice rounded quotient is the exact ceiling or one
    more. *)
Lemma quotient_ceiling R L :
  1 <= R <= 2 ^ 32 -> 0 <= L < 2 ^ 32 ->
  exists n,
    ceilZ (div (ofZ L) (div (ofZ R) (ofZ 16000))) = Some n
    /\ - (- (L * 16000) / R) <= n <= - (- (L * 16000) / R) + 1.
Proof.
  intros HR HL.
  destruct R as [| vR |]; try lia.
  assert (HvR : Z.pos vR < 2 ^ 53)
    by (change (2 ^ 32) with 4294967296 in HR;
        change (2 ^ 53) with 9007199254740992; lia).
  rewrite (ofZ_pos vR HvR), sixteen_thousand.
  unfold intRep at 1.
  destruct (intRep_normal vR HvR) as [HmR HnR].
  pose proof (digits2_bounds vR) as [HloR HhiR].
  set (dR := Z.pos (digits2_pos vR)) in *.
  assert (HdR : 1 <= dR <= 33).
  { split; [unfold dR; lia |].
    destruct (Z.le_gt_cases dR 33); trivial.
    assert (2 ^ 33 <= 2 ^ (dR - 1)) by (apply Z.pow_le_mono_r; lia).
    change (2 ^ 33) with 8589934592 in *.
    change (2 ^ 32) with 4294967296 in *. lia. }
  set (mR := Z.to_pos (Z.pos vR * 2 ^ (53 - dR))) in *.
  (* the ratio *)
  destruct (div_normal mR (dR - 53) 8796093022208000 (-39))
    as (mr & er & a & -> & Hmr & Ha & Her & Hrb).
  { rewrite HmR. exact HnR. }
  { change (2 ^ 52) with 4503599627370496.
    change (2 ^ 53) with 9007199254740992. lia. }
  { lia. }
  destruct L as [| vL |]; try lia.
  { (* an empty frame *)
    exists 0. split; [reflexivity |].
    change (0 * 16000) with 0. change (- 0) with 0.
    rewrite Z.div_0_l by lia. lia. }
  assert (HvL : Z.pos vL < 2 ^ 53)
    by (change (2 ^ 32) with 4294967296 in HL;
        change (2 ^ 53) with 9007199254740992; lia).
  rewrite (ofZ_pos vL HvL). unfold intRep.
  destruct (intRep_normal vL HvL) as [HmL HnL].
  pose proof (digits2_bounds vL) as [HloL HhiL].
  set (dL := Z.pos (digits2_pos vL)) in *.
  assert (HdL : 1 <= dL <= 32).
  { split; [unfold dL; lia |].
    destruct (Z.le_gt_cases dL 32); trivial.
    assert (2 ^ 32 <= 2 ^ (dL - 1)) by (apply Z.pow_le_mono_r; lia).
    lia. }
  set (mL := Z.to_pos (Z.pos vL * 2 ^ (53 - dL))) in *.
  (* the quotient *)
  destruct (div_normal mL (dL - 53) mr er)
    as (mq & eq & b & -> & Hmq & Hb & Heq & Hqb).
  { rewrite HmL. exact HnL. }
  { exact Hmr. }
  { lia. }
  assert (Hneg : eq < 0) by lia.
  destruct (ceilZ_negative_exponent mq eq Hneg) as (n & Hn & Hnb).
  exists n. split; [exact Hn |].
  set (w := - eq) in *.
  assert (Hw : w = dR - dL + 39 + a - b) by (unfold w; lia).
  assert (HA : 1 <= 2 ^ a <= 4).
  { split; [apply (Z.pow_le_mono_r 2 0 a); lia |].
    apply (Z.pow_le_mono_r 2 a 2); lia. }
  assert (HB : 1 <= 2 ^ b <= 4).
  { split; [apply (Z.pow_le_mono_r 2 0 b); lia |].
    apply (Z.pow_le_mono_r 2 b 2); lia. }
  assert (HW : 0 < 2 ^ w) by (apply Z.pow_pos_nonneg; lia).
  assert (HPR : 0 < 2 ^ (67 - dR)) by (apply Z.pow_pos_nonneg; lia).
  assert (H66 : 2 ^ 66 <= Z.pos vR * 2 ^ (67 - dR)).
  { replace (2 ^ 66) with (2 ^ (dR - 1) * 2 ^ (67 - dR))
      by (rewrite <- Z.pow_add_r by lia; f_equal; lia).
    apply Z.mul_le_mono_nonneg_r; lia. }
  assert (Hid : 2 ^ w * 2 ^ b * 2 ^ (67 - dR) = 2 ^ a * 2 ^ (106 - dL)).
  { rewrite <- !Z.pow_add_r by lia. f_equal. lia. }
  (* the two bounds, without the common powers of two *)
  assert (HRb : (Z.pos mr - 1) * 2 ^ a * 16000 <= Z.pos vR * 2 ^ (67 - dR)
                < (Z.pos mr + 2) * 2 ^ a * 16000).
  { rewrite HmR in Hrb.
    replace (Z.pos vR * 2 ^ (53 - dR) * 2 ^ 53)
      with (Z.pos vR * 2 ^ (67 - dR) * 2 ^ 39) in Hrb.
    2:{ rewrite <- !Z.mul_assoc, <- !Z.pow_add_r by lia. do 2 f_equal. lia. }
    change 8796093022208000 with (16000 * 2 ^ 39) in Hrb.
    rewrite !Z.mul_assoc in Hrb.
    assert (H39 : 0 < 2 ^ 39) by reflexivity.
    destruct Hrb as [Hlo Hhi]. split.
    - apply Z.mul_le_mono_pos_r in Hlo; trivial.
    - apply Z.mul_lt_mono_pos_r in Hhi; trivial. }
  assert (HLb : (Z.pos mq - 1) * 2 ^ b * Z.pos mr <= Z.pos vL * 2 ^ (106 - dL)
                < (Z.pos mq + 2) * 2 ^ b * Z.pos mr).
  { rewrite HmL in Hqb.
    replace (Z.pos vL * 2 ^ (53 - dL) * 2 ^ 53)
      with (Z.pos vL * 2 ^ (106 - dL)) in Hqb.
    2:{ rewrite <- !Z.mul_assoc, <- !Z.pow_add_r by lia. do 2 f_equal. lia. }
    exact Hqb. }
  destruct (ceiling_spec (Z.pos vL) (Z.pos vR) ltac:(lia)) as [Hc1 Hc2].
  set (c := - (- (Z.pos vL * 16000) / Z.pos vR)) in *.
  assert (Hmr0 : 0 < Z.pos mr) by lia.
  split.
  - apply (ceil_lower (Z.pos mr) (Z.pos mq) (2 ^ a) (2 ^ b) (2 ^ w)
             (2 ^ (67 - dR)) (2 ^ (106 - dL)) (Z.pos vR) (Z.pos vL));
      trivial; try tauto; lia.
  - apply (ceil_upper (Z.pos mr) (Z.pos mq) (2 ^ a) (2 ^ b) (2 ^ w)
             (2 ^ (67 - dR)) (2 ^ (106 - dL)) (Z.pos vR) (Z.pos vL));
      trivial; try tauto; lia.
Qed.

End Division.

(** ** Resampler and PCM encoder *)

Section Encoder.
Import JS Audio.

Lemma valid_mantissa s m e :
  valid (S754_finite s m e) = true -> Z.pos m < 2 ^ 53.
Proof.
  unfold valid, valid_binary, bounded, canonical_mantissa.
  rewrite andb_true_iff, Z.eqb_eq, fexp_eq. intros [Hc _].
  pose proof (digits2_bounds m) as [_ Hd].
  eapply Z.lt_le_trans; [exact Hd |].
  apply Z.pow_le_mono_r; lia.
Qed.

(** Comparison with [1] on canonical mantissas. *)
Lemma below_one s m e :
  valid (S754_finite s m e) = true ->
  match e ?= -52 with
  | Lt => Lt
  | Gt => Gt
  | Eq => Pos.compare_cont Eq m 4503599627370496
  end <> Gt ->
  e <= -52 /\ Z.pos m <= 2 ^ (- e).
Proof.
  intros Hv Hc. pose proof (valid_mantissa s m e Hv) as Hm.
  destruct (Z.compare_spec e (-52)) as [He | He | He].
  - rewrite Pos.compare_cont_spec, Pos2Z.inj_compare in Hc.
    destruct (Z.compare_spec (Z.pos m) 4503599627370496) as [H | H | H];
      cbn [Pos.switch_Eq] in Hc; try (elim Hc; reflexivity);
      (split; [lia |]); subst e; change (2 ^ (- -52)) with 4503599627370496; lia.
  - split; [lia |].
    apply Z.lt_le_incl. eapply Z.lt_le_trans; [exact Hm |].
    apply Z.pow_le_mono_r; lia.
  - elim Hc; reflexivity.
Qed.

Lemma unitRange_ones : unitRange plusOne /\ unitRange minusOne.
Proof. repeat split; try lia; vm_compute; discriminate. Qed.

Lemma compare_minusOne m e :
  SFcompare minusOne (S754_finite true m e) = Some (compareWithOne m e).
Proof.
  unfold minusOne, compareWithOne. cbn [SFcompare]. f_equal.
  rewrite (Z.compare_antisym e (-52)).
  destruct (e ?= -52); cbn [CompOpp]; try reflexivity.
  apply Pos.compare_cont_antisym.
Qed.

Lemma compare_plusOne m e :
  SFcompare (S754_finite false m e) plusOne = Some (compareWithOne m e).
Proof. reflexivity. Qed.

Lemma clamp_range v :
  valid v = true ->
  match clamp v with
  | S754_nan => v = S754_nan
  | s => unitRange s /\ le (ofZ (-1)) s = true /\ le s (ofZ 1) = true
  end.
Proof.
  intros Hv. unfold clamp.
  change (ofZ 1) with plusOne.
  change (ofZ (-1)) with minusOne.
  destruct unitRange_ones as [Hp Hn].
  destruct v as [s | [|] | | [|] m e].
  - cbn. auto.
  - cbn. auto.
  - cbn. auto.
  - reflexivity.
  - (* a negative sample *)
    pose proof (below_one true m e Hv) as Hb. fold (compareWithOne m e) in Hb.
    change (Math_min plusOne (S754_finite true m e)) with (S754_finite true m e).
    unfold Math_max, le, SFleb, SFltb. cbn [minusOne].
    fold minusOne. rewrite compare_minusOne.
    destruct (compareWithOne m e) eqn:Hc.
    + split; [exact Hn | split; reflexivity].
    + rewrite compare_minusOne, Hc.
      split; [apply Hb; discriminate | split; reflexivity].
    + split; [exact Hn | split; reflexivity].
  - (* a positive sample *)
    pose proof (below_one false m e Hv) as Hb. fold (compareWithOne m e) in Hb.
    unfold Math_min at 1. unfold SFltb. cbn [plusOne]. fold plusOne.
    rewrite compare_plusOne.
    destruct (compareWithOne m e) eqn:Hc.
    + split; [exact Hp | split; reflexivity].
    + change (Math_max minusOne (S754_finite false m e)) with (S754_finite false m e).
      unfold le, SFleb. rewrite compare_plusOne, Hc.
      split; [apply Hb; discriminate | split; reflexivity].
    + split; [exact Hp | split; reflexivity].
Qed.

Lemma signed_zero s : signed s 0 = 0.
Proof. destruct s; reflexivity. Qed.

(** A value of magnitude at most 1 times a constant [c * 2^ec <= B]: the
    product, rounded, truncates to an integer of magnitude at most [B]. *)
Lemma mul_unit_trunc sx m e c ec B :
  e <= -52 -> Z.pos m <= 2 ^ (- e) ->
  Z.pos c < 2 ^ 53 -> -1074 <= ec < 0 ->
  0 <= B < 65536 -> Z.pos c <= B * 2 ^ (- ec) ->
  exists z,
    truncZ (mul (S754_finite sx m e) (S754_finite false c ec)) = Some (signed sx z)
    /\ 0 <= z <= B.
Proof.
  intros He Hm Hc Hec HB HcB.
  unfold mul, SFmul. rewrite xorb_false_r.
  set (M := Z.pos (m * c)). set (E := e + ec).
  assert (HM : 0 < M) by (unfold M; lia).
  destruct (binary_round_aux_bound sx M E loc_Exact HM)
    as (m2 & e2 & H0 & He2 & Hb & ->).
  set (n1 := Z.max (fexp prec emax (Zdigits2 M + E) - E) 0) in *.
  set (K := - E).
  assert (HK : 0 <= K) by (unfold K, E; lia).
  assert (Hpe : 0 < 2 ^ (- e)) by (apply Z.pow_pos_nonneg; lia).
  assert (Hpc : 0 < 2 ^ (- ec)) by (apply Z.pow_pos_nonneg; lia).
  assert (HpK : 2 ^ K = 2 ^ (- e) * 2 ^ (- ec))
    by (rewrite <- Z.pow_add_r by lia; f_equal; unfold K, E; lia).
  assert (HMB : M <= B * 2 ^ K).
  { unfold M. rewrite Pos2Z.inj_mul, HpK.
    transitivity (2 ^ (- e) * (B * 2 ^ (- ec))); [| lia].
    apply Z.mul_le_mono_nonneg; lia. }
  assert (Hdig : Zdigits2 M <= 53 - e).
  { rewrite Zdigits2_log2 by trivial.
    assert (Z.log2 M < 53 - e); [| lia].
    apply Z.log2_lt_pow2; trivial.
    replace (53 - e) with (- e + 53) by lia.
    rewrite Z.pow_add_r by lia.
    unfold M. rewrite Pos2Z.inj_mul.
    apply Z.le_lt_trans with (2 ^ (- e) * Z.pos c).
    - apply Z.mul_le_mono_nonneg_r; lia.
    - apply Z.mul_lt_mono_pos_l; lia. }
  assert (Hn1 : 0 <= n1 <= K + ec).
  { unfold n1. rewrite fexp_eq. unfold K, E. lia. }
  assert (Hpn : 2 * 2 ^ n1 <= 2 ^ K).
  { change (2 * 2 ^ n1) with (2 ^ 1 * 2 ^ n1).
    rewrite <- Z.pow_add_r by lia. apply Z.pow_le_mono_r; lia. }
  assert (HpK0 : 0 < 2 ^ K) by (apply Z.pow_pos_nonneg; lia).
  assert (Hlt : m2 * 2 ^ (e2 - E) < (B + 1) * 2 ^ K) by nia.
  assert (He2K : e2 - E = e2 + K) by (unfold K; lia).
  destruct m2 as [| p | p]; [| | lia].
  - exists 0. rewrite signed_zero. cbn. split; [reflexivity | lia].
  - assert (He16 : e2 < 16).
    { assert (H : 2 ^ (e2 - E) < 2 ^ (16 + K)).
      { rewrite Z.pow_add_r by lia. change (2 ^ 16) with 65536.
        assert (0 < 2 ^ (e2 - E)) by (apply Z.pow_pos_nonneg; lia). nia. }
      apply Z.pow_lt_mono_r_iff in H; lia. }
    replace (e2 <=? emax - prec) with true
      by (symmetry; apply Z.leb_le; unfold emax, prec; lia).
    cbn [truncZ].
    eexists. split; [reflexivity |].
    destruct (Z.leb_spec 0 e2) as [Hpos | Hneg].
    + rewrite He2K, Z.pow_add_r in Hlt by lia.
      assert (0 < 2 ^ e2) by (apply Z.pow_pos_nonneg; lia). nia.
    + assert (Hp : 0 < 2 ^ (- e2)) by (apply Z.pow_pos_nonneg; lia).
      split; [apply Z.div_pos; lia |].
      assert (Z.pos p / 2 ^ (- e2) < B + 1); [| lia].
      apply Z.div_lt_upper_bound; trivial.
      assert (Hs : 2 ^ K = 2 ^ (e2 + K) * 2 ^ (- e2)).
      { rewrite <- Z.pow_add_r by lia. f_equal. lia. }
      rewrite He2K, Hs in Hlt.
      assert (0 < 2 ^ (e2 + K)) by (apply Z.pow_pos_nonneg; lia). nia.
Qed.

Lemma wrap16_small z : -32768 <= z <= 32767 -> wrap16 z = z.
Proof.
  intros Hz. unfold wrap16.
  destruct (Z.leb_spec 0 z) as [Hpos | Hneg].
  - rewrite Z.mod_small by lia.
    destruct (Z.leb_spec 32768 z); lia.
  - replace (z mod 65536) with (z + 65536)
      by (apply Z.mod_unique with (-1); lia).
    destruct (Z.leb_spec 32768 (z + 65536)); lia.
Qed.

Lemma wrap16_range z : -32768 <= wrap16 z <= 32767.
Proof.
  unfold wrap16.
  pose proof (Z.mod_pos_bound z 65536 ltac:(lia)).
  destruct (Z.leb_spec 32768 (z mod 65536)); lia.
Qed.

(** The conversion of one canonical sample. *)
Lemma pcm16_sample v :
  valid v = true ->
  (v = S754_nan /\ clamp v = S754_nan /\ pcm16 v = 0)
  \/ (unitRange (clamp v)
      /\ le (ofZ (-1)) (clamp v) = true /\ le (clamp v) (ofZ 1) = true
      /\ exists z,
           truncZ (scale (clamp v)) = Some z
           /\ pcm16 v = z
           /\ (if lt (clamp v) zero then -32768 <= z <= 0 else 0 <= z <= 32767)).
Proof.
  intros Hv. pose proof (clamp_range v Hv) as Hc. unfold pcm16, ToInt16.
  destruct (clamp v) as [s | s | | s m e] eqn:Hs.
  - right. destruct Hc as (Hu & Hl & Hh).
    split; [exact Hu | split; [exact Hl | split; [exact Hh |]]].
    exists 0. repeat split; lia.
  - destruct Hc as ([] & _).
  - left. auto.
  - right. destruct Hc as (Hu & Hl & Hh).
    split; [exact Hu | split; [exact Hl | split; [exact Hh |]]].
    destruct Hu as [He Hm].
    unfold scale. destruct s.
    + change (lt (S754_finite true m e) zero) with true. cbv iota.
      change (ofZ 32768) with (S754_finite false 4503599627370496 (-37)).
      assert (H1 : 4503599627370496 < 2 ^ 53) by (vm_compute; reflexivity).
      assert (H2 : 4503599627370496 <= 32768 * 2 ^ (- -37))
        by (vm_compute; discriminate).
      destruct (mul_unit_trunc true m e 4503599627370496 (-37) 32768
                  He Hm H1 ltac:(lia) ltac:(lia) H2) as (z & Hz & Hr).
      rewrite Hz. cbn [signed]. exists (- z).
      rewrite wrap16_small by lia. repeat split; lia.
    + change (lt (S754_finite false m e) zero) with false. cbv iota.
      change (ofZ 32767) with (S754_finite false 9006924376834048 (-38)).
      assert (H1 : 9006924376834048 < 2 ^ 53) by (vm_compute; reflexivity).
      assert (H2 : 9006924376834048 <= 32767 * 2 ^ (- -38))
        by (vm_compute; discriminate).
      destruct (mul_unit_trunc false m e 9006924376834048 (-38) 32767
                  He Hm H1 ltac:(lia) ltac:(lia) H2) as (z & Hz & Hr).
      rewrite Hz. cbn [signed]. exists z.
      rewrite wrap16_small by lia. repeat split; lia.
Qed.

Lemma compare_with_minusOne m e :
  SFcompare (S754_finite true m e) minusOne = Some (CompOpp (compareWithOne m e)).
Proof.
  unfold minusOne, compareWithOne. cbn [SFcompare]. f_equal.
  destruct (e ?= -52); reflexivity.
Qed.

Lemma compare_from_plusOne m e :
  SFcompare plusOne (S754_finite false m e) = Some (CompOpp (compareWithOne m e)).
Proof.
  unfold plusOne, compareWithOne. cbn [SFcompare]. f_equal.
  rewrite (Z.compare_antisym e (-52)).
  destruct (e ?= -52); cbn [CompOpp]; try reflexivity.
  symmetry. apply Pos.compare_cont_antisym.
Qed.

Lemma clamp_negative m e :
  clamp (S754_finite true m e)
  = match compareWithOne m e with
    | Lt => S754_finite true m e
    | _ => minusOne
    end.
Proof.
  change (clamp (S754_finite true m e))
    with (if SFltb minusOne (S754_finite true m e)
          then S754_finite true m e else minusOne).
  unfold SFltb. rewrite compare_minusOne.
  destruct (compareWithOne m e); reflexivity.
Qed.

Lemma clamp_positive m e :
  clamp (S754_finite false m e)
  = match compareWithOne m e with
    | Lt => S754_finite false m e
    | _ => plusOne
    end.
Proof.
  change (clamp (S754_finite false m e))
    with (Math_max minusOne
            (if SFltb (S754_finite false m e) plusOne
             then S754_finite false m e else plusOne)).
  unfold SFltb. rewrite compare_plusOne.
  destruct (compareWithOne m e); reflexivity.
Qed.

(** What the clamp does to a sample above 1, below -1, and strictly
    between the two. *)
Lemma clamp_cases v :
  (lt (ofZ 1) v = true -> clamp v = ofZ 1 /\ pcm16 v = 32767)
  /\ (lt v (ofZ (-1)) = true -> clamp v = ofZ (-1) /\ pcm16 v = -32768)
  /\ (lt (ofZ (-1)) v = true -> lt v (ofZ 1) = true -> clamp v = v).
Proof.
  assert (Hhi : ToInt16 (scale plusOne) = 32767) by reflexivity.
  assert (Hlo : ToInt16 (scale minusOne) = -32768) by reflexivity.
  unfold pcm16.
  change (ofZ 1) with plusOne. change (ofZ (-1)) with minusOne.
  destruct v as [s | [|] | | [|] m e];
    try (repeat split; intros; try discriminate; reflexivity).
  - (* negative *)
    rewrite clamp_negative. unfold lt, SFltb.
    rewrite compare_minusOne, compare_with_minusOne.
    destruct (compareWithOne m e); cbn [CompOpp];
      repeat split; intros; try discriminate; trivial.
  - (* positive *)
    rewrite clamp_positive. unfold lt, SFltb.
    rewrite compare_plusOne, compare_from_plusOne.
    destruct (compareWithOne m e); cbn [CompOpp];
      repeat split; intros; try discriminate; trivial.
Qed.

Lemma wrap16_or_zero_range v : -32768 <= pcm16 v <= 32767.
Proof.
  unfold pcm16, ToInt16. destruct (truncZ _); [apply wrap16_range | lia].
Qed.

Lemma int16Bytes_length a :
  List.length (int16Bytes a) = (2 * List.length a)%nat.
Proof.
  unfold int16Bytes.
  rewrite flat_map_constant_length with (c := 2%nat); [lia | reflexivity].
Qed.

Lemma ToIndex_nonneg x n : ToIndex x = Some n -> 0 <= n.
Proof.
  unfold ToIndex.
  destruct x as [s | s | | s m e]; try discriminate.
  - intros [= <-]. lia.
  - intros [= <-]. lia.
  - destruct (truncZ (S754_finite s m e)) as [z |]; [| discriminate].
    destruct (Z.leb_spec 0 z); cbn [andb]; [| discriminate].
    destruct (z <=? 2 ^ 53 - 1); [| discriminate].
    intros [= <-]. trivial.
Qed.

(** The truncation of a number with leading bit [2^p]. *)
Lemma truncZ_magnitude s m e p :
  0 <= p -> p <= Z.log2 (Z.pos m) + e ->
  exists z, truncZ (S754_finite s m e) = Some (signed s z) /\ 2 ^ p <= z.
Proof.
  intros Hp Hl. cbn [truncZ]. eexists. split; [reflexivity |].
  pose proof (Z.log2_spec (Z.pos m) ltac:(lia)) as [Hlo _].
  pose proof (Z.log2_nonneg (Z.pos m)) as Hn.
  destruct (Z.leb_spec 0 e) as [He | He].
  - apply Z.le_trans with (2 ^ Z.log2 (Z.pos m) * 2 ^ e).
    + rewrite <- Z.pow_add_r by lia. apply Z.pow_le_mono_r; lia.
    + apply Z.mul_le_mono_nonneg_r; [apply Z.pow_nonneg; lia | exact Hlo].
  - apply Z.div_le_lower_bound; [apply Z.pow_pos_nonneg; lia |].
    rewrite <- Z.pow_add_r by lia.
    apply Z.le_trans with (2 ^ Z.log2 (Z.pos m)); [| exact Hlo].
    apply Z.pow_le_mono_r; lia.
Qed.

(** When [new Float32Array(Math.ceil(q))] gives an array, its length is
    the ceiling of [q], or [q] is NaN and the array is empty. *)
Lemma ToIndex_Math_ceil_inv q k :
  ToIndex (Math_ceil q) = Some k ->
  (q = S754_nan /\ k = 0) \/ ceilZ q = Some k.
Proof.
  unfold Math_ceil. destruct (ceilZ q) as [n |] eqn:Hq.
  - intros H. right. f_equal.
    destruct n as [| v | v].
    + cbn in H. now injection H.
    + cbn [binary_normalize] in H.
      destruct (Z.lt_ge_cases (Z.pos v) (2 ^ 53)) as [Hv | Hv].
      * pose proof (binary_normalize_exact (Z.pos v) false ltac:(lia)) as Ht.
        cbn [binary_normalize] in Ht. unfold ToIndex in H.
        destruct (binary_round prec emax false v 0) as [s | s | | s m e];
          try discriminate; rewrite Ht in H;
          destruct ((0 <=? Z.pos v) && (Z.pos v <=? 2 ^ 53 - 1));
          try discriminate; now injection H.
      * exfalso.
        assert (Hl : 53 <= Z.log2 (Z.pos v) + 0)
          by (rewrite Z.add_0_r; apply Z.log2_le_pow2; lia).
        destruct (binary_round_atLeast false v 0 53 ltac:(lia) Hl)
          as [E | (m & e & E & Hm)]; rewrite E in H; [discriminate |].
        destruct (truncZ_magnitude false m e 53 ltac:(lia) Hm) as (z & Hz & Hb).
        unfold ToIndex in H. rewrite Hz in H. cbn [signed] in H.
        replace (z <=? 2 ^ 53 - 1) with false in H
          by (symmetry; apply Z.leb_gt; lia).
        rewrite andb_false_r in H. discriminate.
    + exfalso. cbn [binary_normalize] in H.
      assert (Hl : 0 <= Z.log2 (Z.pos v) + 0)
        by (pose proof (Z.log2_nonneg (Z.pos v)); lia).
      destruct (binary_round_atLeast true v 0 0 ltac:(lia) Hl)
        as [E | (m & e & E & Hm)]; rewrite E in H; [discriminate |].
      destruct (truncZ_magnitude true m e 0 ltac:(lia) Hm) as (z & Hz & Hb).
      unfold ToIndex in H. rewrite Hz in H. cbn [signed] in H.
      change (2 ^ 0) with 1 in Hb.
      replace (0 <=? - z) with false in H by (symmetry; apply Z.leb_gt; lia).
      discriminate.
  - intros H. left.
    destruct q as [s | s | | s m e]; try discriminate.
    cbn in H. split; [reflexivity | now injection H].
Qed.

(** The resampled buffer has the length that [new Float32Array(newLength)]
    allocates. *)
Lemma downsampleTo16k_newLength buffer rate out :
  strictEq rate (ofZ 16000) = false ->
  downsampleTo16k buffer rate = Some out ->
  ToIndex (newLength buffer rate) = Some (Z.of_nat (List.length out)).
Proof.
  intros H. unfold downsampleTo16k. rewrite H.
  destruct (ToIndex _) as [n |] eqn:Hn; [| discriminate].
  intros [= <-]. rewrite length_map, length_seq, Z2Nat.id; trivial.
  eapply ToIndex_nonneg, Hn.
Qed.

(** C2, amended. At exactly 16000 Hz the buffer is passed through as it
    is.  At any other rate the array that is returned has [ceil(q)]
    elements, where [q = length / (rate / 16000)] is computed in double
    precision, both divisions rounded to nearest; it is empty when [q] is
    NaN, and the call throws when [q] is infinite.  For a rate that is a
    whole number of hertz, up to 2^32, and a frame of fewer than 2^32
    samples, that number of elements is [ceil(length * 16000 / rate)] or
    one more.  In every case the PCM byte sequence is twice as long as
    the resampled buffer. *)
Theorem downsampleTo16k_length buffer rate :
  let q := div (len buffer) (div rate (ofZ 16000)) in
  (strictEq rate (ofZ 16000) = true ->
     downsampleTo16k buffer rate = Some buffer)
  /\ (strictEq rate (ofZ 16000) = false ->
       (q = S754_nan -> downsampleTo16k buffer rate = Some [])
       /\ (forall s, q = S754_infinity s -> downsampleTo16k buffer rate = None)
       /\ (forall out, downsampleTo16k buffer rate = Some out ->
             (q = S754_nan /\ out = [])
             \/ ceilZ q = Some (Z.of_nat (List.length out))))
  /\ (forall R out,
        1 <= R <= 2 ^ 32 -> rate = ofZ R ->
        Z.of_nat (List.length buffer) < 2 ^ 32 ->
        downsampleTo16k buffer rate = Some out ->
        let exact := - (- (Z.of_nat (List.length buffer) * 16000) / R) in
        Z.of_nat (List.length out) = exact
        \/ Z.of_nat (List.length out) = exact + 1)
  /\ (forall out, downsampleTo16k buffer rate = Some out ->
       exists bytes, pcmBytes buffer rate = Some bytes
                     /\ List.length bytes = (List.length out * 2)%nat).
Proof.
  intros q.
  assert (Hc : strictEq rate (ofZ 16000) = false ->
               forall out, downsampleTo16k buffer rate = Some out ->
                 (q = S754_nan /\ out = [])
                 \/ ceilZ q = Some (Z.of_nat (List.length out))).
  { intros H out Hout.
    pose proof (downsampleTo16k_newLength buffer rate out H Hout) as Hn.
    unfold newLength in Hn. fold q in Hn.
    destruct (ToIndex_Math_ceil_inv q _ Hn) as [[Hq Hz] | Hq]; [left | now right].
    split; [exact Hq |]. destruct out; [reflexivity | discriminate]. }
  split; [| split; [| split]].
  - intros H. unfold downsampleTo16k. now rewrite H.
  - intros H. split; [| split; [| exact (Hc H)]].
    + intros Hq. unfold downsampleTo16k, newLength. rewrite H. fold q.
      rewrite Hq. reflexivity.
    + intros s Hq. unfold downsampleTo16k, newLength. rewrite H. fold q.
      rewrite Hq. reflexivity.
  - intros R out HR -> HL Hout exact.
    assert (H53 : 2 ^ 32 < 2 ^ 53) by reflexivity.
    destruct (strictEq (ofZ R) (ofZ 16000)) eqn:Heq.
    + (* the rate is 16000 *)
      unfold strictEq, SFeqb in Heq.
      rewrite compare_exact in Heq by lia.
      destruct (Z.compare_spec R 16000) as [-> | |]; try discriminate.
      unfold downsampleTo16k in Hout. change (strictEq (ofZ 16000) (ofZ 16000)) with true in Hout.
      injection Hout as <-. left. subst exact.
      rewrite <- Z.mul_opp_l, Z.div_mul by lia. lia.
    + destruct (quotient_ceiling R (Z.of_nat (List.length buffer)) HR ltac:(lia))
        as (n & Hn & Hb).
      fold (len buffer) in Hn. fold q in Hn.
      destruct (Hc eq_refl out Hout) as [[Hq _] | Hq].
      * rewrite Hq in Hn. discriminate.
      * rewrite Hq in Hn. injection Hn as <-. subst exact. lia.
  - intros out H. unfold pcmBytes. rewrite H.
    eexists. split; [reflexivity |].
    unfold pcmInt16. rewrite int16Bytes_length, length_map. lia.
Qed.

Lemma downsampleTo16k_length_witness :
  exists out,
    downsampleTo16k (repeat zero 21) (ofZ 22400) = Some out
    /\ (Z.of_nat (List.length out) = 15
        \/ Z.of_nat (List.length out) = 15 + 1).
Proof.
  eexists. split; [vm_compute; reflexivity |].
  destruct (downsampleTo16k_length (repeat zero 21) (ofZ 22400))
    as (_ & _ & H & _).
  apply (H 22400); [split; [lia | vm_compute; discriminate] | reflexivity
                   | vm_compute; reflexivity | vm_compute; reflexivity].
Defined.

(** C2, as stated, fails: 21 samples at 22400 Hz are resampled to 16
    samples (32 bytes), one more than [ceil(21 * 16000 / 22400) = 15],
    because [22400 / 16000] is rounded below 1.4 and [21] divided by it is
    rounded above 15. *)
Lemma downsampleTo16k_one_sample_more :
  let buffer := repeat zero 21 in
  let rate := ofZ 22400 in
  strictEq rate (ofZ 16000) = false
  /\ ceilZ (div (len buffer) (div rate (ofZ 16000))) = Some 16
  /\ option_map (@List.length number) (downsampleTo16k buffer rate) = Some 16%nat
  /\ option_map (@List.length Z) (pcmBytes buffer rate) = Some 32%nat
  /\ - (- (21 * 16000) / 22400) = 15
  /\ 21 * 16000 = 15 * 22400.
Proof. vm_compute. repeat split. Qed.

(** A rate that is not a number gives an empty array, and an infinite
    quotient makes the call throw. *)
Lemma downsampleTo16k_degenerate_rates :
  downsampleTo16k [zero; zero; zero] S754_nan = Some []
  /\ downsampleTo16k [zero; zero; zero] zero = None.
Proof. vm_compute. split; reflexivity. Qed.

(** C2 at the frame size and the usual device rates: a frame of 4096
    samples gives the exact ceiling at 44100 Hz and at 48000 Hz. *)
Lemma newLength_usual_rates buffer :
  List.length buffer = 4096%nat ->
  ToIndex (newLength buffer (ofZ 44100)) = Some (- (- (4096 * 16000) / 44100))
  /\ ToIndex (newLength buffer (ofZ 48000)) = Some (- (- (4096 * 16000) / 48000)).
Proof.
  intros H. unfold newLength, len. rewrite H. vm_compute. split; reflexivity.
Qed.

(** C7. In [createPcmBlob] every sample of the resampled buffer is
    clamped with [Math.max(-1, Math.min(1, x))]: a sample above 1 becomes
    1, a sample below -1 becomes -1, and the clamped value [s] satisfies
    [-1 <= s <= 1] (NaN stays NaN and is stored as 0).  A clamped value
    [s < 0] is multiplied by 32768 and any other by 32767; the product,
    truncated, is the stored integer without any wrap-around, and lies in
    [-32768, 0] resp. [0, 32767].  Hence every integer of the frame is in
    the signed 16-bit range. *)
Theorem createPcmBlob_clamps_and_fits data rate downsampled :
  Forall (fun v => valid v = true) data ->
  downsampleTo16k data rate = Some downsampled ->
  pcmBytes data rate = Some (int16Bytes (map pcm16 downsampled))
  /\ Forall (fun v =>
       pcm16 v = ToInt16 (scale (clamp v))
       /\ clamp v = Math_max (ofZ (-1)) (Math_min (ofZ 1) v)
       /\ scale (clamp v)
          = (if lt (clamp v) zero then mul (clamp v) (ofZ 32768)
             else mul (clamp v) (ofZ 32767))
       /\ (lt (ofZ 1) v = true -> clamp v = ofZ 1 /\ pcm16 v = 32767)
       /\ (lt v (ofZ (-1)) = true -> clamp v = ofZ (-1) /\ pcm16 v = -32768)
       /\ (lt (ofZ (-1)) v = true -> lt v (ofZ 1) = true -> clamp v = v)
       /\ ((v = S754_nan /\ clamp v = S754_nan /\ pcm16 v = 0)
           \/ (le (ofZ (-1)) (clamp v) = true /\ le (clamp v) (ofZ 1) = true
               /\ exists z,
                    truncZ (scale (clamp v)) = Some z
                    /\ pcm16 v = z
                    /\ (if lt (clamp v) zero then -32768 <= z <= 0
                        else 0 <= z <= 32767)))
       /\ -32768 <= pcm16 v <= 32767) downsampled
  /\ Forall (fun z => -32768 <= z <= 32767) (pcmInt16 downsampled).
Proof.
  intros Hdata Hds.
  pose proof (downsampleTo16k_valid data rate downsampled Hdata Hds) as Hvalid.
  split; [unfold pcmBytes; now rewrite Hds |].
  split.
  - eapply Forall_impl; [| exact Hvalid]. cbv beta. intros v Hv.
    destruct (clamp_cases v) as (Hhi & Hlo & Hmid).
    split; [reflexivity |]. split; [reflexivity |]. split; [reflexivity |].
    split; [exact Hhi |]. split; [exact Hlo |]. split; [exact Hmid |].
    split; [| apply wrap16_or_zero_range].
    destruct (pcm16_sample v Hv) as [H | (_ & Hl & Hh & H)]; [now left | right].
    auto.
  - unfold pcmInt16. apply Forall_map, Forall_forall.
    intros v _. apply wrap16_or_zero_range.
Qed.

Lemma createPcmBlob_clamps_and_fits_witness :
  let data := [ofZ 3; ofZ (-2); S754_finite false 4503599627370496 (-53);
               S754_infinity true; zero; ofZ 1] in
  Forall (fun v => valid v = true) data
  /\ downsampleTo16k data (ofZ 16000) = Some data
  /\ pcmInt16 data = [32767; -32768; 16383; -32768; 0; 32767]
  /\ Forall (fun z => -32768 <= z <= 32767) (pcmInt16 data).
Proof.
  intros data.
  assert (Hvalid : Forall (fun v => valid v = true) data)
    by (repeat constructor).
  assert (Hds : downsampleTo16k data (ofZ 16000) = Some data) by reflexivity.
  split; [exact Hvalid |]. split; [exact Hds |]. split; [reflexivity |].
  apply (createPcmBlob_clamps_and_fits data (ofZ 16000) data Hvalid Hds).
Defined.

(** The whole encoder on a small frame at 16000 Hz: the payload is the
    base64 text of the little-endian 16-bit samples. *)
Lemma createPcmBlob_example :
  createPcmBlob [ofZ 3; ofZ (-2); S754_finite false 4503599627370496 (-53);
                 S754_infinity true; zero; ofZ 1] (ofZ 16000)
  = Some {| data := "/38AgP8/AIAAAP9/"; mimeType := "audio/pcm;rate=16000" |}.
Proof. vm_compute. reflexivity. Qed.

End Encoder.

(** ** Combo/score engine *)

Section ComboScore.
Import JS App.

Lemma triggerBo_gameState rendered count now draws st :
  gameState (triggerBo rendered count now draws st)
  = comboUpdate count now (gameState st).
Proof.
  unfold triggerBo.
  destruct (explosion rendered count draws (particles st) (particleIdCounter st)).
  reflexivity.
Qed.

(** On integers the update is the integer one, as long as the new score
    stays below 2^53: no operation rounds. *)
Lemma comboUpdate_exact count now s c m t :
  1 <= count -> 0 <= s -> 1 <= c -> 1 <= m < 2 ^ 53 ->
  0 <= t < 2 ^ 53 -> 0 <= now < 2 ^ 53 ->
  let c' := if now - t <? 2000 then c + count else 1 in
  s + count * 100 * c' < 2 ^ 53 ->
  lt (sub (ofZ now) (ofZ t)) (ofZ 2000) = (now - t <? 2000)
  /\ comboUpdate count now (gameOf s c m t)
     = gameOf (s + count * 100 * c') c' (Z.max m c') now.
Proof.
  intros Hk Hs Hc Hm Ht Hn c' Hb.
  assert (H53 : 2000 < 2 ^ 53) by reflexivity.
  assert (Hw : lt (sub (ofZ now) (ofZ t)) (ofZ 2000) = (now - t <? 2000)).
  { rewrite sub_exact, lt_exact by lia. reflexivity. }
  split; [exact Hw |].
  assert (Hc' : 1 <= c') by (unfold c'; destruct (now - t <? 2000); lia).
  assert (Hk100 : 1 <= count * 100) by lia.
  assert (Hp1 : count * 100 <= count * 100 * c')
    by (apply Z.le_mul_diag_r; lia).
  assert (Hp2 : c' <= count * 100 * c').
  { rewrite <- (Z.mul_1_l c') at 1. apply Z.mul_le_mono_nonneg_r; lia. }
  unfold comboUpdate, gameOf. cbn [score combo maxCombo lastBoTime].
  rewrite Hw.
  assert (Hnc : (if now - t <? 2000 then add (ofZ c) (ofZ count) else ofZ 1)
                = ofZ c').
  { unfold c' in *. destruct (now - t <? 2000); [| reflexivity].
    apply add_exact; lia. }
  rewrite Hnc.
  rewrite (mul_exact count 100), (mul_exact (count * 100) c') by lia.
  rewrite add_exact, Math_max_exact by lia.
  reflexivity.
Qed.



(** Beyond 2^53 the sums are rounded: at a score of 2^55 one occurrence
    adds 96 points, not 100. *)
Lemma comboUpdate_rounds_high_scores :
  score (comboUpdate 1 5000 highScore) = add (ofZ (2 ^ 55)) (ofZ 100)
  /\ truncZ (score (comboUpdate 1 5000 highScore)) = Some (2 ^ 55 + 96).
Proof. vm_compute. split; reflexivity. Qed.

(** C5. From the initial game state, a trigger with [count = 1] at a
    time [t0] gives score 100 and combo 1, and a trigger with [count = 2]
    500 ms later continues the combo: [newCombo = 3], 600 points, score
    700.  [t0] is the reading of the clock at the first trigger, any
    time value from 2000 on that [Date.now()] can return (these are
    below 2^53 - 500). *)
Theorem scoring_example t0 :
  2000 <= t0 -> t0 + 500 < 2 ^ 53 ->
  let '(s1, s2) := scoringExample t0 in
  score s1 = ofZ 100 /\ combo s1 = ofZ 1
  /\ combo s2 = ofZ (1 + 2)
  /\ sub (score s2) (score s1) = ofZ (2 * 100 * 3)
  /\ score s2 = ofZ 700.
Proof.
  intros Ht Hb. unfold scoringExample.
  change initialGameState with (gameOf 0 1 1 0).
  assert (H53 : 700 < 2 ^ 53) by reflexivity.
  destruct (comboUpdate_exact 1 t0 0 1 1 0) as [_ E1]; try lia.
  { replace (t0 - 0 <? 2000) with false by (symmetry; apply Z.ltb_ge; lia).
    lia. }
  replace (t0 - 0 <? 2000) with false in E1 by (symmetry; apply Z.ltb_ge; lia).
  rewrite E1.
  destruct (comboUpdate_exact 2 (t0 + 500) (0 + 1 * 100 * 1) 1 (Z.max 1 1) t0)
    as [_ E2]; try lia.
  { replace (t0 + 500 - t0 <? 2000) with true by (symmetry; apply Z.ltb_lt; lia).
    lia. }
  replace (t0 + 500 - t0 <? 2000) with true in E2 by (symmetry; apply Z.ltb_lt; lia).
  rewrite E2. cbn [gameOf score combo].
  repeat split.
Qed.

Lemma scoring_example_witness :
  2000 <= 1700000000000 /\ 1700000000000 + 500 < 2 ^ 53 /\
  let '(s1, s2) := scoringExample 1700000000000 in
  score s1 = ofZ 100 /\ combo s1 = ofZ 1
  /\ combo s2 = ofZ (1 + 2)
  /\ sub (score s2) (score s1) = ofZ (2 * 100 * 3)
  /\ score s2 = ofZ 700.
Proof.
  split; [lia |]. split; [reflexivity |].
  apply (scoring_example 1700000000000); [lia | reflexivity].
Defined.

(** The larger of two numbers is one of them. *)
Lemma Math_max_cases x y :
  Math_max x y = x \/ Math_max x y = y \/ Math_max x y = S754_nan
  \/ exists sx sy s, x = S754_zero sx /\ y = S754_zero sy
                     /\ Math_max x y = S754_zero s.
Proof.
  unfold Math_max.
  destruct x as [sx | sx | | sx mx ex], y as [sy | sy | | sy my ey];
    cbv beta iota; auto;
    try (destruct (SFltb _ _); now auto).
  right. right. right. exists sx, sy, (sx && sy). auto.
Qed.

Lemma le_Math_max a x y :
  le a x = true -> le a y = true -> le a (Math_max x y) = true.
Proof.
  intros Hx Hy.
  destruct (Math_max_cases x y) as [-> | [-> | [E | (sx & sy & s & -> & -> & ->)]]];
    trivial.
  destruct x as [sx | sx | | sx mx ex], y as [sy | sy | | sy my ey];
    try discriminate E;
    try (destruct a as [| | | sa ma ea]; discriminate);
    unfold Math_max in E; destruct (SFltb _ _); discriminate.
Qed.

Lemma one_is_pow2 : ofZ 1 = pow2 0.
Proof. reflexivity. Qed.

(** The new combo of a trigger is a canonical number, at least 1. *)
Lemma newCombo_atLeast count now g :
  le (ofZ 1) (combo g) = true -> 1 <= count ->
  let nc := if lt (sub (ofZ now) (lastBoTime g)) (ofZ 2000)
            then add (combo g) (ofZ count) else ofZ 1 in
  valid nc = true /\ atLeast 0 nc.
Proof.
  intros Hc Hk nc. subst nc.
  assert (Hcount : atLeast 0 (ofZ count)) by (apply ofZ_atLeast; lia).
  destruct (lt _ _).
  - split.
    + apply (add_atLeast_valid 0); trivial; [| apply ofZ_valid].
      now apply le_one_nonneg.
    + apply add_atLeast; trivial; [lia |]. now apply le_one_nonneg.
  - split; [reflexivity | apply ofZ_atLeast; lia].
Qed.

(** A trigger keeps the data invariant, whatever the rounding. *)
Lemma comboUpdate_inv count now g :
  GameInv g -> 1 <= count -> GameInv (comboUpdate count now g).
Proof.
  intros (Hs & Hc & Hm) Hk.
  destruct (newCombo_atLeast count now g Hc Hk) as [Vnc Hnc].
  unfold comboUpdate.
  set (nc := if lt (sub (ofZ now) (lastBoTime g)) (ofZ 2000)
             then add (combo g) (ofZ count) else ofZ 1) in *.
  set (points := mul (mul (ofZ count) (ofZ 100)) nc).
  assert (Hp : atLeast (0 + 6 + 0) points).
  { unfold points. apply mul_atLeast; trivial; try lia.
    - apply mul_valid; apply ofZ_valid.
    - apply mul_atLeast; try apply ofZ_valid; try lia.
      + apply ofZ_atLeast; lia.
      + apply ofZ_atLeast; [lia | change (2 ^ 6) with 64; lia]. }
  split; [| split]; cbn [score combo maxCombo lastBoTime].
  - apply nonneg_le_zero, (atLeast_nonneg (0 + 6 + 0)).
    apply add_atLeast; [lia | | exact Hp].
    apply nonneg_le_zero, Hs.
  - rewrite one_is_pow2. apply atLeast_le; trivial.
  - apply le_Math_max; [exact Hm |].
    rewrite one_is_pow2. apply atLeast_le; trivial.
Qed.

(** A trigger keeps the fields canonical. *)
Lemma comboUpdate_wellFormed count now g :
  wellFormed g -> wellFormed (comboUpdate count now g).
Proof.
  intros (Vs & Vc & Vm & Vt). unfold comboUpdate.
  set (nc := if lt (sub (ofZ now) (lastBoTime g)) (ofZ 2000)
             then add (combo g) (ofZ count) else ofZ 1).
  assert (Vnc : valid nc = true).
  { unfold nc. destruct (lt _ _); [| reflexivity].
    apply add_valid; [exact Vc | apply ofZ_valid]. }
  repeat split; cbn [score combo maxCombo lastBoTime].
  - apply add_valid; trivial. repeat apply mul_valid; trivial; apply ofZ_valid.
  - exact Vnc.
  - apply Math_max_valid; trivial.
  - apply ofZ_valid.
Qed.

Lemma initialGameState_inv : GameInv initialGameState.
Proof. repeat split. Qed.

Lemma onmessage_gameState rendered t now draws st :
  gameState (onmessage rendered t now draws st) = gameState st
  \/ exists count, 1 <= count
       /\ gameState (onmessage rendered t now draws st)
          = comboUpdate count now (gameState st).
Proof.
  unfold onmessage.
  destruct t as [[| c text] |]; auto.
  destruct (Spotter.matchAll (c :: text)) as [ms |]; auto.
  destruct (Nat.ltb_spec 0 (List.length ms)); auto.
  right. exists (Z.of_nat (List.length ms)). split; [lia |].
  apply triggerBo_gameState.
Qed.

(** Every event other than a session message leaves the game state as it
    is, or remounts the component. *)
Lemma step_gameState_frame r ev :
  isMessage ev = false ->
  gameState (cells (step r ev)) = gameState (cells r)
  \/ step r ev = mounted.
Proof.
  destruct ev; cbn [isMessage step]; intros H; try discriminate.
  - destruct (connectionState (cells r)); auto. destruct setupOk; auto.
  - auto.
  - auto.
  - auto.
  - destruct (connectionState (cells r)); auto.
  - auto.
Qed.

Lemma step_inv r ev :
  GameInv (gameState (cells r)) -> GameInv (gameState (cells (step r ev))).
Proof.
  intros Hinv.
  destruct ev as [ok | | t now draws | | | |].
  3:{ cbn [step]. destruct (session r) as [rendered |]; auto. cbn [cells].
      destruct (onmessage_gameState rendered t now draws (cells r))
        as [-> | (count & Hc & ->)]; auto using comboUpdate_inv. }
  all: match goal with
       | |- GameInv (gameState (cells (step ?r0 ?ev))) =>
           destruct (step_gameState_frame r0 ev eq_refl) as [-> | ->]; auto
       end; apply initialGameState_inv.
Qed.

Lemma run_inv evs : forall r,
  GameInv (gameState (cells r)) -> GameInv (gameState (cells (run r evs))).
Proof.
  induction evs as [| ev evs IH]; intros r Hr; cbn; auto.
  apply IH, step_inv, Hr.
Qed.

(** C9. [score >= 0], [combo >= 1] and [maxCombo >= 1] hold in the
    initial game state and are preserved by every trigger with
    [count >= 1]; the game state changes only through [triggerBo]: every
    other event keeps it (or reloads the page, which remounts the initial
    state), so the invariant holds after every sequence of events. *)
Theorem gameState_invariant :
  GameInv initialGameState
  /\ (forall rendered draws st count now,
        GameInv (gameState st) -> 1 <= count ->
        GameInv (gameState (triggerBo rendered count now draws st)))
  /\ (forall r ev, isMessage ev = false ->
        gameState (cells (step r ev)) = gameState (cells r)
        \/ step r ev = mounted)
  /\ (forall r t now draws,
        gameState (cells (step r (SessionMessage t now draws)))
        = gameState (cells r)
        \/ exists rendered count, 1 <= count
             /\ gameState (cells (step r (SessionMessage t now draws)))
                = gameState (triggerBo rendered count now draws (cells r)))
  /\ (forall evs, GameInv (gameState (cells (run mounted evs)))).
Proof.
  split; [apply initialGameState_inv |].
  split; [intros; rewrite triggerBo_gameState; auto using comboUpdate_inv |].
  split; [apply step_gameState_frame |].
  split.
  - intros r t now draws. cbn [step].
    destruct (session r) as [rendered |]; auto. cbn [cells].
    destruct (onmessage_gameState rendered t now draws (cells r))
      as [H | (count & Hc & H)]; auto.
    right. exists rendered, count. split; auto.
    rewrite triggerBo_gameState. exact H.
  - intros evs. apply run_inv, initialGameState_inv.
Qed.

End ComboScore.

(** ** Keyword spotter *)

Section KeywordSpotter.
Import Spotter.

(** When no alternative matches at any position of the text, [match]
    returns [null] and nothing is counted. *)
Lemma scan_no_match text : forall before skip,
  (forall k, firstAlternative (skipn k text) alternatives = None) ->
  scan before text skip = [].
Proof.
  induction text as [| c rest IH]; intros before skip H; cbn [scan]; auto.
  assert (Hrest : forall k, firstAlternative (skipn k rest) alternatives = None)
    by (intros k; apply (H (S k))).
  destruct skip; [| now apply IH].
  unfold matchHere. rewrite (H 0%nat : firstAlternative (c :: rest) _ = None).
  destruct (wordBoundary before (nth_error (c :: rest) 0)); now apply IH.
Qed.

Lemma matchCount_no_trigger_word text :
  (forall k, firstAlternative (skipn k text) alternatives = None) ->
  matchCount text = 0.
Proof.
  intros H. unfold matchCount, matchAll.
  now rewrite scan_no_match.
Qed.

(** The closing [\b] of the pattern never holds after the code unit
    U+00F3 unless a word character follows it. *)
Lemma accented_alternative_needs_word_char input :
  tryAlternative input [98; o_acute] = Some 2%nat ->
  isWordOpt (nth_error input 2) = true.
Proof.
  unfold tryAlternative. cbn [List.length Nat.sub].
  destruct input as [| a [| b rest]]; cbn [matchesPrefix]; try discriminate.
  - rewrite andb_false_r. discriminate.
  - destruct (canonicalize 98 =? canonicalize a); cbn [andb]; try discriminate.
    destruct (Z.eqb_spec (canonicalize o_acute) (canonicalize b)) as [E | E];
      cbn [andb]; try discriminate.
    assert (Hb : isWordChar b = false).
    { unfold canonicalize, o_acute in E. cbn in E. unfold isWordChar.
      destruct (Z.leb_spec 97 b), (Z.leb_spec b 122); cbn in E |- *;
        try (destruct (Z.leb_spec 224 b), (Z.leb_spec b 254),
               (Z.eqb_spec b 247); cbn in E);
        repeat match goal with
               | |- context [?u <=? ?v] => destruct (Z.leb_spec u v)
               | |- context [?u =? ?v] => destruct (Z.eqb_spec u v)
               end; cbn; try reflexivity; lia. }
    unfold wordBoundary. cbn [nth_error isWordOpt]. rewrite Hb. cbn [xorb].
    destruct (isWordOpt _); intros H; auto; discriminate.
Qed.

(** C3, at the claim's own example. On the transcript [bó bó bó] the
    pattern finds nothing ([match] returns [null], the match count is 0
    and [onmessage] leaves every cell as it is), although the same words
    without the accent are counted three times. *)
Theorem spotter_misses_accented_word :
  matchAll boBoBo = None
  /\ matchCount boBoBo = 0
  /\ matchCount (units "bo bo bo") = 3
  /\ (forall rendered now draws st,
        App.onmessage rendered (Some boBoBo) now draws st = st).
Proof. repeat split. Qed.

(** What the spotter does count: unaccented variants in any case between
    non-word characters, and nothing in a text without trigger words. *)
Lemma spotter_examples :
  matchCount (units "I said bo and bow") = 2
  /\ matchCount (units "BO! Bow, boy. Paul bough BALL bof") = 7
  /\ matchCount (units "hello world, nothing here") = 0
  /\ matchCount (units "bobo paula ball_") = 0
  /\ matchCount [] = 0.
Proof. repeat split. Qed.

End KeywordSpotter.

(** ** Particle bursts *)

Section Burst.
Import JS App.

Lemma explosion_length draws l : forall ps counter,
  List.length (fst (fold_left (spawnOne draws) l (ps, counter)))
  = (List.length ps + List.length l)%nat.
Proof.
  induction l as [| ij l IH]; intros ps counter; cbn [fold_left].
  - cbn [fst List.length]. lia.
  - change (spawnOne draws (ps, counter) ij)
      with (ps ++ [newParticle counter (draws (fst ij) (snd ij))],
            add counter (ofZ 1)).
    rewrite IH, length_app. cbn [List.length]. lia.
Qed.

Lemma burstIndices_length rendered count :
  List.length (burstIndices rendered count)
  = (iterations (particleCount rendered) * Z.to_nat count)%nat.
Proof.
  unfold burstIndices.
  rewrite flat_map_constant_length with (c := iterations (particleCount rendered)).
  - rewrite length_seq. apply Nat.mul_comm.
  - intros i _. now rewrite length_map, length_seq.
Qed.

(** A call of [triggerBo] adds [count] times as many particles as the
    inner loop has passes, and these are as many as
    [5 + Math.min(c, 10)] calls for, [c] being the combo of the render
    the closure belongs to. *)
Lemma triggerBo_spawned rendered count now draws st :
  0 <= count ->
  spawned st (triggerBo rendered count now draws st)
  = count * Z.of_nat (iterations (particleCount rendered)).
Proof.
  intros Hc. unfold spawned, triggerBo.
  pose proof (explosion_length draws (burstIndices rendered count)
                (particles st) (particleIdCounter st)) as H.
  unfold explosion.
  destruct (fold_left (spawnOne draws) (burstIndices rendered count)
              (particles st, particleIdCounter st)) as [ps counter].
  cbn [fst] in H. cbn [particles]. rewrite H, burstIndices_length.
  rewrite Nat2Z.inj_add, Nat2Z.inj_mul, Z2Nat.id by lia. lia.
Qed.

(** The bound of the inner loop is never [+Infinity]: the loop ends. *)
Lemma particleCount_finite g :
  valid (combo g) = true -> particleCount g <> S754_infinity false.
Proof.
  intros Vc. unfold particleCount.
  destruct (lt (ofZ 10) (combo g)) eqn:Hc.
  - replace (Math_min (combo g) (ofZ 10)) with (ofZ 10); [discriminate |].
    unfold lt in Hc.
    destruct (combo g) as [sc | sc | | s m e]; try discriminate;
      unfold Math_min; now rewrite Hc.
  - destruct (combo g) as [sc | sc | | s m e] eqn:E; try discriminate.
    + replace (Math_min (S754_infinity sc) (ofZ 10)) with (S754_infinity sc)
        by (unfold lt in Hc; unfold Math_min; now rewrite Hc).
      now apply add_five_not_inf.
    + replace (Math_min (S754_finite s m e) (ofZ 10)) with (S754_finite s m e)
        by (unfold lt in Hc; unfold Math_min; now rewrite Hc).
      now apply add_five_not_inf.
Qed.

(** The inner loop on a combo that is a small integer. *)
Lemma particleCount_integer c :
  1 <= c < 2 ^ 53 ->
  forall g, combo g = ofZ c ->
    Z.of_nat (iterations (particleCount g)) = 5 + Z.min c 10.
Proof.
  intros Hc g Hg. unfold particleCount. rewrite Hg.
  assert (H10 : 10 < 2 ^ 53) by reflexivity.
  rewrite Math_min_exact by lia.
  assert (Hm : 1 <= Z.min c 10 <= 10) by lia.
  set (k := Z.min c 10) in *. clearbody k.
  assert (Hk : k = 1 \/ k = 2 \/ k = 3 \/ k = 4 \/ k = 5 \/ k = 6 \/ k = 7
               \/ k = 8 \/ k = 9 \/ k = 10) by lia.
  repeat (destruct Hk as [-> | Hk]; [reflexivity |]). subst k. reflexivity.
Qed.

(** C4, in a running session. After the word has been said once and then
    twice, the combo of the game state is 3.  The next transcript with
    one occurrence is handled by the [triggerBo] of the render in which
    the session was opened, whose combo is still 1: it spawns
    [1 * (5 + 1) = 6] particles, not the [1 * (5 + min(3, 10)) = 8] that
    the combo before the update calls for. *)
Theorem burst_uses_combo_of_connect_time :
  let before := run mounted warmUp in
  let after := step before thirdMessage in
  combo (gameState (cells before)) = ofZ 3
  /\ combo (gameState (cells after)) = ofZ 4
  /\ session before = Some initialGameState
  /\ spawned (cells before) (cells after) = 6
  /\ 1 * Z.of_nat (iterations (particleCount (gameState (cells before))))
     = 1 * (5 + Z.min 3 10)
  /\ 1 * (5 + Z.min 3 10) = 8.
Proof. vm_compute. repeat split. Qed.

End Burst.

(** ** Particle simulator *)

Section ParticleSimulator.
Import JS BoVisualizer.

(** A value that is [<= 0] is not [> 0]. *)
Lemma le_zero_not_gt v : le v zero = true -> gt v zero = false.
Proof.
  unfold le, gt, zero, SFleb, SFltb.
  destruct v as [s | [|] | | [|] m e]; cbn; intros H;
    try reflexivity; try discriminate.
Qed.

Lemma updateParticles_eq ps :
  updateParticles ps = filter alive (map advance ps).
Proof. destruct ps; reflexivity. Qed.

Lemma updateParticles_survivors ps :
  updateParticles ps = map advance (survivors ps).
Proof.
  rewrite updateParticles_eq. unfold survivors.
  apply filter_map_swap.
Qed.

Lemma gravity_is_one_half : gravity = div (ofZ 1) (ofZ 2).
Proof. reflexivity. Qed.

(** C6. On every frame each particle is advanced with
    [x' = x + vx], [y' = y + vy] (the velocity before gravity),
    [vy' = vy + 0.5], [rotation' = rotation + vRotation] and
    [life' = life - decay]; the new population is exactly the advanced
    particles whose life is [> 0], so a particle whose new life is [<= 0]
    is gone after that same frame. *)
Theorem updateParticles_advances_and_retires ps :
  updateParticles ps = filter alive (map advance ps)
  /\ gravity = div (ofZ 1) (ofZ 2)
  /\ (forall p,
        x (advance p) = add (x p) (vx p)
        /\ y (advance p) = add (y p) (vy p)
        /\ vy (advance p) = add (vy p) gravity
        /\ rotation (advance p) = add (rotation p) (vRotation p)
        /\ life (advance p) = sub (life p) (decay p))
  /\ (forall p, In p ps -> le (life (advance p)) zero = true ->
        ~ In (advance p) (updateParticles ps))
  /\ (forall p, In p ps -> gt (life (advance p)) zero = true ->
        In (advance p) (updateParticles ps)).
Proof.
  split; [apply updateParticles_eq |].
  split; [apply gravity_is_one_half |].
  split; [intros p; repeat split |].
  rewrite updateParticles_eq. split; intros p Hin Hlife.
  - intros Hq. apply filter_In in Hq. destruct Hq as [_ Hq].
    unfold alive in Hq. rewrite (le_zero_not_gt _ Hlife) in Hq. discriminate.
  - apply filter_In. split; [now apply in_map | exact Hlife].
Qed.

Lemma sublist_filter_ids (f : Particle -> bool) ps :
  NoDup (map id ps) -> NoDup (map id (filter f ps)).
Proof.
  induction ps as [| p ps IH]; cbn; intros H; auto.
  inversion H as [| ? ? Hnotin Hnodup]; subst.
  destruct (f p); cbn; auto.
  constructor; auto.
  intros Hin. apply Hnotin.
  apply in_map_iff in Hin. destruct Hin as (q & Hq & Hin).
  apply filter_In in Hin. apply in_map_iff. exists q. tauto.
Qed.

(** C10. A frame changes nothing but [x], [y], [vy], [rotation] and
    [life]: the new population is the surviving particles, in their old
    order, each advanced, with [id], [text], [vx], [vRotation], [scale],
    [color] and [decay] as before; no particle is created and none is
    duplicated (the population does not grow, and distinct ids stay
    distinct); the empty population is returned as it is. *)
Theorem updateParticles_frame ps :
  updateParticles ps = map advance (survivors ps)
  /\ (forall p,
        id (advance p) = id p /\ text (advance p) = text p
        /\ vx (advance p) = vx p /\ vRotation (advance p) = vRotation p
        /\ scale (advance p) = scale p /\ color (advance p) = color p
        /\ decay (advance p) = decay p)
  /\ (forall q, In q (updateParticles ps) -> exists p, In p ps /\ q = advance p)
  /\ map id (updateParticles ps) = map id (survivors ps)
  /\ (List.length (updateParticles ps) <= List.length ps)%nat
  /\ (NoDup (map id ps) -> NoDup (map id (updateParticles ps)))
  /\ updateParticles [] = [].
Proof.
  assert (Hids : map id (updateParticles ps) = map id (survivors ps)).
  { rewrite updateParticles_survivors, map_map. reflexivity. }
  split; [apply updateParticles_survivors |].
  split; [intros p; repeat split |].
  split.
  { intros q Hq. rewrite updateParticles_survivors in Hq.
    apply in_map_iff in Hq. destruct Hq as (p & <- & Hp).
    apply filter_In in Hp. exists p. tauto. }
  split; [exact Hids |].
  split.
  { rewrite updateParticles_survivors, length_map. apply filter_length_le. }
  split; [| reflexivity].
  rewrite Hids. apply sublist_filter_ids.
Qed.

(** The life of a lone particle over [n] frames. *)
Lemma advance_iter_life n : forall p,
  life (Nat.iter n advance p) = lifeAfter n (life p) (decay p)
  /\ decay (Nat.iter n advance p) = decay p
  /\ id (Nat.iter n advance p) = id p.
Proof.
  induction n as [| n IH]; intros p; [repeat split |].
  rewrite Nat.iter_succ_r. destruct (IH (advance p)) as (Hl & Hd & Hi).
  rewrite Hl, Hd, Hi. repeat split.
Qed.

Lemma ticks_alive n : forall p,
  aliveThrough n (life p) (decay p) = true ->
  ticks n [p] = [Nat.iter n advance p].
Proof.
  induction n as [| n IH]; intros p H; [reflexivity |].
  unfold aliveThrough in H. rewrite forallb_forall in H.
  assert (H1 : alive (advance p) = true).
  { apply (H 1%nat). apply in_seq. lia. }
  cbn [ticks]. unfold updateParticles. cbn [List.length Nat.eqb map filter].
  rewrite H1, Nat.iter_succ_r. apply IH.
  unfold aliveThrough. apply forallb_forall. intros k Hk.
  apply in_seq in Hk. apply (H (S k)). apply in_seq. lia.
Qed.

Lemma ticks_succ n ps : ticks (S n) ps = updateParticles (ticks n ps).
Proof.
  revert ps. induction n as [| n IH]; intros ps; [reflexivity |].
  change (ticks (S (S n)) ps) with (ticks (S n) (updateParticles ps)).
  rewrite IH. reflexivity.
Qed.

(** C8. A particle with [life = 1.0] and [decay = 0.02] is still in the
    population after each of the frames 1 to 49, with a life [> 0], and
    is retired by frame 50, where its life is [<= 0] for the first
    time. *)
Theorem particle_retired_at_frame_50 p :
  life p = one ->
  decay p = two_hundredths ->
  (forall n, (1 <= n <= 49)%nat ->
     ticks n [p] = [Nat.iter n advance p]
     /\ gt (life (Nat.iter n advance p)) zero = true)
  /\ le (life (Nat.iter 50 advance p)) zero = true
  /\ ticks 50 [p] = [].
Proof.
  intros Hl Hd.
  assert (H49 : aliveThrough 49 (life p) (decay p) = true)
    by (rewrite Hl, Hd; vm_compute; reflexivity).
  split; [| split].
  - intros n Hn.
    assert (Hn' : aliveThrough n (life p) (decay p) = true).
    { unfold aliveThrough in *. rewrite forallb_forall in *.
      intros k Hk. apply H49. apply in_seq in Hk. apply in_seq. lia. }
    split; [apply ticks_alive, Hn' |].
    destruct (advance_iter_life n p) as (-> & _).
    unfold aliveThrough in Hn'. rewrite forallb_forall in Hn'.
    apply Hn'. apply in_seq. lia.
  - destruct (advance_iter_life 50 p) as (-> & _).
    rewrite Hl, Hd. vm_compute. reflexivity.
  - rewrite ticks_succ, (ticks_alive 49 p H49).
    unfold updateParticles. cbn [List.length Nat.eqb map filter].
    change (advance (Nat.iter 49 advance p)) with (Nat.iter 50 advance p).
    unfold alive. destruct (advance_iter_life 50 p) as (-> & _).
    rewrite Hl, Hd. vm_compute. reflexivity.
Qed.

Lemma particle_retired_at_frame_50_witness :
  let p := App.newParticle (ofZ 7) {| App.startX := ofZ 640; App.startY := ofZ 360;
                                App.drawVx := ofZ 3; App.drawVy := ofZ (-9);
                                App.drawRotation := ofZ 90;
                                App.drawVRotation := ofZ (-4);
                                App.drawScale := ofZ 3;
                                App.drawColor := "text-cyan-500";
                                App.drawDecay := two_hundredths |} in
  (forall n, (1 <= n <= 49)%nat ->
     ticks n [p] = [Nat.iter n advance p]
     /\ gt (life (Nat.iter n advance p)) zero = true)
  /\ le (life (Nat.iter 50 advance p)) zero = true
  /\ ticks 50 [p] = [].
Proof.
  intros p. apply (particle_retired_at_frame_50 p); reflexivity.
Defined.

(** The literal [0.02] is the quotient [1 / 50] correctly rounded, within
    half a unit in the last place of 1/50. *)
Lemma two_hundredths_nearest :
  two_hundredths = div (ofZ 1) (ofZ 50)
  /\ Z.abs (50 * 5764607523034235 - 2 ^ 58) <= 25.
Proof. split; [reflexivity | vm_compute; discriminate]. Qed.

End ParticleSimulator.

(* ===================================================================== *)
(** * Further properties of the code *)
(* ===================================================================== *)

(** ** Encoder: edge cases, payload, silence *)

Section EncoderEdges.
Import JS Audio.

(** X1. An empty frame is encoded to the empty payload whatever the rate. *)
Theorem createPcmBlob_empty rate :
  downsampleTo16k [] rate = Some []
  /\ createPcmBlob [] rate
     = Some {| data := EmptyString; mimeType := "audio/pcm;rate=16000" |}.
Proof.
  assert (H : downsampleTo16k [] rate = Some []).
  { unfold downsampleTo16k, newLength.
    destruct (strictEq rate (ofZ 16000)); [reflexivity |].
    change (len []) with (S754_zero false).
    destruct (div rate (ofZ 16000)) as [s | s | | s m e]; reflexivity. }
  split; [exact H |].
  unfold createPcmBlob, pcmBytes. rewrite H. reflexivity.
Qed.

Lemma binary_normalize_pos_finite z s :
  0 < z < 2 ^ 53 ->
  exists m e, binary_normalize prec emax z 0 s = S754_finite false m e.
Proof.
  intros Hz. pose proof (binary_normalize_exact z s ltac:(lia)) as Ht.
  destruct z as [| p | p]; try lia.
  cbn [binary_normalize] in *. unfold binary_round in *.
  destruct (shl_align p 0 _) as [mz ez].
  destruct (binary_round_aux_bound false (Z.pos mz) ez loc_Exact ltac:(lia))
    as (m2 & e2 & H0 & _ & _ & Heq).
  rewrite Heq in *.
  destruct m2 as [| q | q]; try lia.
  - cbn in Ht. injection Ht. lia.
  - destruct (e2 <=? emax - prec); [eauto | discriminate].
Qed.

(** X2. At a sample rate of zero a non-empty frame cannot be resampled: the
    length is infinite and the array constructor throws. *)
Theorem createPcmBlob_rate_zero buffer s :
  buffer <> [] ->
  Z.of_nat (List.length buffer) < 2 ^ 53 ->
  downsampleTo16k buffer (S754_zero s) = None
  /\ createPcmBlob buffer (S754_zero s) = None.
Proof.
  intros Hne Hlen.
  assert (H : downsampleTo16k buffer (S754_zero s) = None).
  { unfold downsampleTo16k, newLength, len.
    destruct (binary_normalize_pos_finite (Z.of_nat (List.length buffer)) false)
      as (m & e & Hm).
    { split; trivial. destruct buffer; [congruence | cbn; lia]. }
    fold (ofZ (Z.of_nat (List.length buffer))) in Hm. rewrite Hm. reflexivity. }
  split; [exact H |]. unfold createPcmBlob, pcmBytes. now rewrite H.
Qed.

Lemma createPcmBlob_rate_zero_witness :
  downsampleTo16k [zero; plusOne] zero = None
  /\ createPcmBlob [zero; plusOne] zero = None.
Proof.
  apply (createPcmBlob_rate_zero [zero; plusOne] false);
    [discriminate | vm_compute; reflexivity].
Defined.

Lemma b64digit_value k :
  0 <= k < 64 -> b64value (b64digit k) = Some k /\ isPad (b64digit k) = false.
Proof.
  intros Hk.
  assert (H : forallb (fun i =>
              match b64value (b64digit (Z.of_nat i)) with
              | Some v => (v =? Z.of_nat i) && negb (isPad (b64digit (Z.of_nat i)))
              | None => false
              end) (seq 0 64) = true) by (vm_compute; reflexivity).
  rewrite forallb_forall in H.
  specialize (H (Z.to_nat k)). rewrite Z2Nat.id in H by lia.
  assert (Hin : In (Z.to_nat k) (seq 0 64)) by (apply in_seq; lia).
  specialize (H Hin).
  destruct (b64value (b64digit k)) as [v |]; [| discriminate].
  apply andb_true_iff in H. destruct H as [Hv Hp].
  apply Z.eqb_eq in Hv. apply negb_true_iff in Hp. now subst.
Qed.

Lemma base64_group a b c :
  isByte a -> isByte b -> isByte c ->
  (0 <= a / 4 < 64 /\ 0 <= a mod 4 * 16 + b / 16 < 64
   /\ 0 <= b mod 16 * 4 + c / 64 < 64 /\ 0 <= c mod 64 < 64)
  /\ a / 4 * 4 + (a mod 4 * 16 + b / 16) / 16 = a
  /\ (a mod 4 * 16 + b / 16) mod 16 * 16 + (b mod 16 * 4 + c / 64) / 4 = b
  /\ (b mod 16 * 4 + c / 64) mod 4 * 64 + c mod 64 = c.
Proof.
  unfold isByte. intros Ha Hb Hc.
  repeat split; Z.div_mod_to_equations; lia.
Qed.

Lemma base64_roundtrip_upto n : forall bytes,
  (List.length bytes <= n)%nat ->
  Forall isByte bytes ->
  base64Decode (base64EncodeUint8Array bytes) = Some bytes.
Proof.
  induction n as [| n IH]; intros bytes Hlen Hb.
  - destruct bytes; [reflexivity | cbn in Hlen; lia].
  - destruct bytes as [| a [| b [| c rest]]]; [reflexivity | | |].
    + inversion Hb as [| ? ? Ha _]; subst.
      destruct (base64_group a 0 0 Ha ltac:(unfold isByte; lia) ltac:(unfold isByte; lia))
        as ((H1 & H2 & _) & E1 & _).
      rewrite Z.add_0_r in *.
      cbn [base64EncodeUint8Array base64Decode].
      destruct (b64digit_value _ H1) as [-> _].
      destruct (b64digit_value _ H2) as [-> _].
      change (isPad "=") with true. cbn [andb isEmptyString].
      do 2 f_equal. Z.div_mod_to_equations; lia.
    + inversion Hb as [| ? ? Ha Hb']; subst.
      inversion Hb' as [| ? ? Hb0 _]; subst.
      destruct (base64_group a b 0 Ha Hb0 ltac:(unfold isByte; lia))
        as ((H1 & H2 & H3 & _) & E1 & E2 & _).
      rewrite Z.add_0_r in *.
      cbn [base64EncodeUint8Array base64Decode].
      destruct (b64digit_value _ H1) as [-> _].
      destruct (b64digit_value _ H2) as [-> _].
      destruct (b64digit_value _ H3) as [-> ->].
      change (isPad "=") with true. cbn [isEmptyString].
      rewrite E1, E2. reflexivity.
    + inversion Hb as [| ? ? Ha Hb']; subst.
      inversion Hb' as [| ? ? Hb0 Hb'']; subst.
      inversion Hb'' as [| ? ? Hc Hrest]; subst.
      destruct (base64_group a b c Ha Hb0 Hc)
        as ((H1 & H2 & H3 & H4) & E1 & E2 & E3).
      cbn [base64EncodeUint8Array base64Decode].
      destruct (b64digit_value _ H1) as [-> _].
      destruct (b64digit_value _ H2) as [-> _].
      destruct (b64digit_value _ H3) as [-> ->].
      destruct (b64digit_value _ H4) as [-> ->].
      rewrite IH by (trivial; cbn in Hlen; lia).
      rewrite E1, E2, E3. reflexivity.
Qed.

Lemma base64_length_upto n : forall bytes,
  (List.length bytes <= n)%nat ->
  Z.of_nat (String.length (base64EncodeUint8Array bytes))
  = 4 * ((Z.of_nat (List.length bytes) + 2) / 3).
Proof.
  induction n as [| n IH]; intros bytes Hlen.
  - destruct bytes; [reflexivity | cbn in Hlen; lia].
  - destruct bytes as [| a [| b [| c rest]]]; try reflexivity.
    cbn [base64EncodeUint8Array String.length List.length].
    rewrite !Nat2Z.inj_succ, IH by (cbn in Hlen; lia).
    Z.div_mod_to_equations; lia.
Qed.

(** X3. base64: the text has four characters for every three bytes (rounded
    up), and standard decoding gives the bytes back, so distinct byte
    sequences never share a payload. *)
Theorem base64EncodeUint8Array_roundtrip bytes :
  Forall isByte bytes ->
  Z.of_nat (String.length (base64EncodeUint8Array bytes))
  = 4 * ((Z.of_nat (List.length bytes) + 2) / 3)
  /\ base64Decode (base64EncodeUint8Array bytes) = Some bytes
  /\ (forall bytes', Forall isByte bytes' ->
        base64EncodeUint8Array bytes' = base64EncodeUint8Array bytes ->
        bytes' = bytes).
Proof.
  intros Hb.
  split; [apply (base64_length_upto (List.length bytes)); lia |].
  split; [apply (base64_roundtrip_upto (List.length bytes)); trivial |].
  intros bytes' Hb' Heq.
  assert (H : Some bytes' = Some bytes); [| now injection H].
  rewrite <- (base64_roundtrip_upto (List.length bytes') bytes') by trivial.
  rewrite Heq. apply (base64_roundtrip_upto (List.length bytes)); trivial.
Qed.

Lemma base64EncodeUint8Array_roundtrip_witness :
  base64Decode (base64EncodeUint8Array [255; 127; 0; 128]) = Some [255; 127; 0; 128].
Proof.
  apply (base64EncodeUint8Array_roundtrip [255; 127; 0; 128]).
  repeat constructor; unfold isByte; lia.
Defined.

Lemma bytesOfInt16_bytes v : Forall isByte (bytesOfInt16 v).
Proof.
  unfold bytesOfInt16, isByte.
  repeat constructor; Z.div_mod_to_equations; lia.
Qed.

Lemma int16Bytes_bytes a : Forall isByte (int16Bytes a).
Proof.
  unfold int16Bytes. induction a as [| v a IH]; cbn [flat_map].
  - constructor.
  - apply Forall_app. split; [apply bytesOfInt16_bytes | exact IH].
Qed.

Lemma int16OfBytes_int16Bytes a :
  Forall (fun v => -32768 <= v <= 32767) a ->
  int16OfBytes (int16Bytes a) = Some a.
Proof.
  unfold int16Bytes. induction 1 as [| v a Hv _ IH]; [reflexivity |].
  cbn [flat_map bytesOfInt16 app int16OfBytes]. rewrite IH.
  do 2 f_equal.
  replace (v mod 65536 mod 256 + 256 * (v mod 65536 / 256)) with (v mod 65536)
    by (Z.div_mod_to_equations; lia).
  unfold wrap16. rewrite Z.mod_mod by lia.
  apply (wrap16_small v Hv).
Qed.

(** X4. What the payload carries: decoding the base64 text and reading the
    bytes as little-endian signed 16-bit integers gives exactly the
    converted samples of the resampled frame, two bytes each. *)
Theorem createPcmBlob_payload data rate blob :
  createPcmBlob data rate = Some blob ->
  mimeType blob = "audio/pcm;rate=16000"%string
  /\ exists downsampled bytes,
       downsampleTo16k data rate = Some downsampled
       /\ base64Decode (Audio.data blob) = Some bytes
       /\ List.length bytes = (2 * List.length downsampled)%nat
       /\ int16OfBytes bytes = Some (map pcm16 downsampled).
Proof.
  unfold createPcmBlob, pcmBytes.
  destruct (downsampleTo16k data rate) as [ds |]; [| discriminate].
  intros [= <-]. split; [reflexivity |].
  exists ds, (int16Bytes (pcmInt16 ds)). cbn [Audio.data].
  split; [reflexivity |].
  split; [apply (base64_roundtrip_upto (List.length (int16Bytes (pcmInt16 ds)))),
            int16Bytes_bytes; lia |].
  split; [unfold pcmInt16; now rewrite int16Bytes_length, length_map |].
  apply int16OfBytes_int16Bytes.
  unfold pcmInt16. apply Forall_map, Forall_forall.
  intros v _. apply wrap16_or_zero_range.
Qed.

Lemma createPcmBlob_payload_witness :
  exists blob,
    createPcmBlob [plusOne; minusOne; zero] (ofZ 16000) = Some blob
    /\ exists downsampled bytes,
         downsampleTo16k [plusOne; minusOne; zero] (ofZ 16000) = Some downsampled
         /\ base64Decode (Audio.data blob) = Some bytes
         /\ List.length bytes = (2 * List.length downsampled)%nat
         /\ int16OfBytes bytes = Some (map pcm16 downsampled).
Proof.
  eexists. split; [reflexivity |].
  eapply (createPcmBlob_payload [plusOne; minusOne; zero] (ofZ 16000)).
  reflexivity.
Defined.

Lemma orZero_silent buffer idx :
  Forall (fun v => truthy v = false) buffer ->
  orZero (element buffer idx) = zero.
Proof.
  intros Hs. unfold element.
  destruct (isInteger idx); [| reflexivity].
  destruct (truncZ idx) as [z |]; [| reflexivity].
  destruct (0 <=? z); [| reflexivity].
  destruct (nth_error buffer (Z.to_nat z)) as [x |] eqn:Hx; [| reflexivity].
  apply nth_error_In in Hx. rewrite Forall_forall in Hs.
  cbn [orZero]. now rewrite (Hs x Hx).
Qed.

Lemma pcm16_mix_of_zeros a b :
  pcm16 (fround (add (mul zero a) (mul zero b))) = 0.
Proof.
  destruct a as [[|] | [|] | | [|] ma ea], b as [[|] | [|] | | [|] mb eb];
    reflexivity.
Qed.

(** X5. Silence stays silence: a frame whose samples are all zero (or NaN) is
    encoded, at any rate at which it can be resampled, to samples that are
    all 0. *)
Theorem createPcmBlob_silence data rate downsampled :
  Forall (fun v => truthy v = false) data ->
  downsampleTo16k data rate = Some downsampled ->
  Forall (fun z => z = 0) (pcmInt16 downsampled).
Proof.
  intros Hs. unfold downsampleTo16k, pcmInt16.
  destruct (strictEq rate (ofZ 16000)).
  - intros [= <-]. apply Forall_map.
    eapply Forall_impl; [| exact Hs]. cbv beta.
    intros [s | s | | s m e] H; try discriminate; reflexivity.
  - destruct (ToIndex (newLength data rate)) as [n |]; [| discriminate].
    intros [= <-]. rewrite map_map. apply Forall_map, Forall_forall.
    intros i _. unfold interpolate.
    rewrite !orZero_silent by trivial. apply pcm16_mix_of_zeros.
Qed.

Lemma createPcmBlob_silence_witness :
  exists downsampled,
    downsampleTo16k [zero; S754_zero true; zero] (ofZ 48000) = Some downsampled
    /\ Forall (fun z => z = 0) (pcmInt16 downsampled).
Proof.
  destruct (downsampleTo16k [zero; S754_zero true; zero] (ofZ 48000))
    as [ds |] eqn:H; [| vm_compute in H; discriminate].
  exists ds. split; [reflexivity |].
  apply (createPcmBlob_silence [zero; S754_zero true; zero] (ofZ 48000) ds);
    [repeat constructor | exact H].
Defined.

(** X6. Clamping twice is clamping once, so a clamped sample is converted to
    the same integer as the sample itself. *)
Theorem clamp_idempotent v :
  clamp (clamp v) = clamp v /\ pcm16 (clamp v) = pcm16 v.
Proof.
  assert (H : clamp (clamp v) = clamp v).
  { destruct v as [s | [|] | | [|] m e]; try reflexivity.
    - rewrite clamp_negative.
      destruct (compareWithOne m e) eqn:Hc; try reflexivity.
      now rewrite clamp_negative, Hc.
    - rewrite clamp_positive.
      destruct (compareWithOne m e) eqn:Hc; try reflexivity.
      now rewrite clamp_positive, Hc. }
  split; [exact H |]. unfold pcm16. now rewrite H.
Qed.

End EncoderEdges.

(** ** The colour palette *)

Section Palette.
Import JS Audio.

(** [random * 8] for a canonical [0 < random < 1] is computed exactly. *)
Lemma mul_eight m e :
  valid (S754_finite false m e) = true ->
  compareWithOne m e = Lt ->
  exists t e',
    mul (S754_finite false m e) (ofZ 8) = S754_finite false t e'
    /\ e' < 0 /\ Z.pos t < 8 * 2 ^ (- e').
Proof.
  intros Hv Hc.
  pose proof (valid_mantissa false m e Hv) as Hm.
  pose proof (digits2_bounds m) as [Hlo Hhi].
  assert (Hcan : Z.max (Z.pos (digits2_pos m) + e - 53) (-1074) = e).
  { unfold valid, valid_binary, bounded, canonical_mantissa in Hv.
    apply andb_true_iff in Hv. destruct Hv as [Hv _].
    apply Z.eqb_eq in Hv. now rewrite fexp_eq in Hv. }
  assert (He : e <= -53).
  { unfold compareWithOne in Hc.
    destruct (Z.compare_spec e (-52)) as [He | He | He]; try discriminate; [| lia].
    exfalso. rewrite Pos.compare_cont_spec, Pos2Z.inj_compare in Hc.
    destruct (Z.compare_spec (Z.pos m) 4503599627370496) as [H | H | H];
      cbn [Pos.switch_Eq] in Hc; try discriminate.
    assert (Hd : Z.pos (digits2_pos m) <= 52).
    { destruct (Z.leb_spec (Z.pos (digits2_pos m)) 52); trivial.
      assert (2 ^ 52 <= 2 ^ (Z.pos (digits2_pos m) - 1))
        by (apply Z.pow_le_mono_r; lia).
      change (2 ^ 52) with 4503599627370496 in *. lia. }
    lia. }
  change (ofZ 8) with (S754_finite false 4503599627370496 (-49)).
  unfold mul, SFmul. cbn [xorb].
  set (n1 := Z.max (Z.pos (digits2_pos m) - 1) 49).
  assert (Hn1 : 49 <= n1 <= 52).
  { unfold n1.
    assert (Z.pos (digits2_pos m) <= 53); [| lia].
    destruct (Z.leb_spec (Z.pos (digits2_pos m)) 53); trivial.
    assert (2 ^ 53 <= 2 ^ (Z.pos (digits2_pos m) - 1))
      by (apply Z.pow_le_mono_r; lia).
    lia. }
  assert (Hp : 0 < 2 ^ (52 - n1)) by (apply Z.pow_pos_nonneg; lia).
  assert (Hsplit : Z.pos (m * 4503599627370496)
                   = Z.pos (Z.to_pos (Z.pos m * 2 ^ (52 - n1))) * 2 ^ n1).
  { rewrite Z2Pos.id by lia. rewrite Pos2Z.inj_mul.
    change (Z.pos 4503599627370496) with (2 ^ 52).
    rewrite <- Z.mul_assoc, <- Z.pow_add_r by lia.
    do 2 f_equal. lia. }
  exists (Z.to_pos (Z.pos m * 2 ^ (52 - n1))), (e + -49 + n1).
  rewrite Hsplit.
  assert (Hdig : Zdigits2 (Z.pos (Z.to_pos (Z.pos m * 2 ^ (52 - n1))) * 2 ^ n1)
                 = Z.pos (digits2_pos m) + 52).
  { rewrite <- Hsplit, Pos2Z.inj_mul.
    change (Z.pos 4503599627370496) with (2 ^ 52).
    rewrite Zdigits2_log2 by lia.
    rewrite Z.log2_mul_pow2, digits2_log2 by lia. lia. }
  split; [| split].
  - apply binary_round_aux_shift; try lia.
    + rewrite Hdig, fexp_eq. unfold n1. lia.
    + unfold emax, prec. lia.
  - lia.
  - rewrite Z2Pos.id by lia.
    assert (Hx : 2 ^ (- (e + -49 + n1)) = 2 ^ (52 - n1) * 2 ^ (- e - 3)).
    { rewrite <- Z.pow_add_r by lia. f_equal. lia. }
    rewrite Hx.
    assert (Hy : 2 ^ 53 <= 8 * 2 ^ (- e - 3)).
    { change 8 with (2 ^ 3). rewrite <- Z.pow_add_r by lia.
      apply Z.pow_le_mono_r; lia. }
    nia.
Qed.

(** X7. [getRandomColor] always returns a colour of the palette: for every
    value [0 <= random < 1] that [Math.random()] can return, the index
    [Math.floor(random * 8)] is one of 0 to 7. *)
Theorem getRandomColor_in_palette random :
  valid random = true ->
  le zero random = true ->
  lt random (ofZ 1) = true ->
  exists c, getRandomColor random = Some c /\ In c COLORS.
Proof.
  intros Hv Hlo Hhi. unfold getRandomColor.
  change (ofZ (Z.of_nat (List.length COLORS))) with (ofZ 8).
  destruct random as [s | s | | [|] m e]; try discriminate.
  - exists "text-pink-500"%string. split; [destruct s; reflexivity | now left].
  - destruct s; discriminate.
  - change (ofZ 1) with plusOne in Hhi.
    unfold lt, SFltb in Hhi. rewrite compare_plusOne in Hhi.
    destruct (compareWithOne m e) eqn:Hc; try discriminate.
    destruct (mul_eight m e Hv Hc) as (t & e' & -> & He' & Ht).
    unfold Math_floor. cbn [floorZ sign_of signed].
    replace (0 <=? e') with false by (symmetry; apply Z.leb_gt; lia).
    set (k := Z.pos t / 2 ^ (- e')).
    assert (Hp : 0 < 2 ^ (- e')) by (apply Z.pow_pos_nonneg; lia).
    assert (Hk : 0 <= k < 8).
    { unfold k. split; [apply Z.div_pos; lia |].
      apply Z.div_lt_upper_bound; lia. }
    assert (Hcases : k = 0 \/ k = 1 \/ k = 2 \/ k = 3
                     \/ k = 4 \/ k = 5 \/ k = 6 \/ k = 7) by lia.
    clearbody k.
    destruct Hcases as [-> | [-> | [-> | [-> | [-> | [-> | [-> | ->]]]]]]];
      eexists; (split; [reflexivity | cbn; tauto]).
Qed.

Lemma getRandomColor_in_palette_witness :
  exists c,
    getRandomColor (S754_finite false 8106479329266893 (-53)) = Some c
    /\ In c COLORS.
Proof.
  apply (getRandomColor_in_palette (S754_finite false 8106479329266893 (-53)));
    reflexivity.
Defined.

End Palette.

(** ** Keyword spotter: occurrences and letter case *)

Section SpotterFacts.
Import Spotter.

Lemma matchesPrefix_firstn alt : forall input,
  matchesPrefix alt input = true ->
  (List.length alt <= List.length input)%nat
  /\ map canonicalize (firstn (List.length alt) input) = map canonicalize alt.
Proof.
  induction alt as [| a alt IH]; intros input H; cbn in *.
  - split; [lia | reflexivity].
  - destruct input as [| c input]; [discriminate |].
    apply andb_true_iff in H. destruct H as [Hc H].
    apply Z.eqb_eq in Hc. destruct (IH input H) as [Hl Hm].
    cbn. split; [lia |]. now rewrite Hm, Hc.
Qed.

Lemma firstAlternative_some input alts n :
  firstAlternative input alts = Some n ->
  exists alt, In alt alts /\ n = List.length alt
              /\ matchesPrefix alt input = true.
Proof.
  induction alts as [| alt alts IH]; cbn; [discriminate |].
  unfold tryAlternative at 1.
  destruct (matchesPrefix alt input) eqn:Hm; cbn [andb].
  - destruct (wordBoundary _ _).
    + intros [= <-]. exists alt. auto.
    + intros H. destruct (IH H) as (alt' & Hin & Hn & Hp). exists alt'. auto.
  - intros H. destruct (IH H) as (alt' & Hin & Hn & Hp). exists alt'. auto.
Qed.

Lemma alternatives_length alt :
  In alt alternatives -> (2 <= List.length alt)%nat.
Proof.
  intros H. cbn in H.
  repeat (destruct H as [<- | H]; [cbn; lia |]). destruct H.
Qed.

(** The matches of a scan: each is an occurrence of a variant, and together
    with the code units still to skip they fit into the text. *)
Lemma scan_matches text : forall before skip,
  Forall (fun m => exists alt, In alt alternatives
                     /\ map canonicalize m = map canonicalize alt)
         (scan before text skip)
  /\ (List.length (List.concat (scan before text skip)) <= List.length text - skip)%nat.
Proof.
  induction text as [| c rest IH]; intros before skip; cbn [scan].
  - split; [constructor | cbn; lia].
  - destruct skip as [| k].
    + destruct (matchHere before (c :: rest)) as [n |] eqn:Hm.
      * unfold matchHere in Hm.
        destruct (wordBoundary _ _); [| discriminate].
        destruct (firstAlternative_some _ _ _ Hm) as (alt & Hin & -> & Hp).
        destruct (matchesPrefix_firstn _ _ Hp) as [Hl Hc].
        pose proof (alternatives_length alt Hin) as H2.
        destruct (IH (Some c) (List.length alt - 1)%nat) as [IH1 IH2].
        split.
        -- constructor; [exists alt; auto | exact IH1].
        -- cbn [List.concat]. rewrite length_app, length_firstn.
           cbn [List.length] in *. lia.
      * destruct (IH (Some c) 0%nat) as [IH1 IH2].
        split; [exact IH1 | cbn [List.length]; lia].
    + destruct (IH (Some c) k) as [IH1 IH2].
      split; [exact IH1 | cbn [List.length]; lia].
Qed.

Lemma concat_length_lower (ms : list jsString) :
  Forall (fun m => (2 <= List.length m)%nat) ms ->
  (2 * List.length ms <= List.length (List.concat ms))%nat.
Proof.
  induction 1 as [| m ms Hm _ IH]; cbn [List.concat List.length]; [lia |].
  rewrite length_app. lia.
Qed.

(** X8. Every counted occurrence is one of the eight variants up to letter
    case, occurrences do not overlap, and so a transcript of [n] code units
    yields at most [n / 2] of them. *)
Theorem matchCount_bound text :
  0 <= matchCount text
  /\ 2 * matchCount text <= Z.of_nat (List.length text)
  /\ (forall ms, matchAll text = Some ms ->
        ms <> []
        /\ Forall (fun m => exists alt, In alt alternatives
                     /\ map canonicalize m = map canonicalize alt) ms
        /\ (List.length (List.concat ms) <= List.length text)%nat).
Proof.
  destruct (scan_matches text None 0%nat) as [Hvar Hlen].
  assert (Hcount : (2 * List.length (scan None text 0) <= List.length text)%nat).
  { etransitivity; [apply concat_length_lower | lia].
    eapply Forall_impl; [| exact Hvar]. cbv beta.
    intros m (alt & Hin & Hm).
    apply alternatives_length in Hin.
    apply (f_equal (@List.length Z)) in Hm. rewrite !length_map in Hm. lia. }
  unfold matchCount, matchAll.
  destruct (scan None text 0) as [| m ms] eqn:Hs.
  - split; [lia | split; [lia | intros ms H; discriminate]].
  - cbn [List.length] in *.
    split; [lia | split; [lia |]].
    intros ms' [= <-].
    split; [discriminate | split; [exact Hvar | lia]].
Qed.

Lemma canonicalize_cases c :
  (97 <= c <= 122 /\ canonicalize c = c - 32)
  \/ (224 <= c <= 254 /\ c <> 247 /\ canonicalize c = c - 32)
  \/ ((c < 97 \/ 122 < c) /\ (c < 224 \/ 254 < c \/ c = 247)
      /\ canonicalize c = c).
Proof.
  unfold canonicalize.
  destruct (Z.leb_spec 97 c), (Z.leb_spec c 122), (Z.leb_spec 224 c),
    (Z.leb_spec c 254), (Z.eqb_spec c 247); cbn [andb negb]; lia.
Qed.

Lemma isWordChar_spec c :
  isWordChar c = true
  <-> (48 <= c <= 57 \/ 65 <= c <= 90 \/ c = 95 \/ 97 <= c <= 122).
Proof.
  unfold isWordChar.
  rewrite !orb_true_iff, !andb_true_iff, !Z.leb_le, Z.eqb_eq. tauto.
Qed.

Lemma canonicalize_idem c : canonicalize (canonicalize c) = canonicalize c.
Proof.
  destruct (canonicalize_cases c) as [(H & E) | [(H & Hn & E) | (H1 & H2 & E)]];
    rewrite E; trivial;
    destruct (canonicalize_cases (c - 32))
      as [(H' & E') | [(H' & Hn' & E') | (H1' & H2' & E')]]; lia.
Qed.

Lemma isWordChar_canonicalize c : isWordChar (canonicalize c) = isWordChar c.
Proof.
  apply eq_true_iff_eq. rewrite !isWordChar_spec.
  destruct (canonicalize_cases c) as [(H & E) | [(H & Hn & E) | (H1 & H2 & E)]];
    rewrite E; lia.
Qed.

Lemma upperOne_cases c :
  (c = 181 /\ upperOne c = 924) \/ (c = 255 /\ upperOne c = 376)
  \/ (c <> 181 /\ c <> 255 /\ upperOne c = canonicalize c).
Proof.
  unfold upperOne, upperUnit, canonicalize.
  destruct (Z.eqb_spec c 223) as [-> | H223]; [right; right; cbn; lia |].
  destruct (Z.eqb_spec c 181) as [-> | H181]; [left; auto |].
  destruct (Z.eqb_spec c 255) as [-> | H255]; [right; left; auto |].
  right. right. split; [exact H181 |]. split; [exact H255 |].
  destruct ((97 <=? c) && (c <=? 122)); cbn [orb]; [reflexivity |].
  destruct ((224 <=? c) && (c <=? 254) && negb (c =? 247)); reflexivity.
Qed.

Lemma isWordChar_upperOne c : isWordChar (upperOne c) = isWordChar c.
Proof.
  destruct (upperOne_cases c) as [[-> ->] | [[-> ->] | (_ & _ & ->)]];
    [reflexivity | reflexivity | apply isWordChar_canonicalize].
Qed.

(** A pattern character matches a code unit exactly when it matches the
    upper-case form of the unit. *)
Lemma plain_match a c :
  plain a = true ->
  (canonicalize a =? canonicalize (upperOne c))
  = (canonicalize a =? canonicalize c).
Proof.
  unfold plain. rewrite !andb_true_iff, !negb_true_iff, !Z.eqb_neq.
  intros [[[H1 H2] H3] H4].
  destruct (upperOne_cases c) as [[-> ->] | [[-> ->] | (_ & _ & ->)]].
  - change (canonicalize 924) with 924. change (canonicalize 181) with 181.
    destruct (Z.eqb_spec (canonicalize a) 924), (Z.eqb_spec (canonicalize a) 181);
      trivial; lia.
  - change (canonicalize 376) with 376. change (canonicalize 255) with 255.
    destruct (Z.eqb_spec (canonicalize a) 376), (Z.eqb_spec (canonicalize a) 255);
      trivial; lia.
  - now rewrite canonicalize_idem.
Qed.

Lemma matchesPrefix_upper alt :
  forallb plain alt = true ->
  forall input,
    matchesPrefix alt (map upperOne input) = matchesPrefix alt input.
Proof.
  induction alt as [| a alt IH]; intros Hp input; [reflexivity |].
  cbn [forallb] in Hp. apply andb_true_iff in Hp as [Ha Hp].
  destruct input as [| c input]; [reflexivity |].
  cbn [map matchesPrefix]. now rewrite plain_match, IH.
Qed.

Lemma isWordOpt_upper input n :
  isWordOpt (nth_error (map upperOne input) n) = isWordOpt (nth_error input n).
Proof.
  rewrite nth_error_map.
  destruct (nth_error input n); cbn; [apply isWordChar_upperOne | trivial].
Qed.

Lemma firstAlternative_upper input alts :
  forallb (forallb plain) alts = true ->
  firstAlternative (map upperOne input) alts = firstAlternative input alts.
Proof.
  induction alts as [| alt alts IH]; intros Hp; cbn [firstAlternative]; trivial.
  cbn [forallb] in Hp. apply andb_true_iff in Hp as [Ha Hp].
  unfold tryAlternative, wordBoundary.
  now rewrite matchesPrefix_upper, !isWordOpt_upper, IH.
Qed.

Lemma alternatives_plain : forallb (forallb plain) alternatives = true.
Proof. reflexivity. Qed.

Lemma scan_upper text : forall before skip,
  scan (option_map upperOne before) (map upperOne text) skip
  = map (map upperOne) (scan before text skip).
Proof.
  induction text as [| c rest IH]; intros before skip; [reflexivity |].
  cbn [map scan]. destruct skip as [| k].
  - assert (Hm : matchHere (option_map upperOne before)
                   (upperOne c :: map upperOne rest)
                 = matchHere before (c :: rest)).
    { unfold matchHere, wordBoundary.
      change (upperOne c :: map upperOne rest) with (map upperOne (c :: rest)).
      rewrite firstAlternative_upper, isWordOpt_upper by apply alternatives_plain.
      destruct before; cbn [option_map isWordOpt];
        now rewrite ?isWordChar_upperOne. }
    rewrite Hm. destruct (matchHere before (c :: rest)) as [n |].
    + cbn [map]. rewrite <- (IH (Some c)). f_equal.
      change (upperOne c :: map upperOne rest) with (map upperOne (c :: rest)).
      now rewrite firstn_map.
    + apply (IH (Some c)).
  - apply (IH (Some c)).
Qed.

(** Without a sharp s, upper-casing replaces code unit by code unit. *)
Lemma toUpperCase_map text :
  Forall (fun c => c <> 223) text -> toUpperCase text = map upperOne text.
Proof.
  induction 1 as [| c text Hc _ IH]; [reflexivity |].
  unfold toUpperCase in *. cbn [flat_map map]. rewrite IH.
  unfold upperOne, upperUnit.
  destruct (Z.eqb_spec c 223); [contradiction |].
  destruct (c =? 181); [reflexivity |]. destruct (c =? 255); [reflexivity |].
  destruct (((97 <=? c) && (c <=? 122))
            || ((224 <=? c) && (c <=? 254) && negb (c =? 247))); reflexivity.
Qed.

(** X9. The spotter ignores letter case: a transcript of Latin-1
    characters without a sharp s has the same number of occurrences as its
    upper-case form ([toUpperCase]). *)
Theorem matchCount_toUpperCase text :
  Forall (fun c => 0 <= c < 256 /\ c <> 223) text ->
  matchCount (toUpperCase text) = matchCount text.
Proof.
  intros H.
  rewrite toUpperCase_map
    by (eapply Forall_impl; [| exact H]; cbv beta; tauto).
  unfold matchCount, matchAll.
  change (scan None (map upperOne text) 0)
    with (scan (option_map upperOne None) (map upperOne text) 0).
  rewrite scan_upper.
  destruct (scan None text 0) as [| m ms]; cbn [map]; [reflexivity |].
  cbn [List.length]. now rewrite length_map.
Qed.

Lemma matchCount_toUpperCase_witness :
  matchCount (toUpperCase (units "I said bo, then Bow and paul"))
  = matchCount (units "I said bo, then Bow and paul")
  /\ matchCount (units "I said bo, then Bow and paul") = 3.
Proof.
  split; [| reflexivity].
  apply (matchCount_toUpperCase (units "I said bo, then Bow and paul")).
  repeat constructor; try lia; try discriminate.
Defined.

(** With a sharp s the two counts differ: [bo] before a sharp s is an
    occurrence, and the upper-case form [BOSS] has none. *)
Lemma toUpperCase_sharp_s :
  matchCount boSharpS = 1
  /\ toUpperCase boSharpS = units "BOSS"
  /\ matchCount (toUpperCase boSharpS) = 0.
Proof. repeat split. Qed.

End SpotterFacts.

(** ** Order and magnitude of numbers *)

Section Comparison.
Import JS.

Lemma SFcompare_antisym x y :
  SFcompare y x = option_map CompOpp (SFcompare x y).
Proof.
  destruct x as [sx | sx | | sx mx ex], y as [sy | sy | | sy my ey];
    try reflexivity; try (destruct sx; reflexivity);
    try (destruct sy; reflexivity); try (destruct sx, sy; reflexivity).
  cbn [SFcompare option_map].
  destruct sx, sy; try reflexivity; f_equal;
    rewrite (Z.compare_antisym ex ey);
    destruct (ex ?= ey); cbn [CompOpp]; try reflexivity.
  - f_equal. symmetry. apply (Pos.compare_cont_antisym mx my Eq).
  - symmetry. apply (Pos.compare_cont_antisym mx my Eq).
Qed.

Lemma SFcompare_refl x : x <> S754_nan -> SFcompare x x = Some Eq.
Proof.
  destruct x as [sx | sx | | sx mx ex]; intros H; try reflexivity;
    try (destruct sx; reflexivity); try (elim H; reflexivity).
  cbn [SFcompare]. rewrite Z.compare_refl, Pos.compare_cont_refl.
  destruct sx; reflexivity.
Qed.

Lemma atLeast_not_nan p x : atLeast p x -> x <> S754_nan.
Proof. intros H ->. exact H. Qed.

Lemma atLeast_weaken p q x : p <= q -> atLeast q x -> atLeast p x.
Proof.
  intros Hpq. destruct x as [| [] | | [] m e]; cbn [atLeast]; trivial. lia.
Qed.

Lemma le_refl_atLeast p x : atLeast p x -> le x x = true.
Proof.
  intros H. unfold le, SFleb.
  now rewrite SFcompare_refl by (eapply atLeast_not_nan, H).
Qed.

(** The larger of two positive numbers is above both. *)
Lemma Math_max_positive p q x y :
  atLeast p x -> atLeast q y ->
  Math_max x y = (if SFltb x y then y else x).
Proof.
  destruct x as [| [] | | [] mx ex]; cbn [atLeast]; try contradiction;
    destruct y as [| [] | | [] my ey]; cbn [atLeast]; try contradiction;
    reflexivity.
Qed.


Lemma le_Math_max_right p q x y :
  atLeast p x -> atLeast q y -> le y (Math_max x y) = true.
Proof.
  intros Hx Hy. rewrite (Math_max_positive p q) by trivial.
  destruct (SFltb x y) eqn:E.
  - eapply le_refl_atLeast, Hy.
  - unfold le, SFleb. rewrite SFcompare_antisym. unfold SFltb in E.
    assert (Hn : SFcompare x y <> None).
    { destruct x as [| [] | | [] mx ex]; cbn [atLeast] in Hx; try contradiction;
        destruct y as [| [] | | [] my ey]; cbn [atLeast] in Hy;
        try contradiction; discriminate. }
    destruct (SFcompare x y) as [[] |]; trivial; try discriminate.
    elim Hn; reflexivity.
Qed.


(** Adding to a number that is at least [2^p]. *)
Lemma add_atLeast_l p x y :
  -1074 <= p -> atLeast p x -> nonneg y -> atLeast p (add x y).
Proof.
  intros Hp Hx Hy.
  destruct y as [sy | [] | | [] my ey]; cbn [nonneg] in Hy; try contradiction;
    destruct x as [sx | [] | | [] mx ex]; cbn [atLeast] in Hx;
    try contradiction; try exact I; try exact Hx.
  unfold add. cbn [SFadd cond_Zopp].
  set (ez := IntDef.Z.min ex ey).
  assert (Hez : ez = Z.min ex ey) by reflexivity.
  rewrite !shl_align_value by lia.
  assert (Hpx : 0 < 2 ^ (ex - ez)) by (apply Z.pow_pos_nonneg; lia).
  assert (Hpy : 0 < 2 ^ (ey - ez)) by (apply Z.pow_pos_nonneg; lia).
  assert (Hax : 0 < Z.pos mx * 2 ^ (ex - ez)) by (apply Z.mul_pos_pos; lia).
  assert (Hay : 0 < Z.pos my * 2 ^ (ey - ez)) by (apply Z.mul_pos_pos; lia).
  destruct (Z.pos mx * 2 ^ (ex - ez) + Z.pos my * 2 ^ (ey - ez))
    as [| S | S] eqn:HS; try lia.
  cbn [binary_normalize]. apply atLeast_round; trivial.
  assert (Hlog : Z.log2 (Z.pos mx * 2 ^ (ex - ez)) <= Z.log2 (Z.pos S))
    by (apply Z.log2_le_mono; lia).
  rewrite Z.log2_mul_pow2 in Hlog by lia. lia.
Qed.

(** The sum of two positive integers below 2^53 is at least [2^p] when
    the exact sum is, rounded or not. *)
Lemma add_int_atLeast p a b :
  0 <= p -> 0 < a < 2 ^ 53 -> 0 < b < 2 ^ 53 -> 2 ^ p <= a + b ->
  atLeast p (add (ofZ a) (ofZ b)).
Proof.
  intros Hp Ha Hb Hs.
  destruct a as [| va |]; try lia. destruct b as [| vb |]; try lia.
  rewrite !ofZ_pos by lia.
  pose proof (digits2_le_53 va ltac:(lia)) as Hda.
  pose proof (digits2_le_53 vb ltac:(lia)) as Hdb.
  unfold add, intRep. cbn [SFadd cond_Zopp].
  set (ea := Z.pos (digits2_pos va) - 53).
  set (eb := Z.pos (digits2_pos vb) - 53).
  set (ez := Z.min ea eb).
  change (IntDef.Z.min ea eb) with ez.
  rewrite !shl_align_value by (unfold ez; lia).
  unfold ea at 1, eb at 1.
  rewrite !intRep_value by (try lia; fold ea eb; unfold ez; lia).
  assert (Hpz : 0 < 2 ^ (- ez)) by (apply Z.pow_pos_nonneg; unfold ez, ea, eb; lia).
  rewrite <- Z.mul_add_distr_r.
  assert (Hpos : 0 < (Z.pos va + Z.pos vb) * 2 ^ (- ez))
    by (apply Z.mul_pos_pos; lia).
  destruct ((Z.pos va + Z.pos vb) * 2 ^ (- ez)) as [| S | S] eqn:HS; try lia.
  cbn [binary_normalize]. apply atLeast_round; [lia |].
  rewrite <- HS, Z.log2_mul_pow2 by (unfold ez, ea, eb; lia).
  assert (p <= Z.log2 (Z.pos va + Z.pos vb)) by (apply Z.log2_le_pow2; lia).
  lia.
Qed.

(** The same for a product. *)
Lemma mul_int_atLeast p a b :
  0 <= p -> 0 < a < 2 ^ 53 -> 0 < b < 2 ^ 53 -> 2 ^ p <= a * b ->
  atLeast p (mul (ofZ a) (ofZ b)).
Proof.
  intros Hp Ha Hb Hs.
  destruct a as [| va |]; try lia. destruct b as [| vb |]; try lia.
  pose proof (ofZ_valid (Z.pos va)) as Va.
  pose proof (ofZ_valid (Z.pos vb)) as Vb.
  rewrite !ofZ_pos in * by lia.
  destruct (intRep_normal va ltac:(lia)) as [Hma _].
  destruct (intRep_normal vb ltac:(lia)) as [Hmb _].
  pose proof (digits2_le_53 va ltac:(lia)) as Hda.
  pose proof (digits2_le_53 vb ltac:(lia)) as Hdb.
  unfold intRep in *.
  set (da := Z.pos (digits2_pos va)) in *.
  set (db := Z.pos (digits2_pos vb)) in *.
  set (ma := Z.to_pos (Z.pos va * 2 ^ (53 - da))) in *.
  set (mb := Z.to_pos (Z.pos vb * 2 ^ (53 - db))) in *.
  unfold mul. cbn [SFmul xorb].
  assert (Hlog : p <= Z.log2 (Z.pos (ma * mb)) + (da - 53 + (db - 53))).
  { rewrite Pos2Z.inj_mul, Hma, Hmb.
    replace (Z.pos va * 2 ^ (53 - da) * (Z.pos vb * 2 ^ (53 - db)))
      with (Z.pos va * Z.pos vb * 2 ^ (53 - da + (53 - db)))
      by (rewrite Z.pow_add_r by lia; ring).
    rewrite Z.log2_mul_pow2 by lia.
    assert (p <= Z.log2 (Z.pos va * Z.pos vb)) by (apply Z.log2_le_pow2; lia).
    lia. }
  destruct (binary_round_aux_atLeast false (Z.pos (ma * mb))
              (da - 53 + (db - 53)) loc_Exact p)
    as [-> | (m & e & -> & H)]; try lia; cbn [atLeast]; trivial.
  now apply mul_round_condition.
Qed.

Lemma ofZ_inj a b :
  0 <= a < 2 ^ 53 -> 0 <= b < 2 ^ 53 -> ofZ a = ofZ b -> a = b.
Proof.
  intros Ha Hb E.
  pose proof (binary_normalize_exact a false Ha) as H1.
  pose proof (binary_normalize_exact b false Hb) as H2.
  unfold ofZ in E. rewrite E in H1. congruence.
Qed.


End Comparison.

(** ** The component over time *)

Section Population.
Import JS BoVisualizer App.

(** [particleIdCounter.current++] on a counter that holds an integer. *)
Lemma increment c :
  0 <= c <= 2 ^ 53 -> add (ofZ c) (ofZ 1) = ofZ (nextId c).
Proof.
  intros Hc. unfold nextId.
  assert (H1 : 1 < 2 ^ 53) by reflexivity.
  destruct (Z.ltb_spec c (2 ^ 53)) as [Hlt | Hge].
  - destruct (Z.eq_dec c (2 ^ 53 - 1)) as [-> | Hne]; [reflexivity |].
    apply add_exact; lia.
  - replace c with (2 ^ 53) by lia. reflexivity.
Qed.

(** The loop of [triggerBo] appends its particles to the population and
    numbers them from the id counter, consecutively as long as the counter
    stays below 2^53. *)
Lemma spawn_loop draws l : forall ps counter,
  exists news counter',
    fold_left (spawnOne draws) l (ps, counter) = (ps ++ news, counter')
    /\ List.length news = List.length l
    /\ Forall (fun p => life p = ofZ 1 /\ text p = boText) news
    /\ forall c, counter = ofZ c -> 0 <= c <= 2 ^ 53 ->
         exists c', counter' = ofZ c'
           /\ c <= c' <= 2 ^ 53 /\ c' <= c + Z.of_nat (List.length l)
           /\ (c' < 2 ^ 53 ->
                 c' = c + Z.of_nat (List.length l)
                 /\ map id news
                    = map (fun k => ofZ (c + Z.of_nat k))
                          (seq 0 (List.length l))).
Proof.
  induction l as [| ij l IH]; intros ps counter.
  - exists [], counter. rewrite app_nil_r.
    repeat split; auto.
    intros c -> Hc. exists c. cbn [List.length Z.of_nat seq map].
    repeat split; try lia.
  - cbn [fold_left].
    change (spawnOne draws (ps, counter) ij)
      with (ps ++ [newParticle counter (draws (fst ij) (snd ij))],
            add counter (ofZ 1)).
    destruct (IH (ps ++ [newParticle counter (draws (fst ij) (snd ij))])
                 (add counter (ofZ 1)))
      as (news & counter' & Heq & Hlen & Hnew & Hids).
    exists (newParticle counter (draws (fst ij) (snd ij)) :: news), counter'.
    split; [rewrite Heq, <- app_assoc; reflexivity |].
    split; [cbn [List.length]; now rewrite Hlen |].
    split; [constructor; [split; reflexivity | exact Hnew] |].
    intros c -> Hc.
    assert (Hn : 0 <= nextId c <= 2 ^ 53)
      by (unfold nextId; destruct (Z.ltb_spec c (2 ^ 53)); lia).
    destruct (Hids (nextId c) (increment c Hc) Hn) as (c' & -> & Hb & Hub & Hsafe).
    exists c'. split; [reflexivity |].
    assert (Hnext : nextId c <= c + 1)
      by (unfold nextId; destruct (c <? 2 ^ 53); lia).
    assert (Hnext' : c <= nextId c)
      by (unfold nextId; destruct (c <? 2 ^ 53); lia).
    cbn [List.length]. rewrite Nat2Z.inj_succ.
    split; [lia |]. split; [lia |].
    intros Hc'. destruct (Hsafe Hc') as [E Hmap].
    assert (Hcn : nextId c = c + 1).
    { unfold nextId in *. destruct (Z.ltb_spec c (2 ^ 53)); lia. }
    split; [lia |].
    cbn [map seq id newParticle]. rewrite Z.add_0_r. f_equal.
    rewrite Hmap, <- seq_shift, map_map.
    apply map_ext. intros k. f_equal. rewrite Nat2Z.inj_succ. lia.
Qed.

(** The population and the id counter after a call of [triggerBo]. *)
Lemma triggerBo_population rendered count now draws st :
  exists news,
    particles (triggerBo rendered count now draws st) = particles st ++ news
    /\ List.length news
       = (iterations (particleCount rendered) * Z.to_nat count)%nat
    /\ Forall (fun p => life p = ofZ 1 /\ text p = boText) news
    /\ forall c, particleIdCounter st = ofZ c -> 0 <= c <= 2 ^ 53 ->
         exists c',
           particleIdCounter (triggerBo rendered count now draws st) = ofZ c'
           /\ c <= c' <= 2 ^ 53 /\ c' <= c + Z.of_nat (List.length news)
           /\ (c' < 2 ^ 53 ->
                 c' = c + Z.of_nat (List.length news)
                 /\ map id news
                    = map (fun k => ofZ (c + Z.of_nat k))
                          (seq 0 (List.length news))).
Proof.
  unfold triggerBo, explosion.
  destruct (spawn_loop draws (burstIndices rendered count)
              (particles st) (particleIdCounter st))
    as (news & counter' & -> & Hlen & Hnew & Hids).
  exists news. cbn [particles particleIdCounter].
  split; [reflexivity |].
  split; [now rewrite Hlen, burstIndices_length |].
  split; [exact Hnew |].
  rewrite Hlen. exact Hids.
Qed.

(** X10. A call of [triggerBo] keeps every particle already there, in
    place, and appends [count] times [5 + Math.min(combo, 10)] new ones
    (passes of the inner loop), each with life 1 and the text BÓ.  While
    the id counter stays below 2^53, their ids are the next values of the
    counter, which advances by their number. *)
Theorem triggerBo_appends rendered count now draws st :
  exists news,
    particles (triggerBo rendered count now draws st) = particles st ++ news
    /\ firstn (List.length (particles st))
         (particles (triggerBo rendered count now draws st)) = particles st
    /\ List.length news
       = (iterations (particleCount rendered) * Z.to_nat count)%nat
    /\ Forall (fun p => life p = ofZ 1 /\ text p = boText) news
    /\ forall c, particleIdCounter st = ofZ c -> 0 <= c ->
         c + Z.of_nat (List.length news) < 2 ^ 53 ->
         map id news
         = map (fun k => ofZ (c + Z.of_nat k)) (seq 0 (List.length news))
         /\ particleIdCounter (triggerBo rendered count now draws st)
            = ofZ (c + Z.of_nat (List.length news)).
Proof.
  destruct (triggerBo_population rendered count now draws st)
    as (news & Hp & Hlen & Hnew & Hids).
  exists news. split; [exact Hp |].
  split; [rewrite Hp, firstn_app, Nat.sub_diag, firstn_all; cbn; apply app_nil_r |].
  split; [exact Hlen |]. split; [exact Hnew |].
  intros c Hc H0 Hb.
  destruct (Hids c Hc ltac:(lia)) as (c' & -> & _ & Hub & Hsafe).
  destruct (Hsafe ltac:(lia)) as [-> Hmap]. auto.
Qed.

Lemma triggerBo_spawned_news rendered count now draws st news :
  particles (triggerBo rendered count now draws st) = particles st ++ news ->
  spawned st (triggerBo rendered count now draws st)
  = Z.of_nat (List.length news).
Proof.
  intros E. unfold spawned. rewrite E, length_app. lia.
Qed.

Lemma triggerBo_IdsFresh rendered count now draws st n :
  IdsFresh st n ->
  IdsFresh (triggerBo rendered count now draws st)
           (n + spawned st (triggerBo rendered count now draws st)).
Proof.
  intros (Hn & Hc & Hfresh).
  destruct (triggerBo_population rendered count now draws st)
    as (news & Hp & _ & _ & Hids).
  rewrite (triggerBo_spawned_news _ _ _ _ _ news Hp).
  set (len := Z.of_nat (List.length news)) in *.
  assert (Hlen : 0 <= len) by (unfold len; lia).
  assert (H53 : 0 < 2 ^ 53) by reflexivity.
  destruct (Hids (Z.min n (2 ^ 53)) Hc ltac:(lia))
    as (c' & Hc' & Hb' & Hub & Hsafe).
  assert (Ec' : c' = Z.min (n + len) (2 ^ 53)).
  { destruct (Z.lt_ge_cases c' (2 ^ 53)) as [Hlt | Hge]; [| lia].
    destruct (Hsafe Hlt) as [E _]. lia. }
  split; [lia |]. split; [now rewrite <- Ec' |].
  intros Hlt.
  destruct (Hsafe ltac:(lia)) as [E Hmap].
  rewrite Z.min_l in Hmap by lia.
  destruct (Hfresh ltac:(lia)) as [Hnd Hold].
  rewrite Hp.
  assert (Hnew : forall z, In z (map id news) ->
                   exists k, n <= k < n + len /\ z = ofZ k).
  { rewrite Hmap. intros z Hz. apply in_map_iff in Hz.
    destruct Hz as (k & <- & Hk). apply in_seq in Hk.
    exists (n + Z.of_nat k). split; [unfold len; lia | reflexivity]. }
  split.
  - rewrite map_app. apply NoDup_app; [exact Hnd | |].
    + rewrite Hmap. apply NoDup_map_NoDup_ForallPairs; [| apply seq_NoDup].
      intros a b Ha Hb0 Heq. apply in_seq in Ha, Hb0.
      apply ofZ_inj in Heq; unfold len in *; lia.
    + intros z Hin Hz. apply Hnew in Hz. destruct Hz as (k & Hk & ->).
      apply in_map_iff in Hin. destruct Hin as (p & Hid & Hin).
      rewrite Forall_forall in Hold. destruct (Hold p Hin) as (j & Hj & Ej).
      rewrite Ej in Hid. apply ofZ_inj in Hid; lia.
  - apply Forall_app. split.
    + eapply Forall_impl; [| exact Hold]. cbv beta.
      intros p (k & Hk & Ek). exists k. split; [lia | exact Ek].
    + apply Forall_forall. intros p Hin.
      destruct (Hnew (id p) (in_map id _ _ Hin)) as (k & Hk & Ek).
      exists k. split; [lia | exact Ek].
Qed.

(** What an event does to the cells: a reload, a change of the connection
    cells only, one call of [triggerBo], or one animation frame. *)
Lemma step_cells r ev :
  step r ev = mounted
  \/ (particles (cells (step r ev)) = particles (cells r)
      /\ particleIdCounter (cells (step r ev)) = particleIdCounter (cells r)
      /\ gameState (cells (step r ev)) = gameState (cells r))
  \/ (exists rendered count now draws,
        1 <= count /\ session r = Some rendered
        /\ cells (step r ev) = triggerBo rendered count now draws (cells r))
  \/ cells (step r ev) = setParticles updateParticles (cells r).
Proof.
  destruct ev as [ok | | t now draws | | | |]; cbn [step].
  - right. left. destruct (connectionState (cells r)); auto.
    destruct ok; auto.
  - right. left. auto.
  - destruct (session r) as [rendered |]; [| right; left; auto].
    cbn [cells]. unfold onmessage.
    destruct t as [[| c text] |]; try (right; left; now auto).
    destruct (Spotter.matchAll (c :: text)) as [ms |]; [| right; left; now auto].
    destruct (Nat.ltb_spec 0 (List.length ms)); [| right; left; now auto].
    right. right. left.
    exists rendered, (Z.of_nat (List.length ms)), now, draws.
    split; [lia | split; reflexivity].
  - right. left. auto.
  - right. left. auto.
  - destruct (connectionState (cells r)); auto.
    all: right; left; auto.
  - right. right. right. reflexivity.
Qed.

Lemma updateParticles_ids ps :
  map id (updateParticles ps) = map id (survivors ps).
Proof. rewrite updateParticles_survivors, map_map. reflexivity. Qed.

Lemma mounted_IdsFresh : IdsFresh (cells mounted) 0.
Proof.
  split; [lia |]. split; [reflexivity |]. intros _. split; constructor.
Qed.

Lemma spawned_same st : spawned st st = 0.
Proof. unfold spawned. lia. Qed.

Lemma stepIssued_IdsFresh r n ev :
  IdsFresh (cells r) n ->
  IdsFresh (cells (fst (stepIssued (r, n) ev))) (snd (stepIssued (r, n) ev)).
Proof.
  intros Hf. unfold stepIssued. cbn [fst snd].
  destruct ev as [ok | | t now draws | | | |]; cbn [step].
  - destruct (connectionState (cells r)); trivial. destruct ok; exact Hf.
  - exact Hf.
  - destruct (session r) as [rendered |];
      [| rewrite spawned_same, Z.add_0_r; exact Hf].
    cbn [cells]. unfold onmessage.
    destruct t as [[| c text] |];
      try (rewrite spawned_same, Z.add_0_r; exact Hf).
    destruct (Spotter.matchAll (c :: text)) as [ms |];
      [| rewrite spawned_same, Z.add_0_r; exact Hf].
    destruct (0 <? List.length ms)%nat;
      [| rewrite spawned_same, Z.add_0_r; exact Hf].
    now apply triggerBo_IdsFresh.
  - exact Hf.
  - exact Hf.
  - destruct (connectionState (cells r)); trivial. apply mounted_IdsFresh.
  - destruct Hf as (Hn & Hc & Hfresh). unfold IdsFresh.
    cbn [cells setParticles particles particleIdCounter].
    split; [exact Hn |]. split; [exact Hc |].
    intros Hlt. destruct (Hfresh Hlt) as [Hnd Hold]. split.
    + rewrite updateParticles_ids. now apply sublist_filter_ids.
    + rewrite Forall_forall in *. intros q Hq.
      rewrite updateParticles_survivors in Hq.
      apply in_map_iff in Hq. destruct Hq as (p & <- & Hp).
      apply filter_In in Hp. apply (Hold p), Hp.
Qed.

Lemma issued_run evs : forall acc,
  IdsFresh (cells (fst acc)) (snd acc) ->
  fst (fold_left stepIssued evs acc) = run (fst acc) evs
  /\ IdsFresh (cells (fst (fold_left stepIssued evs acc)))
              (snd (fold_left stepIssued evs acc)).
Proof.
  induction evs as [| ev evs IH]; intros [r n] Hf; cbn [fold_left run].
  - split; [reflexivity | exact Hf].
  - destruct (IH (stepIssued (r, n) ev) (stepIssued_IdsFresh r n ev Hf))
      as [E H].
    split; [rewrite E; reflexivity | exact H].
Qed.

(** X11. No two particles share an id as long as fewer than 2^53 ids have
    been handed out since the page was loaded.  In every state the
    component can reach, with [n] the number of particles created since
    the load, the id counter holds [n], or 2^53 where it stops, and while
    [n < 2^53] the ids of the population are pairwise distinct integers
    below [n]. *)
Theorem particle_ids_unique evs :
  let st := cells (run mounted evs) in
  let n := issued evs in
  0 <= n
  /\ particleIdCounter st = ofZ (Z.min n (2 ^ 53))
  /\ (n < 2 ^ 53 ->
        NoDup (map id (particles st))
        /\ Forall (fun p => exists k, 0 <= k < n /\ id p = ofZ k)
                  (particles st)).
Proof.
  intros st n. subst st n. unfold issued.
  destruct (issued_run evs (mounted, 0) mounted_IdsFresh) as [E H].
  cbn [fst] in E. rewrite <- E. exact H.
Qed.

Lemma step_AllAlive r ev :
  AllAlive (cells r) -> AllAlive (cells (step r ev)).
Proof.
  intros Ha. unfold AllAlive in *.
  destruct (step_cells r ev)
    as [-> | [(Hp & _) | [(rendered & count & now & draws & _ & _ & ->) | ->]]].
  - constructor.
  - now rewrite Hp.
  - destruct (triggerBo_population rendered count now draws (cells r))
      as (news & -> & _ & Hnew & _).
    apply Forall_app. split; [exact Ha |].
    eapply Forall_impl; [| exact Hnew]. cbv beta. intros p [-> _]. reflexivity.
  - cbn [setParticles particles]. rewrite updateParticles_eq.
    apply Forall_forall. intros q Hq. apply filter_In in Hq. apply Hq.
Qed.

(** X12. Every particle of the population has a life [> 0] (the opacity it is
    drawn with), in every state the component can reach. *)
Theorem particles_always_alive evs :
  AllAlive (cells (run mounted evs)).
Proof.
  unfold run.
  assert (H : AllAlive (cells mounted)) by constructor.
  revert H. generalize mounted.
  induction evs as [| ev evs IH]; intros r Hr; cbn [fold_left]; trivial.
  apply IH, step_AllAlive, Hr.
Qed.

(** X13. Particles evolve independently of each other: a frame on a population
    is the frame on its parts, in order. *)
Theorem updateParticles_app ps qs :
  updateParticles (ps ++ qs) = updateParticles ps ++ updateParticles qs.
Proof.
  rewrite !updateParticles_eq, map_app. apply filter_app.
Qed.

Lemma ofZ_nonneg z : 0 <= z -> nonneg (ofZ z).
Proof.
  intros Hz. destruct z as [| v |]; try lia; [exact I |].
  apply (atLeast_nonneg 0), ofZ_atLeast; lia.
Qed.

Lemma wholeFrom_atLeast x : wholeFrom 1 x -> atLeast 0 x.
Proof.
  intros [(z & Hz & ->) | H].
  - apply ofZ_atLeast; lia.
  - apply (atLeast_weaken 0 53); [lia | exact H].
Qed.

Lemma hundreds_nonneg x : hundreds x -> nonneg x.
Proof.
  intros [(z & Hz & _ & ->) | H].
  - apply ofZ_nonneg; lia.
  - eapply atLeast_nonneg, H.
Qed.

(** The continued combo is again a whole number. *)
Lemma newCombo_whole c k :
  wholeFrom 1 c -> 1 <= k -> wholeFrom 1 (add c (ofZ k)).
Proof.
  intros [(z & Hz & ->) | Hc] Hk.
  - destruct (Z.lt_ge_cases k (2 ^ 53)) as [Hk53 | Hk53].
    + destruct (Z.lt_ge_cases (z + k) (2 ^ 53)) as [Hs | Hs].
      * left. exists (z + k). split; [lia |]. apply add_exact; lia.
      * right. apply add_int_atLeast; lia.
    + right. apply add_atLeast; [lia | apply ofZ_nonneg; lia |].
      apply ofZ_atLeast; lia.
  - right. apply add_atLeast_l; [lia | exact Hc | apply ofZ_nonneg; lia].
Qed.

(** [count * 100], exactly or rounded. *)
Lemma count_hundred k :
  1 <= k ->
  (k * 100 < 2 ^ 53 /\ mul (ofZ k) (ofZ 100) = ofZ (k * 100))
  \/ atLeast 53 (mul (ofZ k) (ofZ 100)).
Proof.
  intros Hk.
  assert (H100 : 100 < 2 ^ 53) by reflexivity.
  destruct (Z.lt_ge_cases (k * 100) (2 ^ 53)) as [Hs | Hs].
  - left. split; [exact Hs |]. apply mul_exact; lia.
  - right. destruct (Z.lt_ge_cases k (2 ^ 53)) as [Hk53 | Hk53].
    + apply mul_int_atLeast; lia.
    + apply (atLeast_weaken 53 (53 + 6)); [lia |].
      apply mul_atLeast; try apply ofZ_valid; try lia.
      * apply ofZ_atLeast; lia.
      * apply ofZ_atLeast; [lia | change (2 ^ 6) with 64; lia].
Qed.

(** The points of a trigger: a multiple of 100, or a number from 2^53
    on. *)
Lemma points_cases k nc :
  1 <= k -> valid nc = true -> wholeFrom 1 nc ->
  (exists z, 0 < z < 2 ^ 53 /\ (100 | z)
             /\ mul (mul (ofZ k) (ofZ 100)) nc = ofZ z)
  \/ atLeast 53 (mul (mul (ofZ k) (ofZ 100)) nc).
Proof.
  intros Hk Vnc Hnc.
  assert (Va : valid (mul (ofZ k) (ofZ 100)) = true)
    by (apply mul_valid; apply ofZ_valid).
  destruct Hnc as [(c & Hc & ->) | Hnc].
  - destruct (count_hundred k Hk) as [[Hs ->] | Ha].
    + destruct (Z.lt_ge_cases (k * 100 * c) (2 ^ 53)) as [Hp | Hp].
      * left. exists (k * 100 * c).
        assert (0 < k * 100 * c) by (apply Z.mul_pos_pos; lia).
        split; [lia |]. split; [exists (k * c); ring |].
        apply mul_exact; lia.
      * right. apply mul_int_atLeast; lia.
    + right. apply (mul_atLeast 53 0); trivial; try lia; try apply ofZ_valid.
      apply ofZ_atLeast; lia.
  - right. apply (mul_atLeast 0 53); trivial; try lia.
    destruct (count_hundred k Hk) as [[Hs ->] | Ha].
    + apply ofZ_atLeast; lia.
    + apply (atLeast_weaken 0 53); [lia | exact Ha].
Qed.

(** Adding the points keeps the score made of hundreds. *)
Lemma score_hundreds s p :
  hundreds s ->
  (exists z, 0 < z < 2 ^ 53 /\ (100 | z) /\ p = ofZ z) \/ atLeast 53 p ->
  hundreds (add s p).
Proof.
  intros [(z & Hz & Hd & ->) | Hs] [(w & Hw & Hdw & ->) | Hp].
  - destruct (Z.lt_ge_cases (z + w) (2 ^ 53)) as [Hlt | Hge].
    + left. exists (z + w). split; [lia |].
      split; [now apply Z.divide_add_r |]. apply add_exact; lia.
    + right. apply add_int_atLeast; lia.
  - right. apply add_atLeast; [lia | apply ofZ_nonneg; lia | exact Hp].
  - right. apply add_atLeast_l; [lia | exact Hs | apply ofZ_nonneg; lia].
  - right. apply add_atLeast_l; [lia | exact Hs |]. eapply atLeast_nonneg, Hp.
Qed.

Lemma comboUpdate_ComboInv count now g :
  1 <= count -> ComboInv g -> ComboInv (comboUpdate count now g).
Proof.
  intros Hk (Hg & Hw & Hc & Hcm & Hs).
  split; [now apply comboUpdate_inv |].
  split; [now apply comboUpdate_wellFormed |].
  destruct Hg as (_ & _ & Hm). destruct Hw as (Vs & Vc & Vm & Vt).
  unfold comboUpdate. cbn [score combo maxCombo lastBoTime].
  set (nc := if lt (sub (ofZ now) (lastBoTime g)) (ofZ 2000)
             then add (combo g) (ofZ count) else ofZ 1).
  assert (Hnc : wholeFrom 1 nc).
  { unfold nc. destruct (lt _ _).
    - now apply newCombo_whole.
    - left. exists 1. split; [split; [lia | reflexivity] | reflexivity]. }
  assert (Vnc : valid nc = true).
  { unfold nc. destruct (lt _ _); [| reflexivity].
    apply add_valid; [exact Vc | apply ofZ_valid]. }
  split; [exact Hnc |]. split.
  - apply (le_Math_max_right 0 0).
    + apply le_atLeast; trivial. lia.
    + now apply wholeFrom_atLeast.
  - apply score_hundreds; [exact Hs |]. now apply points_cases.
Qed.

Lemma initialGameState_ComboInv : ComboInv initialGameState.
Proof.
  split; [apply initialGameState_inv |].
  split; [repeat split |].
  split; [left; exists 1; split; [split; [lia | reflexivity] | reflexivity] |].
  split; [reflexivity |].
  left. exists 0. split; [split; [lia | reflexivity] |].
  split; [exists 0; reflexivity | reflexivity].
Qed.

Lemma step_SessionInv r ev : SessionInv r -> SessionInv (step r ev).
Proof.
  intros [Hg Hs].
  destruct ev as [ok | | t now draws | | | |]; cbn [step].
  - destruct (connectionState (cells r)); try (split; assumption).
    destruct ok; split; trivial.
    intros g [= <-]. exact Hg.
  - split; assumption.
  - destruct (session r) as [rendered |] eqn:E; [| split; [| rewrite E]; assumption].
    split; [| exact Hs]. cbn [cells].
    destruct (onmessage_gameState rendered t now draws (cells r))
      as [-> | (count & Hc & ->)]; trivial.
    now apply comboUpdate_ComboInv.
  - split; assumption.
  - split; assumption.
  - destruct (connectionState (cells r)); try (split; assumption).
    split; [apply initialGameState_ComboInv | discriminate].
  - split; assumption.
Qed.

Lemma run_SessionInv evs : SessionInv (run mounted evs).
Proof.
  unfold run.
  assert (H : SessionInv mounted)
    by (split; [apply initialGameState_ComboInv | discriminate]).
  revert H. generalize mounted.
  induction evs as [| ev evs IH]; intros r Hr; cbn [fold_left]; trivial.
  apply IH, step_SessionInv, Hr.
Qed.


Lemma step_ErrorShown r ev :
  ErrorShown (cells r) -> ErrorShown (cells (step r ev)).
Proof.
  unfold ErrorShown. intros Hi.
  destruct ev as [ok | | t now draws | | | |]; cbn [step].
  - destruct (connectionState (cells r)) eqn:Hc;
      try (rewrite Hc; exact Hi).
    destruct ok; cbn; intros; discriminate.
  - cbn. discriminate.
  - destruct (session r) as [rendered |]; trivial. cbn [cells].
    unfold onmessage.
    destruct t as [[| c text] |]; trivial.
    destruct (Spotter.matchAll (c :: text)) as [ms |]; trivial.
    destruct (0 <? List.length ms)%nat; trivial.
    unfold triggerBo. destruct (explosion _ _ _ _ _). exact Hi.
  - cbn. discriminate.
  - cbn. intros _. discriminate.
  - destruct (connectionState (cells r)) eqn:Hc;
      try (rewrite Hc; exact Hi).
    cbn. discriminate.
  - exact Hi.
Qed.

(** X15. Whenever the connection state is ERROR there is a non-empty error
    message to show, in every state the component can reach. *)
Theorem error_state_has_message evs :
  ErrorShown (cells (run mounted evs)).
Proof.
  unfold run.
  assert (H : ErrorShown (cells mounted)) by (unfold ErrorShown; cbn; discriminate).
  revert H. generalize mounted.
  induction evs as [| ev evs IH]; intros r Hr; cbn [fold_left]; trivial.
  apply IH, step_ErrorShown, Hr.
Qed.

Lemma last_default {A : Type} (l : list A) : forall x a d,
  last (x :: l) a = last (x :: l) d.
Proof.
  induction l as [| y l IH]; intros x a d; [reflexivity |].
  change (last (y :: l) a = last (y :: l) d). apply IH.
Qed.

Lemma totalCount_nonneg ts : forall last,
  withinWindow last ts -> 0 <= totalCount ts.
Proof.
  induction ts as [| [count now] ts IH]; intros last Hw; [cbn; lia |].
  cbn [withinWindow fst snd] in Hw. destruct Hw as (Hk & _ & Hw).
  specialize (IH _ Hw). unfold totalCount in *. cbn [map fst fold_right]. lia.
Qed.

(** X16. Triggers that follow each other within the window add their
    occurrences to the combo: starting from a combo [c], the combo after
    the series is [c] plus the total count, as long as that sum is below
    2^53, and the time of the last trigger is recorded. *)
Theorem triggers_accumulate ts : forall g c,
  combo g = ofZ c -> 1 <= c -> c + totalCount ts < 2 ^ 53 ->
  withinWindow (lastBoTime g) ts ->
  combo (triggers ts g) = ofZ (c + totalCount ts)
  /\ lastBoTime (triggers ts g)
     = last (map (fun t => ofZ (snd t)) ts) (lastBoTime g).
Proof.
  induction ts as [| [count now] ts IH]; intros g c Hg Hc Hb Hw.
  - cbn. rewrite Z.add_0_r. auto.
  - cbn [withinWindow fst snd] in Hw. destruct Hw as (Hk & Hlt & Hw).
    pose proof (totalCount_nonneg ts _ Hw) as Hn.
    assert (Ht : totalCount ((count, now) :: ts) = count + totalCount ts)
      by reflexivity.
    rewrite Ht in *.
    change (triggers ((count, now) :: ts) g)
      with (triggers ts (comboUpdate count now g)).
    assert (Hc' : combo (comboUpdate count now g) = ofZ (c + count)).
    { unfold comboUpdate. cbn [combo]. rewrite Hlt, Hg. apply add_exact; lia. }
    destruct (IH (comboUpdate count now g) (c + count) Hc' ltac:(lia) ltac:(lia))
      as [IHc IHt]; [exact Hw |].
    rewrite IHc, IHt. split; [f_equal; lia |].
    change (lastBoTime (comboUpdate count now g)) with (ofZ now).
    destruct ts as [| t ts']; [reflexivity |].
    cbn [map snd].
    etransitivity; [apply (last_default _ _ _ (lastBoTime g)) | reflexivity].
Qed.

Lemma triggers_accumulate_witness :
  combo (triggers [(1, 1000); (2, 1500); (1, 3000)] initialGameState)
  = ofZ (1 + 4)
  /\ lastBoTime (triggers [(1, 1000); (2, 1500); (1, 3000)] initialGameState)
     = ofZ 3000.
Proof.
  apply (triggers_accumulate [(1, 1000); (2, 1500); (1, 3000)]
           initialGameState 1).
  - reflexivity.
  - lia.
  - reflexivity.
  - cbn [withinWindow fst snd]. repeat split; try lia.
Defined.

(** With a combo from 2^53 on the inner loop has 15 passes. *)
Lemma particleCount_large g :
  valid (combo g) = true -> atLeast 53 (combo g) ->
  iterations (particleCount g) = 15%nat.
Proof.
  intros Vc Hc. unfold particleCount.
  assert (E : Math_min (combo g) (ofZ 10) = ofZ 10).
  { destruct (combo g) as [| [] | | [] m e]; cbn [atLeast] in Hc;
      try contradiction; [reflexivity |].
    pose proof (valid_mantissa _ _ _ Vc) as Hm.
    assert (Z.log2 (Z.pos m) < 53) by (apply Z.log2_lt_pow2; lia).
    unfold Math_min, SFltb.
    change (ofZ 10) with (S754_finite false 5629499534213120 (-49)).
    cbn [SFcompare].
    replace (-49 ?= e) with Lt by (symmetry; apply Z.compare_lt_iff; lia).
    reflexivity. }
  rewrite E. reflexivity.
Qed.

(** Between 6 and 15 particles per occurrence. *)
Lemma particleCount_bounds g :
  valid (combo g) = true -> wholeFrom 1 (combo g) ->
  6 <= Z.of_nat (iterations (particleCount g)) <= 15.
Proof.
  intros Vc [(c & Hc & E) | H].
  - rewrite (particleCount_integer c Hc g E). lia.
  - rewrite (particleCount_large g Vc H). lia.
Qed.

(** X17. The burst of a transcript is given by its occurrences: in every
    reachable state a session message with [k] occurrences adds nothing
    when there is no live session, and otherwise [k] times the number of
    passes of the inner loop, which is between 6 and 15 and is fixed by
    the combo that the session has closed over. *)
Theorem burst_size_bounds evs transcription now draws :
  let r := run mounted evs in
  let k := occurrences transcription in
  let n := spawned (cells r)
             (cells (step r (SessionMessage transcription now draws))) in
  0 <= k
  /\ (session r = None -> n = 0)
  /\ (forall g, session r = Some g ->
        let per := Z.of_nat (iterations (particleCount g)) in
        6 <= per <= 15 /\ n = k * per).
Proof.
  intros r k n. subst n k.
  destruct (run_SessionInv evs) as [_ Hs]. fold r in Hs.
  assert (Hz : spawned (cells r) (cells r) = 0) by (unfold spawned; lia).
  assert (Hk : 0 <= occurrences transcription).
  { unfold occurrences, Spotter.matchCount.
    destruct transcription as [text |]; [| lia].
    destruct (Spotter.matchAll text); lia. }
  split; [exact Hk |]. cbn [step]. split.
  - intros E. rewrite E. exact Hz.
  - intros g E. rewrite E. cbn [cells].
    destruct (Hs g E) as (_ & (_ & Vc & _) & Hc & _).
    split; [now apply particleCount_bounds |].
    unfold onmessage, occurrences, Spotter.matchCount.
    destruct transcription as [text |]; [| lia].
    destruct text as [| c text]; [rewrite Hz; reflexivity |].
    destruct (Spotter.matchAll (c :: text)) as [ms |]; [| lia].
    destruct (Nat.ltb_spec 0 (List.length ms)) as [Hpos | Hzero].
    + apply triggerBo_spawned. lia.
    + rewrite Hz. assert (List.length ms = 0%nat) by lia. lia.
Qed.

End Population.
